(** * Segmentation evaluation metrics of [connectomics/utils/evaluate.py]

    A shallow embedding of the metric functions of the module
    ([adapted_rand], [voi], [split_vi], [vi_tables], [contingency_table],
    [divide_rows], [divide_columns], [xlogx], [confusion_matrix],
    [get_binary_jaccard]) together with the properties stated about them.

    Conventions of the embedding.
    - A label volume is the flattened array ([np.ravel]) of its labels, a
      [list nat]; labels are non-negative integers.
    - [float64] values are modelled as extended reals: a finite value is an
      exact real number, and the IEEE special values [+inf], [-inf] and
      [nan] are kept, with the IEEE rules for them.  Rounding, overflow to
      infinity and the sign of zero are not modelled.
    - [int64] values are integers in [Z] with the wrap-around of the
      machine operations written out ([wrap64]).
    - A Python call either returns a value or raises an exception:
      [result]. *)

From Stdlib Require Import List Arith ZArith Bool Lia Reals Lra.
From Stdlib Require Import FunctionalExtensionality.
Import ListNotations.

Set Implicit Arguments.

(** ** Python results *)

Inductive exn : Type :=
| ValueError
| IndexError
| ZeroDivisionError
| AssertionError
| AttributeError.

Inductive result (A : Type) : Type :=
| Ok (a : A)
| Raise (e : exn).

Arguments Ok {A} a.
Arguments Raise {A} e.

Definition bind {A B : Type} (r : result A) (k : A -> result B) : result B :=
  match r with
  | Ok a => k a
  | Raise e => Raise e
  end.

Definition rmap {A B : Type} (f : A -> B) (r : result A) : result B :=
  bind r (fun a => Ok (f a)).

Notation "x <- r ;; k" := (bind r (fun x => k))
  (at level 61, r at next level, right associativity).

(** ** 64-bit floating point values, idealised *)

Module F.

Open Scope R_scope.

Inductive float64 : Type :=
| Fin (r : R)
| PInf
| NInf
| NaN.

(** Sign of a real number, by the total order of [R]. *)
Definition Rsign (r : R) : comparison :=
match total_order_T r 0 with
| inleft (left _) => Lt
| inleft (right _) => Eq
| inright _ => Gt
end.

Definition zero : float64 := Fin 0.
Definition one : float64 := Fin 1.
Definition of_int (z : Z) : float64 := Fin (IZR z).

Definition neg (x : float64) : float64 :=
match x with
| Fin r => Fin (- r)
| PInf => NInf
| NInf => PInf
| NaN => NaN
end.

Definition add (x y : float64) : float64 :=
match x, y with
| NaN, _ | _, NaN => NaN
| Fin a, Fin b => Fin (a + b)
| PInf, NInf | NInf, PInf => NaN
| PInf, _ | _, PInf => PInf
| NInf, _ | _, NInf => NInf
end.

Definition sub (x y : float64) : float64 := add x (neg y).

(** An infinity of the sign of the real [r]; [nan] when [r] is zero. *)
Definition inf_of_sign (r : R) : float64 :=
match Rsign r with
| Gt => PInf
| Lt => NInf
| Eq => NaN
end.

Definition mul (x y : float64) : float64 :=
match x, y with
| NaN, _ | _, NaN => NaN
| Fin a, Fin b => Fin (a * b)
| Fin a, PInf | PInf, Fin a => inf_of_sign a
| Fin a, NInf | NInf, Fin a => inf_of_sign (- a)
| PInf, PInf | NInf, NInf => PInf
| PInf, NInf | NInf, PInf => NaN
end.

(** numpy's true division: a zero divisor gives an infinity of the sign
  of the dividend, or [nan] for [0/0]; no exception is raised. *)
Definition div (x y : float64) : float64 :=
match x, y with
| NaN, _ | _, NaN => NaN
| Fin a, Fin b =>
    match Rsign b with
    | Eq => inf_of_sign a
    | _ => Fin (a / b)
    end
| Fin _, PInf | Fin _, NInf => Fin 0
| PInf, Fin b =>
    match Rsign b with Lt => NInf | _ => PInf end
| NInf, Fin b =>
    match Rsign b with Lt => PInf | _ => NInf end
| PInf, PInf | PInf, NInf | NInf, PInf | NInf, NInf => NaN
end.

(** [np.log2] *)
Definition log2 (x : float64) : float64 :=
match x with
| Fin a =>
    match Rsign a with
    | Gt => Fin (ln a / ln 2)
    | Eq => NInf
    | Lt => NaN
    end
| PInf => PInf
| NInf => NaN
| NaN => NaN
end.

(** [x != 0], the test behind [ndarray.nonzero()]. *)
Definition nonzero (x : float64) : bool :=
match x with
| Fin r => match Rsign r with Eq => false | _ => true end
| _ => true
end.

(** [x < y] and [x <= y]; every comparison with [nan] is false. *)
Definition ltb (x y : float64) : bool :=
match x, y with
| NaN, _ | _, NaN => false
| Fin a, Fin b => match Rsign (a - b) with Lt => true | _ => false end
| PInf, _ | _, NInf => false
| NInf, _ | Fin _, PInf => true
end.

Definition leb (x y : float64) : bool :=
match x, y with
| NaN, _ | _, NaN => false
| Fin a, Fin b => match Rsign (a - b) with Gt => false | _ => true end
| NInf, _ | _, PInf => true
| PInf, _ | Fin _, NInf => false
end.

Definition gtb (x y : float64) : bool := ltb y x.

(** [np.sum] of an array.  Addition of the idealised values is
  associative and commutative, so the order of accumulation is
  immaterial. *)
Definition sum (l : list float64) : float64 := fold_right add zero l.

End F.

Abbreviation float64 := F.float64.

(** ** 64-bit integers *)

Open Scope Z_scope.

(** The value of a two's complement 64-bit integer holding [z]. *)
Definition wrap64 (z : Z) : Z := (z + 2 ^ 63) mod 2 ^ 64 - 2 ^ 63.

Definition add64 (a b : Z) : Z := wrap64 (a + b).
Definition mul64 (a b : Z) : Z := wrap64 (a * b).

(** [np.sum] of an [int64] array. *)
Definition sum64 (l : list Z) : Z := fold_right add64 0 l.

(** The mathematical sum of a list of integers. *)
Definition Zsum (l : list Z) : Z := fold_right Z.add 0 l.

Close Scope Z_scope.

(** ** Arrays *)

(** [np.amax] of a flattened label array; it raises on an empty one. *)
Definition amax (l : list nat) : result nat :=
  match l with
  | [] => Raise ValueError
  | _ :: _ => Ok (list_max l)
  end.

(** [a[idx]] for an index array [idx]. *)
Definition take {A : Type} (d : A) (a : list A) (idx : list nat) : list A :=
  map (fun i => nth i a d) idx.

(** ** Sparse matrices

    A [scipy.sparse] matrix is modelled by its shape and by the partial
    map from positions to stored values: [entry m i j = None] for a
    position that is not stored (an implicit zero), [Some v] for a stored
    value [v], which may itself be zero.  The storage layout (COO, CSR,
    CSC) and the order of the stored entries are not part of the model. *)

Section SparseMatrix.

Variable A : Type.
Variable zero : A.
Variable add : A -> A -> A.

Record spmatrix : Type := SpMatrix {
  nrows : nat;
  ncols : nat;
  entry : nat -> nat -> option A
}.

Definition value (o : option A) : A :=
  match o with
  | Some v => v
  | None => zero
  end.

(** [m[i, j]] *)
Definition get (m : spmatrix) (i j : nat) : A := value (entry m i j).

Definition asum (l : list A) : A := fold_right add zero l.

(** The stored value at [(i, j)] when a COO triple list is converted to
    a compressed format: the values of duplicate positions are added. *)
Fixpoint coo_entry (es : list (nat * nat * A)) (i j : nat) : option A :=
  match es with
  | [] => None
  | (r, c, v) :: es' =>
      if Nat.eqb r i && Nat.eqb c j then
        Some (match coo_entry es' i j with
              | Some w => add v w
              | None => v
              end)
      else coo_entry es' i j
  end.

Definition triples (data : list A) (row col : list nat)
  : list (nat * nat * A) :=
  combine (combine row col) data.

(** [sparse.coo_matrix((data, (row, col)), shape=(nr, nc))] and its
    conversions [.tocsc()], [csr_matrix(...)]: the three arrays must
    have one length. *)
Definition coo_matrix (data : list A) (row col : list nat) (nr nc : nat)
  : result spmatrix :=
  if Nat.eqb (length row) (length col)
     && Nat.eqb (length data) (length row)
  then Ok (SpMatrix nr nc (coo_entry (triples data row col)))
  else Raise ValueError.

(** [m[r0:r1, c0:c1]] for [r0 <= r1 <= nrows m], [c0 <= c1 <= ncols m]. *)
Definition slice (m : spmatrix) (r0 r1 c0 c1 : nat) : spmatrix :=
  SpMatrix (r1 - r0) (c1 - c0)
    (fun i j =>
       if Nat.ltb i (r1 - r0) && Nat.ltb j (c1 - c0)
       then entry m (r0 + i) (c0 + j) else None).

(** [m[rows, :][:, cols]] for index arrays [rows] and [cols]. *)
Definition select (m : spmatrix) (rows cols : list nat) : spmatrix :=
  SpMatrix (length rows) (length cols)
    (fun k l =>
       if Nat.ltb k (length rows) && Nat.ltb l (length cols)
       then entry m (nth k rows 0) (nth l cols 0) else None).

(** An operation on the stored values ([m.data]), position by position. *)
Definition map_data (f : nat -> nat -> A -> A) (m : spmatrix) : spmatrix :=
  SpMatrix (nrows m) (ncols m)
    (fun i j => option_map (f i j) (entry m i j)).

(** [m.multiply(m')], the element-wise product: an entry is stored where
    both factors store one. *)
Definition multiply (mul : A -> A -> A) (m m' : spmatrix) : spmatrix :=
  SpMatrix (nrows m) (ncols m)
    (fun i j =>
       match entry m i j, entry m' i j with
       | Some v, Some w => Some (mul v w)
       | _, _ => None
       end).

Definition row (m : spmatrix) (i : nat) : list A :=
  map (fun j => get m i j) (seq 0 (ncols m)).

Definition column (m : spmatrix) (j : nat) : list A :=
  map (fun i => get m i j) (seq 0 (nrows m)).

(** [m.sum(axis=1)], [m.sum(axis=0)] and [m.sum()] *)
Definition row_sums (m : spmatrix) : list A :=
  map (fun i => asum (row m i)) (seq 0 (nrows m)).

Definition col_sums (m : spmatrix) : list A :=
  map (fun j => asum (column m j)) (seq 0 (ncols m)).

Definition msum (m : spmatrix) : A := asum (row_sums m).

Definition transpose (m : spmatrix) : spmatrix :=
  SpMatrix (ncols m) (nrows m) (fun i j => entry m j i).

End SparseMatrix.

Arguments SpMatrix {A} nrows ncols entry.
Arguments nrows {A} _.
Arguments ncols {A} _.
Arguments entry {A} _ _ _.
Arguments select {A} m rows cols.
Arguments slice {A} m r0 r1 c0 c1.
Arguments map_data {A} f m.
Arguments multiply {A} mul m m'.
Arguments transpose {A} m.
Arguments triples {A} data row col.

(** ** Adapted Rand error *)

Definition int_matrix : Type := spmatrix Z.

Inductive rand_output : Type :=
| Are (are : float64)
| AreStats (are precision recall : float64).

Record rand_sums : Type := RandSums {
  rs_sumA : Z;
  rs_sumB : float64;
  rs_sumAB : float64
}.

(** [p_ij = sparse.csr_matrix((ones_data, (segA[:], segB[:])),
    shape=(n_labels_A, n_labels_B))], with [segA] the ground truth. *)
Definition rand_table (seg gt : list nat) : result int_matrix :=
  let segA := gt in
  let segB := seg in
  let n := length segA in
  n_labels_A <- rmap S (amax segA) ;;
  n_labels_B <- rmap S (amax segB) ;;
  let ones_data := repeat 1%Z n in
  coo_matrix add64 ones_data segA segB n_labels_A n_labels_B.

(** The three sums [sumA], [sumB] and [sumAB] of [adapted_rand]. *)
Definition rand_sums_of (p_ij : int_matrix) (n : nat) : rand_sums :=
  let n_labels_A := nrows p_ij in
  let n_labels_B := ncols p_ij in
  let a := slice p_ij 1 n_labels_A 0 n_labels_B in
  let b := slice p_ij 1 n_labels_A 1 n_labels_B in
  let c := slice p_ij 1 n_labels_A 0 1 in
  let d := multiply mul64 b b in
  let a_i := row_sums 0%Z add64 a in
  let b_i := col_sums 0%Z add64 b in
  let sumA := sum64 (map (fun x => mul64 x x) a_i) in
  let sumB :=
    F.add (F.of_int (sum64 (map (fun x => mul64 x x) b_i)))
          (F.div (F.of_int (msum 0%Z add64 c)) (F.of_int (Z.of_nat n))) in
  let sumAB :=
    F.add (F.of_int (msum 0%Z add64 d))
          (F.div (F.of_int (msum 0%Z add64 c)) (F.of_int (Z.of_nat n))) in
  RandSums sumA sumB sumAB.

Definition rand_scores (s : rand_sums) : float64 * float64 * float64 :=
  let precision := F.div (rs_sumAB s) (rs_sumB s) in
  let recall := F.div (rs_sumAB s) (F.of_int (rs_sumA s)) in
  let fScore :=
    F.div (F.mul (F.mul (F.Fin 2) precision) recall)
          (F.add precision recall) in
  let are := F.sub (F.Fin 1) fScore in
  (are, precision, recall).

Definition adapted_rand (seg gt : list nat) (all_stats : bool)
  : result rand_output :=
  p_ij <- rand_table seg gt ;;
  let '(are, precision, recall) :=
    rand_scores (rand_sums_of p_ij (length gt)) in
  if all_stats then Ok (AreStats are precision recall) else Ok (Are are).

(** *** The Adapted Rand statistics as the specification words them *)

Module RandSpec.

Open Scope Z_scope.

(** Number of voxels labelled [i] in the ground truth and [j] in the
    candidate segmentation. *)
Definition p (seg gt : list nat) (i j : nat) : Z :=
  Z.of_nat (length (filter (fun v => Nat.eqb (fst v) i && Nat.eqb (snd v) j)
                           (combine gt seg))).

Section Sums.

Variables seg gt : list nat.

Let N : Z := Z.of_nat (length gt).
(** ground-truth labels [1 .. max gt] and candidate labels *)
Let gt_rows : list nat := seq 1 (list_max gt).
Let seg_cols : list nat := seq 0 (S (list_max seg)).
Let seg_cols1 : list nat := seq 1 (list_max seg).

(** [a_i[k]]: row sum over all candidate columns, column 0 included. *)
Definition a_i : list Z :=
  map (fun i => Zsum (map (fun j => p seg gt i j) seg_cols)) gt_rows.

(** [b_j[k]]: column sum over the rows [1..], for the columns [1..]. *)
Definition b_j : list Z :=
  map (fun j => Zsum (map (fun i => p seg gt i j) gt_rows)) seg_cols1.

(** [sum(c)]: voxels labelled in the ground truth, 0 in the candidate. *)
Definition sum_c : Z := Zsum (map (fun i => p seg gt i 0%nat) gt_rows).

(** Sum of the squared entries of [b]. *)
Definition sum_b2 : Z :=
  Zsum (map (fun i =>
               Zsum (map (fun j => p seg gt i j * p seg gt i j) seg_cols1))
            gt_rows).

Definition sumA : Z := Zsum (map (fun x => x * x) a_i).

Definition sumB : float64 :=
  F.add (F.of_int (Zsum (map (fun x => x * x) b_j)))
        (F.div (F.of_int sum_c) (F.of_int N)).

Definition sumAB : float64 :=
  F.add (F.of_int sum_b2) (F.div (F.of_int sum_c) (F.of_int N)).

Definition precision : float64 := F.div sumAB sumB.
Definition recall : float64 := F.div sumAB (F.of_int sumA).

Definition error : float64 :=
  F.sub (F.Fin 1)
        (F.div (F.mul (F.mul (F.Fin 2) precision) recall)
               (F.add precision recall)).

End Sums.

End RandSpec.

(** ** Contingency table *)

Definition float_matrix : Type := spmatrix float64.

(** A dense [np.ndarray] (given by its rows) or a [scipy.sparse] matrix. *)
Inductive fmatrix : Type :=
| Dense (rows : list (list float64))
| Sparse (m : float_matrix).

(** [ignored[labels == i] = True] *)
Definition mark_equal (labels : list nat) (i : nat) (ignored : list bool)
  : list bool :=
  map (fun lb => if Nat.eqb (fst lb) i then true else snd lb)
      (combine labels ignored).

(** [data[ignored] = 0] *)
Definition clear_ignored (data : list float64) (ignored : list bool)
  : list float64 :=
  map (fun db => if (snd db : bool) then F.zero else fst db)
      (combine data ignored).

(** The weights [data] of the voxels, for arrays of one length
    ([contingency_table] raises before they are used otherwise). *)
Definition voxel_weights (segr gtr ignore_seg ignore_gt : list nat)
  : list float64 :=
  let ignored := repeat false (length segr) in
  let data := repeat F.one (length gtr) in
  let ignored :=
    fold_left (fun ign i => mark_equal segr i ign) ignore_seg ignored in
  let ignored :=
    fold_left (fun ign j => mark_equal gtr j ign) ignore_gt ignored in
  clear_ignored data ignored.

(** [cont /= total] and [cont / total] for a Python float [total]: scipy
    multiplies the stored values by the reciprocal [1.0 / total], which
    Python computes and which raises for a zero divisor. *)
Definition divide_by_scalar (cont : float_matrix) (total : float64)
  : result float_matrix :=
  if F.nonzero total then
    let recip := F.div F.one total in
    Ok (map_data (fun _ _ v => F.mul v recip) cont)
  else Raise ZeroDivisionError.

Definition contingency_table
  (seg gt : list nat) (ignore_seg ignore_gt : list nat) (norm : bool)
  : result float_matrix :=
  let segr := seg in
  let gtr := gt in
  if negb (Nat.eqb (length segr) (length gtr)) then Raise IndexError
  else
    let data := voxel_weights segr gtr ignore_seg ignore_gt in
    nr <- rmap S (amax segr) ;;
    nc <- rmap S (amax gtr) ;;
    cont <- coo_matrix F.add data segr gtr nr nc ;;
    if norm then divide_by_scalar cont (msum F.zero F.add cont)
    else Ok cont.

(** The default arguments [ignore_seg=[0], ignore_gt=[0], norm=True]. *)
Definition default_ignore_seg : list nat := [0].
Definition default_ignore_gt : list nat := [0].

Definition contingency_table_default (seg gt : list nat)
  : result float_matrix :=
  contingency_table seg gt default_ignore_seg default_ignore_gt true.

(** ** Division of rows and columns, [x log x] *)

(** Indices of the nonzero elements: [a.nonzero()[0]]. *)
Definition nonzero_idx (a : list float64) : list nat :=
  filter (fun i => F.nonzero (nth i a F.zero)) (seq 0 (length a)).

(** [out[i, j] = matrix[i, j] / row[j]]; in a sparse matrix only the
    nonzero stored values are divided.  The argument [in_place] chooses
    whether the result overwrites [matrix]; the value returned is the
    same, and it is what is modelled (also for [divide_rows] and
    [xlogx]).  The vector is taken to be as long as the dimension it
    divides, as it is in [vi_tables]: [np.take] raises [IndexError] for
    a stored index beyond a shorter vector, which is not modelled, and
    the properties below are stated for vectors that are long enough. *)
Definition divide_columns (matrix : fmatrix) (row : list float64) : fmatrix :=
  match matrix with
  | Sparse out =>
      Sparse (map_data
                (fun _ j v =>
                   if F.nonzero v then F.div v (nth j row F.NaN) else v)
                out)
  | Dense out =>
      Dense (map (fun r => map (fun vd => F.div (fst vd) (snd vd))
                               (combine r row)) out)
  end.

(** [out[i, j] = matrix[i, j] / column[i]], for a vector [column] as
    long as the matrix has rows. *)
Definition divide_rows (matrix : fmatrix) (column : list float64) : fmatrix :=
  match matrix with
  | Sparse out =>
      Sparse (map_data
                (fun i _ v =>
                   if F.nonzero v then F.div v (nth i column F.NaN) else v)
                out)
  | Dense out =>
      Dense (map (fun rd => map (fun v => F.div v (snd rd)) (fst rd))
                 (combine out column))
  end.

Section XLogX.

(** The base-2 logarithm applied by [xlogx]. *)
Variable lg : float64 -> float64.

(** [z[nz] *= lg(z[nz])] for the nonzero positions [nz] of [z], seen at
    one element [v] of [z]. *)
Definition xlogx_elem (v : float64) : float64 :=
  if F.nonzero v then F.mul v (lg v) else v.

(** On a sparse matrix [z] is [y.data], the stored values; on an array
    (of any shape, given here by its rows) it is the array itself. *)
Definition xlogx_with (x : fmatrix) : fmatrix :=
  match x with
  | Sparse y => Sparse (map_data (fun _ _ v => xlogx_elem v) y)
  | Dense y => Dense (map (map xlogx_elem) y)
  end.

End XLogX.

Definition xlogx (x : fmatrix) : fmatrix := xlogx_with F.log2 x.



(** [x.sum(axis=1)] and [x.sum(axis=0)], flattened. *)
Definition sum_axis1 (x : fmatrix) : list float64 :=
  match x with
  | Sparse m => row_sums F.zero F.add m
  | Dense rows => map F.sum rows
  end.

Definition sum_axis0 (x : fmatrix) : list float64 :=
  match x with
  | Sparse m => col_sums F.zero F.add m
  | Dense rows =>
      map (fun j => F.sum (map (fun r => nth j r F.zero) rows))
          (seq 0 (length (hd [] rows)))
  end.

(** ** Variation of information *)

Fixpoint update {A : Type} (a : list A) (i : nat) (v : A) : list A :=
  match a, i with
  | [], _ => []
  | _ :: a', O => v :: a'
  | x :: a', S i' => x :: update a' i' v
  end.

(** [a[idx] = vals] *)
Fixpoint put {A : Type} (a : list A) (idx : list nat) (vals : list A)
  : list A :=
  match idx, vals with
  | i :: idx', v :: vals' => put (update a i v) idx' vals'
  | _, _ => a
  end.

(** [-(p * lp)], element by element. *)
Definition neg_mul (p lp : list float64) : list float64 :=
  map (fun pl => F.neg (F.mul (fst pl) (snd pl))) (combine p lp).

Inductive vi_input : Type :=
| LabelFields (x y : list nat)
| Table (cont : float_matrix).

Record vi_result : Type := ViResult {
  vi_pxy : float_matrix;
  vi_px : list float64;
  vi_py : list float64;
  vi_hxgy : list float64;
  vi_hygx : list float64;
  vi_lpygx : list float64;
  vi_lpxgy : list float64
}.

(** The part of [vi_tables] after the normalised table is built. *)
Definition vi_of_table (pxy : float_matrix) : vi_result :=
  let px := row_sums F.zero F.add pxy in
  let py := col_sums F.zero F.add pxy in
  let nzx := nonzero_idx px in
  let nzy := nonzero_idx py in
  let nzpx := take F.zero px nzx in
  let nzpy := take F.zero py nzy in
  let nzpxy := select pxy nzx nzy in
  let lpygx := repeat F.zero (length px) in
  let lpygx :=
    put lpygx nzx (sum_axis1 (xlogx (divide_rows (Sparse nzpxy) nzpx))) in
  let hygx := neg_mul px lpygx in
  let lpxgy := repeat F.zero (length py) in
  let lpxgy :=
    put lpxgy nzy (sum_axis0 (xlogx (divide_columns (Sparse nzpxy) nzpy))) in
  let hxgy := neg_mul py lpxgy in
  ViResult pxy px py hxgy hygx lpygx lpxgy.

Definition vi_tables (xy : vi_input) (ignore_x ignore_y : list nat)
  : result vi_result :=
  pxy <- match xy with
         | LabelFields x y => contingency_table x y ignore_x ignore_y true
         | Table cont =>
             let total := msum F.zero F.add cont in
             divide_by_scalar cont total
         end ;;
  Ok (vi_of_table pxy).

(** [np.array([hygx.sum(), hxgy.sum()])]: false merges, false splits. *)
Definition split_vi (xy : vi_input) (ignore_x ignore_y : list nat)
  : result (float64 * float64) :=
  t <- vi_tables xy ignore_x ignore_y ;;
  Ok (F.sum (vi_hygx t), F.sum (vi_hxgy t)).

(** [(split, merge)], that is [(H(X|Y), H(Y|X))]. *)
Definition voi (reconstruction groundtruth : list nat)
  (ignore_reconstruction ignore_groundtruth : list nat)
  : result (float64 * float64) :=
  r <- split_vi (LabelFields reconstruction groundtruth)
                ignore_reconstruction ignore_groundtruth ;;
  let '(hyxg, hxgy) := r in
  Ok (hxgy, hyxg).

(** The default arguments
    [ignore_reconstruction=[], ignore_groundtruth=[0]]. *)
Definition voi_default (reconstruction groundtruth : list nat)
  : result (float64 * float64) :=
  voi reconstruction groundtruth [] [0].

(** ** Binary segmentation *)

Definition count_true (mask : list bool) : Z :=
  Z.of_nat (length (filter (fun b => b) mask)).

(** [TP, FP, TN, FN] for arrays of one shape; [gt] holds integers.  The
    element-wise [&] of masks of different shapes raises (shapes that
    numpy would broadcast are not modelled).  A count of elements cannot
    reach [2^63], so the counts are not wrapped. *)
Definition confusion_matrix (pred : list float64) (gt : list Z)
  (thres : float64) : result (Z * Z * Z * Z) :=
  if Nat.eqb (length pred) (length gt) then
    let cells := combine gt pred in
    let TP := count_true
      (map (fun c => Z.eqb (fst c) 1 && F.gtb (snd c) thres) cells) in
    let FP := count_true
      (map (fun c => Z.eqb (fst c) 0 && F.gtb (snd c) thres) cells) in
    let TN := count_true
      (map (fun c => Z.eqb (fst c) 0 && F.leb (snd c) thres) cells) in
    let FN := count_true
      (map (fun c => Z.eqb (fst c) 1 && F.leb (snd c) thres) cells) in
    Ok (TP, FP, TN, FN)
  else Raise ValueError.

(** One row of the score array: foreground IoU, IoU, precision, recall. *)
Definition jaccard_row (TP FP TN FN : Z) : list float64 :=
  let precision := F.div (F.of_int TP) (F.of_int (add64 TP FP)) in
  let recall := F.div (F.of_int TP) (F.of_int (add64 TP FN)) in
  let iou_fg := F.div (F.of_int TP) (F.of_int (add64 (add64 TP FP) FN)) in
  let iou_bg := F.div (F.of_int TN) (F.of_int (add64 (add64 TN FP) FN)) in
  let iou := F.div (F.add iou_fg iou_bg) (F.Fin 2) in
  [iou_fg; iou; precision; recall].

(** The condition of [assert 0.0 < t < 1.0]. *)
Definition valid_threshold (t : float64) : bool :=
  F.ltb (F.Fin 0) t && F.ltb t (F.Fin 1).

Fixpoint get_binary_jaccard (pred : list float64) (gt : list Z)
  (thres : list float64) : result (list (list float64)) :=
  match thres with
  | [] => Ok []
  | t :: thres' =>
      if valid_threshold t then
        c <- confusion_matrix pred gt t ;;
        let '(TP, FP, TN, FN) := c in
        score <- get_binary_jaccard pred gt thres' ;;
        Ok (jaccard_row TP FP TN FN :: score)
      else Raise AssertionError
  end.

(** ** Colouring of the confusion matrix *)

(** An image of shape [(3, z, y, x)]: three channels over the flattened
    voxels of a volume of rank 3. *)
Record rgb_image : Type := RgbImage {
  channel0 : list float64;
  channel1 : list float64;
  channel2 : list float64
}.

(** [a[mask] = v] on one channel. *)
Definition set_where (mask : list bool) (v : float64) (a : list float64)
  : list float64 :=
  map (fun ma => if (fst ma : bool) then v else snd ma) (combine mask a).

(** [img[k:, mask] = v]: the channels from [k] on are assigned. *)
Definition assign_from (k : nat) (mask : list bool) (v : float64)
  (img : rgb_image) : rgb_image :=
  RgbImage
    (if Nat.leb k 0 then set_where mask v (channel0 img) else channel0 img)
    (if Nat.leb k 1 then set_where mask v (channel1 img) else channel1 img)
    (if Nat.leb k 2 then set_where mask v (channel2 img) else channel2 img).

(** [np.zeros((3, z, y, x))] for a volume of [n] voxels. *)
Definition zeros_image (n : nat) : rgb_image :=
  RgbImage (repeat F.zero n) (repeat F.zero n) (repeat F.zero n).

Definition add_arrays (a b : list float64) : list float64 :=
  map (fun xy => F.add (fst xy) (snd xy)) (combine a b).

Definition add_images (a b : rgb_image) : rgb_image :=
  RgbImage (add_arrays (channel0 a) (channel0 b))
           (add_arrays (channel1 a) (channel1 b))
           (add_arrays (channel2 a) (channel2 b)).

(** [img.transpose((1, 2, 3, 0))]: the three channel values of every
    voxel. *)
Definition channels_last (n : nat) (img : rgb_image) : list (list float64) :=
  map (fun k => [nth k (channel0 img) F.zero;
                 nth k (channel1 img) F.zero;
                 nth k (channel2 img) F.zero])
      (seq 0 n).

(** [confusion_matrix_visualize] on volumes of rank 3 and of one shape,
    given flattened. *)
Definition confusion_matrix_visualize (pred : list float64) (gt : list Z)
  (thres : float64) : result (list (list float64)) :=
  if Nat.eqb (length pred) (length gt) then
    let cells := combine gt pred in
    let TP := map (fun c => Z.eqb (fst c) 1 && F.gtb (snd c) thres) cells in
    let FP := map (fun c => Z.eqb (fst c) 0 && F.gtb (snd c) thres) cells in
    let TN := map (fun c => Z.eqb (fst c) 0 && F.leb (snd c) thres) cells in
    let FN := map (fun c => Z.eqb (fst c) 1 && F.leb (snd c) thres) cells in
    let n := length TP in
    let img_rgb_tp := zeros_image n in
    let img_rgb_tp := assign_from 0 TP (F.Fin 0) img_rgb_tp in
    let img_rgb_tp := assign_from 1 TP (F.Fin 255) img_rgb_tp in
    let img_rgb_tp := assign_from 2 TP (F.Fin 0) img_rgb_tp in
    let img_rgb_fp := zeros_image n in
    let img_rgb_fp := assign_from 0 FP (F.Fin 0) img_rgb_fp in
    let img_rgb_fp := assign_from 1 FP (F.Fin 0) img_rgb_fp in
    let img_rgb_fp := assign_from 2 FP (F.Fin 255) img_rgb_fp in
    let img_rgb_fn := zeros_image n in
    let img_rgb_fn := assign_from 0 FN (F.Fin 255) img_rgb_fn in
    let img_rgb_fn := assign_from 1 FN (F.Fin 0) img_rgb_fn in
    let img_rgb_fp := assign_from 2 FN (F.Fin 0) img_rgb_fp in
    let img_rgb_tn := zeros_image n in
    let img_colored :=
      add_images (add_images (add_images img_rgb_tp img_rgb_fp) img_rgb_fn)
                 img_rgb_tn in
    Ok (channels_last n img_colored)
  else Raise ValueError.

(** The colour of a voxel by its category: green for a true positive, blue
    for a false positive, red for a false negative, black otherwise. *)
Definition category_colour (thres : float64) (c : Z * float64)
  : list float64 :=
  if Z.eqb (fst c) 1 && F.gtb (snd c) thres
  then [F.Fin 0; F.Fin 255; F.Fin 0]
  else if Z.eqb (fst c) 0 && F.gtb (snd c) thres
  then [F.Fin 0; F.Fin 0; F.Fin 255]
  else if Z.eqb (fst c) 1 && F.leb (snd c) thres
  then [F.Fin 255; F.Fin 0; F.Fin 0]
  else [F.Fin 0; F.Fin 0; F.Fin 0].

(** ** CREMI distance statistics *)

(** [np.logical_or] and [np.logical_and] of masks of one shape (shapes
    that numpy would broadcast are not modelled), [np.invert] of a
    mask. *)
Definition logical_or (a b : list bool) : result (list bool) :=
  if Nat.eqb (length a) (length b)
  then Ok (map (fun ab => fst ab || snd ab) (combine a b))
  else Raise ValueError.

Definition logical_and (a b : list bool) : result (list bool) :=
  if Nat.eqb (length a) (length b)
  then Ok (map (fun ab => fst ab && snd ab) (combine a b))
  else Raise ValueError.

Definition invert (mask : list bool) : list bool := map negb mask.

(** [a[mask]] for a boolean mask of the shape of [a]. *)
Definition masked {A : Type} (a : list A) (mask : list bool)
  : result (list A) :=
  if Nat.eqb (length a) (length mask)
  then Ok (map fst (filter snd (combine a mask)))
  else Raise IndexError.

(** [np.mean]: of an empty array it is [0 / 0], that is [nan]. *)
Definition mean (l : list float64) : float64 :=
  F.div (F.sum l) (F.of_int (Z.of_nat (length l))).

(** [np.maximum] propagates [nan]. *)
Definition maximum (x y : float64) : float64 :=
  match x, y with
  | F.NaN, _ | _, F.NaN => F.NaN
  | _, _ => if F.ltb x y then y else x
  end.

(** [np.amax] of a float array; it raises on an empty one. *)
Definition amax_float (l : list float64) : result float64 :=
  match l with
  | [] => Raise ValueError
  | x :: l' => Ok (fold_left maximum l' x)
  end.

(** [data.astype(np.uint64)] of an integer array wraps modulo [2^64];
    then [data[data == 0] = 0xffffffffffffffff]. *)
Definition convert_dtype (data : list Z) : list Z :=
  let data := map (fun d => d mod 2 ^ 64)%Z data in
  map (fun d => if Z.eqb d 0 then 0xffffffffffffffff%Z else d) data.

(** The entries of [stats] that can raise or are returned; [std] and
    [median] only feed the printed report and raise nothing. *)
Record cleft_stats : Type := CleftStats {
  stats_mean : float64;
  stats_max : float64;
  stats_count : Z
}.

Definition count_false_positives (test_clefts_mask : list bool)
  (truth_clefts_edt : list float64) (threshold : float64) : result Z :=
  let mask1 := invert test_clefts_mask in
  let mask2 := map (fun d => F.gtb d threshold) truth_clefts_edt in
  both <- logical_and mask1 mask2 ;;
  false_positives <- masked truth_clefts_edt both ;;
  Ok (Z.of_nat (length false_positives)).

Definition count_false_negatives (truth_clefts_mask : list bool)
  (test_clefts_edt : list float64) (threshold : float64) : result Z :=
  let mask1 := invert truth_clefts_mask in
  let mask2 := map (fun d => F.gtb d threshold) test_clefts_edt in
  both <- logical_and mask1 mask2 ;;
  false_negatives <- masked test_clefts_edt both ;;
  Ok (Z.of_nat (length false_negatives)).

Definition acc_false_positives (test_clefts_mask : list bool)
  (truth_clefts_edt : list float64) : result cleft_stats :=
  let mask := invert test_clefts_mask in
  false_positives <- masked truth_clefts_edt mask ;;
  let m := mean false_positives in
  mx <- amax_float false_positives ;;
  Ok (CleftStats m mx (Z.of_nat (length false_positives))).

Definition acc_false_negatives (truth_clefts_mask : list bool)
  (test_clefts_edt : list float64) : result cleft_stats :=
  let mask := invert truth_clefts_mask in
  false_negatives <- masked test_clefts_edt mask ;;
  let m := mean false_negatives in
  mx <- amax_float false_negatives ;;
  Ok (CleftStats m mx (Z.of_nat (length false_negatives))).

Section Cremi.

(** [ndimage.distance_transform_edt(mask, sampling=resolution)] for the
    shape of the volumes and the resolution of the call: for each element
    of the mask its distance to the nearest [False] element. *)
Variable distance_transform_edt : list bool -> list float64.

(** The volumes hold integers; the text written to the standard output is
    not modelled. *)
Definition cremi_distance (pred gt : list Z) : result (float64 * float64) :=
  let test_clefts := convert_dtype pred in
  let truth_clefts := convert_dtype gt in
  let truth_clefts_invalid :=
    map (fun t => Z.eqb t 0xfffffffffffffffe%Z) truth_clefts in
  test_clefts_mask <-
    logical_or (map (fun t => Z.eqb t 0xffffffffffffffff%Z) test_clefts)
               truth_clefts_invalid ;;
  truth_clefts_mask <-
    logical_or (map (fun t => Z.eqb t 0xffffffffffffffff%Z) truth_clefts)
               truth_clefts_invalid ;;
  let test_clefts_edt := distance_transform_edt test_clefts_mask in
  let truth_clefts_edt := distance_transform_edt truth_clefts_mask in
  false_positive_count <-
    count_false_positives test_clefts_mask truth_clefts_edt (F.Fin 200) ;;
  false_negative_count <-
    count_false_negatives truth_clefts_mask test_clefts_edt (F.Fin 200) ;;
  false_positive_stats <-
    acc_false_positives test_clefts_mask truth_clefts_edt ;;
  false_negative_stats <-
    acc_false_negatives truth_clefts_mask test_clefts_edt ;;
  Ok (stats_mean false_positive_stats, stats_mean false_negative_stats).

End Cremi.

(** ** Notions used to state the properties *)

(** A voxel without a cleft label: 0, or the value [0xffffffffffffffff]
    that stands for it, as unsigned 64-bit integers. *)
Definition is_background (z : Z) : bool :=
  (Z.eqb (z mod 2 ^ 64) 0 || Z.eqb (z mod 2 ^ 64) (2 ^ 64 - 1))%Z.

(** A voxel marked invalid in the ground truth: [0xfffffffffffffffe]. *)
Definition is_invalid (z : Z) : bool :=
  Z.eqb (z mod 2 ^ 64) (2 ^ 64 - 2)%Z.

(** The voxels left out of the statistics of the prediction and of the
    ground truth. *)
Definition test_masked (v : Z * Z) : bool :=
  is_background (fst v) || is_invalid (snd v).

Definition truth_masked (g : Z) : bool :=
  is_background g || is_invalid g.


(** A prediction that is already binary. *)
Definition binarized (p : float64) : Prop := p = F.Fin 0 \/ p = F.Fin 1.

(** A threshold inside the open interval (0, 1). *)
Definition in_open_unit (t : float64) : Prop :=
  match t with
  | F.Fin r => (0 < r < 1)%R
  | _ => False
  end.


(** Whether the voxel with labels [(s, g)] is ignored. *)
Definition ignored_voxel (ignore_seg ignore_gt : list nat) (s g : nat) : bool :=
  existsb (Nat.eqb s) ignore_seg || existsb (Nat.eqb g) ignore_gt.

Definition weight_of (ignored : bool) : float64 :=
  if ignored then F.zero else F.one.

(** The result of [vi_tables] with the two volumes exchanged. *)
Definition swap_vi (t : vi_result) : vi_result :=
  ViResult (transpose (vi_pxy t)) (vi_py t) (vi_px t) (vi_hygx t) (vi_hxgy t)
           (vi_lpxgy t) (vi_lpygx t).

Definition swap_pair (r : float64 * float64) : float64 * float64 :=
  (snd r, fst r).

Open Scope Z_scope.

(** Congruence modulo [2^64]. *)
Definition cong64 (a b : Z) : Prop := a mod 2 ^ 64 = b mod 2 ^ 64.

(** Number of pairs of the list with the key [(i, j)]. *)
Definition pair_count (ps : list (nat * nat)) (i j : nat) : Z :=
  Z.of_nat (length (filter (fun v => Nat.eqb (fst v) i && Nat.eqb (snd v) j) ps)).

Close Scope Z_scope.

Open Scope R_scope.

(** The mathematical sum of a list of real numbers. *)
Definition Rsum (l : list R) : R := fold_right Rplus 0 l.

(** The real weight of a voxel. *)
Definition weight_R (ignored : bool) : R := if ignored then 0 else 1.

(** Total weight of the pairs of the list with the key [(i, j)]. *)
Definition mass (w : nat * nat -> R) (ps : list (nat * nat)) (i j : nat) : R :=
  Rsum (map (fun v => if Nat.eqb (fst v) i && Nat.eqb (snd v) j
                      then w v else 0) ps).

(** Finite non-negative and finite non-positive values. *)
Definition fin_nonneg (v : float64) : Prop :=
  exists r, v = F.Fin r /\ 0 <= r.

Definition fin_nonpos (v : float64) : Prop :=
  exists r, v = F.Fin r /\ r <= 0.

(** A table whose entry [(i, j)] is the share of the counted voxels that
    carry the labels [(i, j)], with one row and one column for each label
    up to the largest one. *)
Definition normalised_form (seg gt ignore_seg ignore_gt : list nat)
  (pxy : float_matrix) : Prop :=
  let w := fun v : nat * nat =>
             weight_R (ignored_voxel ignore_seg ignore_gt (fst v) (snd v)) in
  nrows pxy = S (list_max seg) /\
  ncols pxy = S (list_max gt) /\
  forall i j : nat,
    get F.zero pxy i j
    = F.Fin (mass w (combine seg gt) i j * (1 / Rsum (map w (combine seg gt)))).

(** Among the counted voxels, every label of the first volume lies inside
    one label of the second: two counted voxels with one first label have
    one second label. *)
Definition label_refines (ignore_x ignore_y : list nat)
  (ps : list (nat * nat)) : Prop :=
  forall v v' : nat * nat,
    In v ps -> In v' ps ->
    ignored_voxel ignore_x ignore_y (fst v) (snd v) = false ->
    ignored_voxel ignore_x ignore_y (fst v') (snd v') = false ->
    fst v = fst v' -> snd v = snd v'.

Close Scope R_scope.

(** * Properties *)

(** ** Signs and comparisons of the idealised floats *)

Section FloatFacts.

Open Scope R_scope.

Lemma Rsign_spec (r : R) :
  match F.Rsign r with
  | Lt => r < 0
  | Eq => r = 0
  | Gt => 0 < r
  end.
Proof.
  unfold F.Rsign.
  destruct (total_order_T r 0) as [[Hlt | Heq] | Hgt]; assumption.
Qed.

Lemma Rsign_zero : F.Rsign 0 = Eq.
Proof.
  pose proof (Rsign_spec 0) as H.
  destruct (F.Rsign 0); [reflexivity | lra | lra].
Qed.

Lemma Rsign_pos (r : R) : 0 < r -> F.Rsign r = Gt.
Proof.
  intros Hr. pose proof (Rsign_spec r) as H.
  destruct (F.Rsign r); [lra | lra | reflexivity].
Qed.

Lemma Rsign_neg (r : R) : r < 0 -> F.Rsign r = Lt.
Proof.
  intros Hr. pose proof (Rsign_spec r) as H.
  destruct (F.Rsign r); [lra | reflexivity | lra].
Qed.

Lemma Rsign_nonzero (r : R) : r <> 0 -> F.Rsign r <> Eq.
Proof.
  intros Hr Heq. pose proof (Rsign_spec r) as H.
  rewrite Heq in H. contradiction.
Qed.

Lemma nonzero_false (x : float64) : F.nonzero x = false <-> x = F.Fin 0.
Proof.
  split.
  - destruct x as [r | | |]; simpl; try discriminate.
    pose proof (Rsign_spec r) as H.
    destruct (F.Rsign r); try discriminate.
    intros _. now subst r.
  - intros ->. simpl. now rewrite Rsign_zero.
Qed.

Lemma nonzero_true (x : float64) : F.nonzero x = true <-> x <> F.Fin 0.
Proof.
  rewrite <- nonzero_false.
  destruct (F.nonzero x); split; intros; congruence.
Qed.

Lemma nonzero_Fin (r : R) : r <> 0 -> F.nonzero (F.Fin r) = true.
Proof.
  intros Hr. apply nonzero_true. intros H. injection H as H. contradiction.
Qed.

Lemma div_Fin (a b : R) : b <> 0 -> F.div (F.Fin a) (F.Fin b) = F.Fin (a / b).
Proof.
  intros Hb. simpl. pose proof (Rsign_nonzero Hb) as H.
  destruct (F.Rsign b); [contradiction | reflexivity | reflexivity].
Qed.

Lemma div_zero_zero : F.div (F.Fin 0) (F.Fin 0) = F.NaN.
Proof.
  simpl. unfold F.inf_of_sign. now rewrite Rsign_zero.
Qed.

Lemma ltb_Fin (a b : R) : F.ltb (F.Fin a) (F.Fin b) = true <-> a < b.
Proof.
  simpl. pose proof (Rsign_spec (a - b)) as H.
  destruct (F.Rsign (a - b)); split; intros; try discriminate;
    try reflexivity; lra.
Qed.

Lemma leb_Fin (a b : R) : F.leb (F.Fin a) (F.Fin b) = true <-> a <= b.
Proof.
  simpl. pose proof (Rsign_spec (a - b)) as H.
  destruct (F.Rsign (a - b)); split; intros; try discriminate;
    try reflexivity; lra.
Qed.

(** Away from [nan], [x > t] and [x <= t] exclude each other and one of
    them holds. *)
Lemma gtb_leb (x t : float64) :
  x <> F.NaN -> t <> F.NaN -> F.gtb x t = negb (F.leb x t).
Proof.
  intros Hx Ht. unfold F.gtb.
  destruct x as [a | | |], t as [b | | |]; try congruence; try reflexivity.
  destruct (F.ltb (F.Fin b) (F.Fin a)) eqn:Hlt, (F.leb (F.Fin a) (F.Fin b)) eqn:Hle;
    try reflexivity; exfalso.
  - apply ltb_Fin in Hlt. apply leb_Fin in Hle. lra.
  - assert (~ b < a) as H1 by (rewrite <- ltb_Fin; congruence).
    assert (~ a <= b) as H2 by (rewrite <- leb_Fin; congruence).
    lra.
Qed.

Lemma log2_one : F.log2 (F.Fin 1) = F.Fin 0.
Proof.
  simpl. rewrite Rsign_pos by lra. f_equal. rewrite ln_1. unfold Rdiv. ring.
Qed.

Lemma log2_half : F.log2 (F.Fin (/ 2)) = F.Fin (- 1).
Proof.
  simpl. rewrite Rsign_pos by lra. f_equal.
  rewrite ln_Rinv by lra.
  assert (ln 2 <> 0) as H.
  { rewrite <- ln_1. intros Heq. apply ln_inv in Heq; lra. }
  field. exact H.
Qed.

End FloatFacts.

(** ** Binary segmentation: thresholds and the confusion matrix *)

Lemma valid_threshold_spec (t : float64) :
  valid_threshold t = true <-> in_open_unit t.
Proof.
  unfold valid_threshold.
  destruct t as [r | | |]; simpl in_open_unit.
  - rewrite andb_true_iff, !ltb_Fin. reflexivity.
  - simpl. split; [discriminate | contradiction].
  - simpl. split; [discriminate | contradiction].
  - simpl. split; [discriminate | contradiction].
Qed.

Lemma confusion_matrix_shape (pred : list float64) (gt : list Z) (t : float64) :
  length pred = length gt ->
  exists c, confusion_matrix pred gt t = Ok c.
Proof.
  intros Hlen. unfold confusion_matrix.
  rewrite Hlen, Nat.eqb_refl. eexists. reflexivity.
Qed.

Lemma confusion_matrix_mismatch (pred : list float64) (gt : list Z) (t : float64) :
  length pred <> length gt ->
  confusion_matrix pred gt t = Raise ValueError.
Proof.
  intros Hlen. unfold confusion_matrix.
  apply Nat.eqb_neq in Hlen. now rewrite Hlen.
Qed.

(** C9: a threshold list containing a threshold outside the open interval
    (0, 1) makes [get_binary_jaccard] raise instead of returning scores;
    for arrays of one shape the exception is the [AssertionError] of the
    threshold check. *)
Theorem get_binary_jaccard_invalid_threshold
  (pred : list float64) (gt : list Z) (thres : list float64) (t : float64) :
  In t thres ->
  ~ in_open_unit t ->
  (exists e, get_binary_jaccard pred gt thres = Raise e) /\
  (length pred = length gt ->
   get_binary_jaccard pred gt thres = Raise AssertionError).
Proof.
  intros Hin Hbad.
  assert (valid_threshold t = false) as Ht.
  { destruct (valid_threshold t) eqn:E; [| reflexivity].
    apply valid_threshold_spec in E. contradiction. }
  induction thres as [| u thres IH]; [contradiction |].
  simpl. destruct Hin as [-> | Hin].
  - rewrite Ht. split; [eexists; reflexivity | reflexivity].
  - specialize (IH Hin). destruct IH as [[e He] Hassert].
    destruct (valid_threshold u); [| split; [eexists |]; reflexivity].
    destruct (Nat.eq_dec (length pred) (length gt)) as [Hlen | Hlen].
    + destruct (confusion_matrix_shape pred gt u Hlen) as [[[[TP FP] TN] FN] Hc].
      rewrite Hc. simpl. rewrite (Hassert Hlen). simpl.
      split; [eexists; reflexivity | reflexivity].
    + rewrite (confusion_matrix_mismatch pred gt u Hlen). simpl.
      split; [eexists; reflexivity | contradiction].
Qed.

Lemma get_binary_jaccard_invalid_threshold_witness :
  get_binary_jaccard [F.Fin 1] [1%Z] [F.Fin (/ 2); F.Fin 0]
    = Raise AssertionError /\
  get_binary_jaccard [F.Fin 1] [1%Z] [F.Fin 1] = Raise AssertionError.
Proof.
  split.
  - apply (get_binary_jaccard_invalid_threshold
             [F.Fin 1] [1%Z] [F.Fin (/ 2); F.Fin 0] (F.Fin 0)).
    + simpl. right. left. reflexivity.
    + simpl. lra.
    + reflexivity.
  - apply (get_binary_jaccard_invalid_threshold
             [F.Fin 1] [1%Z] [F.Fin 1] (F.Fin 1)).
    + simpl. left. reflexivity.
    + simpl. lra.
    + reflexivity.
Defined.

Lemma count_true_cons (b : bool) (l : list bool) :
  count_true (b :: l) = ((if b then 1 else 0) + count_true l)%Z.
Proof.
  unfold count_true. simpl. destruct b; simpl length; lia.
Qed.

(** The four masks partition the elements when no comparison involves a
    [nan]. *)
Lemma confusion_counts_partition (cells : list (Z * float64)) (t : float64) :
  t <> F.NaN ->
  Forall (fun c => (fst c = 0 \/ fst c = 1)%Z /\ snd c <> F.NaN) cells ->
  (count_true (map (fun c => Z.eqb (fst c) 1 && F.gtb (snd c) t) cells)
   + count_true (map (fun c => Z.eqb (fst c) 0 && F.gtb (snd c) t) cells)
   + count_true (map (fun c => Z.eqb (fst c) 0 && F.leb (snd c) t) cells)
   + count_true (map (fun c => Z.eqb (fst c) 1 && F.leb (snd c) t) cells)
   = Z.of_nat (length cells))%Z.
Proof.
  intros Ht Hall.
  induction Hall as [| [g p] cells [Hg Hp] _ IH]; [reflexivity |].
  simpl map. rewrite !count_true_cons. simpl fst in *. simpl snd in *.
  rewrite (gtb_leb Hp Ht).
  simpl length. rewrite Nat2Z.inj_succ.
  destruct Hg as [-> | ->]; destruct (F.leb p t);
    cbn [Z.eqb Pos.eqb andb negb]; lia.
Qed.

(** C10, amended: when neither the predictions nor the threshold are
    [nan], the four counts of [confusion_matrix] on a 0/1 ground truth of
    the shape of the prediction add up to the number of elements. *)
Theorem confusion_matrix_total
  (pred : list float64) (gt : list Z) (thres : float64) :
  length pred = length gt ->
  Forall (fun g => g = 0 \/ g = 1)%Z gt ->
  Forall (fun p => p <> F.NaN) pred ->
  thres <> F.NaN ->
  exists TP FP TN FN,
    confusion_matrix pred gt thres = Ok (TP, FP, TN, FN) /\
    (TP + FP + TN + FN = Z.of_nat (length gt))%Z.
Proof.
  intros Hlen Hgt Hpred Ht.
  unfold confusion_matrix. rewrite Hlen, Nat.eqb_refl.
  do 4 eexists. split; [reflexivity |].
  rewrite confusion_counts_partition; trivial.
  - now rewrite length_combine, Hlen, Nat.min_id.
  - clear Ht. revert pred Hlen Hpred.
    induction Hgt as [| g gt Hg _ IH]; intros [| p pred] Hlen Hpred;
      simpl; try constructor; try discriminate.
    + simpl. inversion Hpred; subst. split; assumption.
    + inversion Hpred; subst. apply IH; [now injection Hlen | assumption].
Qed.

Lemma confusion_matrix_total_witness :
  exists TP FP TN FN,
    confusion_matrix [F.Fin 1; F.Fin 0] [1%Z; 0%Z] (F.Fin (/ 2))
      = Ok (TP, FP, TN, FN) /\
    (TP + FP + TN + FN = 2)%Z.
Proof.
  apply (@confusion_matrix_total [F.Fin 1; F.Fin 0] [1%Z; 0%Z] (F.Fin (/ 2))).
  - reflexivity.
  - repeat constructor; lia.
  - repeat constructor; discriminate.
  - discriminate.
Defined.

(** C10 as stated fails: a [nan] prediction is neither above nor at most
    the threshold, so its element is counted in none of the four
    categories. *)
Lemma confusion_matrix_nan_uncounted :
  exists TP FP TN FN,
    confusion_matrix [F.NaN] [1%Z] (F.Fin (/ 2)) = Ok (TP, FP, TN, FN) /\
    (TP + FP + TN + FN)%Z <> Z.of_nat (length [1%Z]).
Proof.
  exists 0%Z, 0%Z, 0%Z, 0%Z. split; [reflexivity | discriminate].
Qed.

(** ** [xlogx] *)





(** ** Voxel weights of the contingency table *)

Lemma mark_equal_length (labels : list nat) (i : nat) (ign : list bool) :
  length ign = length labels ->
  length (mark_equal labels i ign) = length labels.
Proof.
  intros H. unfold mark_equal.
  now rewrite length_map, length_combine, H, Nat.min_id.
Qed.

Lemma mark_equal_nth (labels : list nat) (i : nat) (ign : list bool) (k : nat) :
  length ign = length labels ->
  nth k (mark_equal labels i ign) false
  = (Nat.eqb (nth k labels 0) i && Nat.ltb k (length labels))
    || nth k ign false.
Proof.
  revert ign k.
  induction labels as [| l labels IH]; intros [| b ign] k Hlen;
    try discriminate.
  - destruct k; simpl; now rewrite andb_false_r.
  - injection Hlen as Hlen. destruct k as [| k]; simpl.
    + destruct (Nat.eqb l i); reflexivity.
    + apply (IH ign k Hlen).
Qed.

Lemma fold_mark_equal (labels ignore : list nat) (ign : list bool) :
  length ign = length labels ->
  length (fold_left (fun a i => mark_equal labels i a) ignore ign)
    = length labels /\
  forall k,
    nth k (fold_left (fun a i => mark_equal labels i a) ignore ign) false
    = (existsb (Nat.eqb (nth k labels 0)) ignore && Nat.ltb k (length labels))
      || nth k ign false.
Proof.
  revert ign.
  induction ignore as [| i ignore IH]; intros ign Hlen; simpl.
  - split; [assumption | reflexivity].
  - destruct (IH (mark_equal labels i ign) (mark_equal_length _ _ _ Hlen))
      as [Hl Hn].
    split; [exact Hl |]. intros k. rewrite Hn, mark_equal_nth by assumption.
    destruct (Nat.eqb (nth k labels 0) i), (existsb _ ignore),
      (Nat.ltb k (length labels)), (nth k ign false); reflexivity.
Qed.

Lemma nth_repeat_false (k n : nat) : nth k (repeat false n) false = false.
Proof.
  revert k. induction n as [| n IH]; intros [| k]; simpl; auto.
Qed.

Lemma clear_ignored_ones (n : nat) (ign : list bool) :
  length ign = n ->
  clear_ignored (repeat F.one n) ign = map weight_of ign.
Proof.
  revert ign. induction n as [| n IH]; intros [| b ign] Hlen;
    try discriminate; [reflexivity |].
  unfold clear_ignored in *. simpl. f_equal.
  apply IH. now injection Hlen.
Qed.

(** The weight of a voxel is 0 when one of its labels is in the ignore
    list of its volume and 1 otherwise. *)
Lemma voxel_weights_spec (seg gt ignore_seg ignore_gt : list nat) :
  length seg = length gt ->
  voxel_weights seg gt ignore_seg ignore_gt
  = map (fun sg => weight_of (ignored_voxel ignore_seg ignore_gt (fst sg) (snd sg)))
        (combine seg gt).
Proof.
  intros Hlen. unfold voxel_weights.
  destruct (fold_mark_equal seg ignore_seg (repeat false (length seg))
              (repeat_length _ _)) as [Hl1 Hn1].
  set (ign1 := fold_left _ ignore_seg _) in *.
  assert (length ign1 = length gt) as Hl1' by congruence.
  destruct (fold_mark_equal gt ignore_gt ign1 Hl1') as [Hl2 Hn2].
  set (ign2 := fold_left _ ignore_gt _) in *.
  rewrite clear_ignored_ones by assumption.
  assert (ign2 = map (fun sg => ignored_voxel ignore_seg ignore_gt
                                  (fst sg) (snd sg)) (combine seg gt)) as ->.
  { set (f := fun sg : nat * nat =>
                ignored_voxel ignore_seg ignore_gt (fst sg) (snd sg)).
    apply (nth_ext _ _ false (f (0, 0))).
    - now rewrite length_map, length_combine, Hl2, Hlen, Nat.min_id.
    - intros k Hk. rewrite Hl2 in Hk.
      rewrite (map_nth f (combine seg gt) (0, 0) k).
      rewrite combine_nth by assumption. unfold f. simpl fst. simpl snd.
      rewrite Hn2, Hn1, nth_repeat_false. unfold ignored_voxel.
      assert (Nat.ltb k (length gt) = true) as -> by now apply Nat.ltb_lt.
      assert (Nat.ltb k (length seg) = true) as ->
          by (apply Nat.ltb_lt; now rewrite Hlen).
      rewrite !andb_true_r, orb_false_r. apply orb_comm. }
  now rewrite map_map.
Qed.

(** C2, amended: without explicit ignore arguments [contingency_table]
    ignores label 0 in the candidate as well as in the ground truth, so
    a voxel gets weight 1 exactly when both of its labels are nonzero;
    the table is built from these weights. *)
Theorem contingency_table_default_weights (seg gt : list nat) :
  length seg = length gt ->
  default_ignore_seg = [0] /\ default_ignore_gt = [0] /\
  voxel_weights seg gt default_ignore_seg default_ignore_gt
  = map (fun sg => if Nat.eqb (fst sg) 0 || Nat.eqb (snd sg) 0
                   then F.Fin 0 else F.Fin 1)
        (combine seg gt) /\
  contingency_table_default seg gt
  = (nr <- rmap S (amax seg) ;;
     nc <- rmap S (amax gt) ;;
     cont <- coo_matrix F.add
               (map (fun sg => if Nat.eqb (fst sg) 0 || Nat.eqb (snd sg) 0
                               then F.Fin 0 else F.Fin 1)
                    (combine seg gt))
               seg gt nr nc ;;
     divide_by_scalar cont (msum F.zero F.add cont)).
Proof.
  intros Hlen.
  assert (voxel_weights seg gt default_ignore_seg default_ignore_gt
          = map (fun sg => if Nat.eqb (fst sg) 0 || Nat.eqb (snd sg) 0
                           then F.Fin 0 else F.Fin 1)
                (combine seg gt)) as Hw.
  { rewrite voxel_weights_spec by assumption.
    apply map_ext. intros [s g]. unfold ignored_voxel. simpl.
    rewrite !orb_false_r. reflexivity. }
  split; [reflexivity |]. split; [reflexivity |]. split; [exact Hw |].
  unfold contingency_table_default, contingency_table.
  rewrite Hlen, Nat.eqb_refl. simpl negb. cbv iota. now rewrite Hw.
Qed.

Lemma contingency_table_default_weights_witness :
  voxel_weights [0; 1; 2] [1; 1; 0] default_ignore_seg default_ignore_gt
  = [F.Fin 0; F.Fin 1; F.Fin 0].
Proof.
  apply (@contingency_table_default_weights [0; 1; 2] [1; 1; 0]).
  reflexivity.
Defined.

(** C2 as stated fails: by default a voxel labelled 0 in the candidate and
    1 in the ground truth has weight 0, not 1. *)
Lemma contingency_table_default_ignores_seg_zero :
  default_ignore_seg <> [] /\
  nth 0 (voxel_weights [0] [1] default_ignore_seg default_ignore_gt) F.one
    = F.Fin 0 /\
  F.Fin 0 <> F.Fin 1.
Proof.
  split; [discriminate |]. split; [reflexivity |].
  intros H. injection H as H. lra.
Qed.

(** ** 64-bit arithmetic against the integers *)

Section Wrap64.

Open Scope Z_scope.

Lemma cong64_refl (a : Z) : cong64 a a.
Proof. reflexivity. Qed.

Lemma wrap64_small (z : Z) : - 2 ^ 63 <= z < 2 ^ 63 -> wrap64 z = z.
Proof.
  intros H. unfold wrap64. rewrite Z.mod_small; lia.
Qed.

Lemma wrap64_cong (z : Z) : cong64 (wrap64 z) z.
Proof.
  unfold cong64, wrap64.
  rewrite Zminus_mod, Zmod_mod, <- Zminus_mod.
  f_equal. lia.
Qed.

Lemma cong64_wrap (a b : Z) : cong64 a b -> wrap64 a = wrap64 b.
Proof.
  unfold cong64, wrap64. intros H.
  rewrite (Zplus_mod a), (Zplus_mod b), H. reflexivity.
Qed.

Lemma wrap64_idem (z : Z) : wrap64 (wrap64 z) = wrap64 z.
Proof. apply cong64_wrap, wrap64_cong. Qed.

Lemma add64_cong (a a' b b' : Z) :
  cong64 a a' -> cong64 b b' -> cong64 (add64 a b) (a' + b').
Proof.
  unfold add64. intros Ha Hb.
  unfold cong64 in *. rewrite wrap64_cong.
  rewrite (Zplus_mod a), (Zplus_mod a'), Ha, Hb. reflexivity.
Qed.

Lemma mul64_cong (a a' b b' : Z) :
  cong64 a a' -> cong64 b b' -> cong64 (mul64 a b) (a' * b').
Proof.
  unfold mul64. intros Ha Hb.
  unfold cong64 in *. rewrite wrap64_cong.
  rewrite (Zmult_mod a), (Zmult_mod a'), Ha, Hb. reflexivity.
Qed.

Lemma sum64_cong (l l' : list Z) :
  Forall2 cong64 l l' -> cong64 (sum64 l) (Zsum l').
Proof.
  induction 1 as [| x y l l' Hxy _ IH]; simpl.
  - apply cong64_refl.
  - now apply add64_cong.
Qed.

Lemma sum64_canonical (l : list Z) : wrap64 (sum64 l) = sum64 l.
Proof.
  destruct l as [| x l]; simpl.
  - reflexivity.
  - unfold add64. apply wrap64_idem.
Qed.

(** A wrapped sum is the mathematical sum when that one fits. *)
Lemma sum64_exact (l l' : list Z) :
  Forall2 cong64 l l' ->
  - 2 ^ 63 <= Zsum l' < 2 ^ 63 ->
  sum64 l = Zsum l'.
Proof.
  intros Hc Hr.
  rewrite <- sum64_canonical, (cong64_wrap (sum64_cong Hc)).
  now apply wrap64_small.
Qed.

Lemma Forall2_map_seq (R : Z -> Z -> Prop) (f g : nat -> Z) (s s' n : nat) :
  (forall k, (k < n)%nat -> R (f (s + k)%nat) (g (s' + k)%nat)) ->
  Forall2 R (map f (seq s n)) (map g (seq s' n)).
Proof.
  revert s s'. induction n as [| n IH]; intros s s' H; simpl.
  - constructor.
  - constructor.
    + specialize (H 0%nat). rewrite !Nat.add_0_r in H. apply H. lia.
    + apply IH. intros k Hk. specialize (H (S k)).
      rewrite !Nat.add_succ_r in H. apply H. lia.
Qed.

Lemma Forall2_map (R S : Z -> Z -> Prop) (f g : Z -> Z)
  (l l' : list Z) :
  (forall x y, R x y -> S (f x) (g y)) ->
  Forall2 R l l' -> Forall2 S (map f l) (map g l').
Proof.
  intros H. induction 1; simpl; constructor; auto.
Qed.

(** *** Sums of non-negative integers *)

Lemma Zsum_nonneg (l : list Z) : Forall (fun x => 0 <= x) l -> 0 <= Zsum l.
Proof.
  induction 1; simpl; lia.
Qed.

Lemma Zsum_map_nonneg (A : Type) (f : A -> Z) (l : list A) :
  (forall x, 0 <= f x) -> 0 <= Zsum (map f l).
Proof.
  intros H. induction l; simpl; [lia | specialize (H a); lia].
Qed.

Lemma Zsum_map_le (A : Type) (f g : A -> Z) (l : list A) :
  (forall x, In x l -> f x <= g x) -> Zsum (map f l) <= Zsum (map g l).
Proof.
  induction l as [| a l IH]; intros H; simpl; [lia |].
  pose proof (H a (or_introl eq_refl)).
  assert (Zsum (map f l) <= Zsum (map g l)) by (apply IH; intros; apply H; now right).
  lia.
Qed.

Lemma Zsum_map_add (A : Type) (f g : A -> Z) (l : list A) :
  Zsum (map (fun x => f x + g x) l) = Zsum (map f l) + Zsum (map g l).
Proof.
  induction l; simpl; lia.
Qed.

Lemma Zsum_squares_le (l : list Z) :
  Forall (fun x => 0 <= x) l ->
  0 <= Zsum (map (fun x => x * x) l) <= Zsum l * Zsum l.
Proof.
  induction 1 as [| x l Hx Hl IH]; simpl; [lia |].
  pose proof (Zsum_nonneg Hl). nia.
Qed.

(** At most one element of a duplicate-free list equals [a]. *)
Lemma Zsum_indicator (a : nat) (l : list nat) :
  NoDup l ->
  0 <= Zsum (map (fun i => if Nat.eqb a i then 1 else 0) l) <= 1.
Proof.
  induction 1 as [| i l Hi Hl IH]; simpl; [lia |].
  destruct (Nat.eqb a i) eqn:E; [| lia].
  apply Nat.eqb_eq in E. subst i.
  assert (Zsum (map (fun i => if Nat.eqb a i then 1 else 0) l) = 0) as ->; [| lia].
  clear IH Hl. induction l as [| j l IHl]; [reflexivity |]. simpl.
  destruct (Nat.eqb a j) eqn:E.
  - apply Nat.eqb_eq in E. subst j. exfalso. apply Hi. now left.
  - apply IHl. intros H. apply Hi. now right.
Qed.

End Wrap64.

(** ** The count table of [adapted_rand] *)

Section RandTable.

Open Scope Z_scope.

Lemma pair_count_cons (g s : nat) (ps : list (nat * nat)) (i j : nat) :
  pair_count ((g, s) :: ps) i j
  = (if Nat.eqb g i && Nat.eqb s j then 1 else 0) + pair_count ps i j.
Proof.
  unfold pair_count. simpl.
  destruct (Nat.eqb g i && Nat.eqb s j); simpl length; lia.
Qed.

Lemma pair_count_range (ps : list (nat * nat)) (i j : nat) :
  0 <= pair_count ps i j <= Z.of_nat (length ps).
Proof.
  unfold pair_count.
  pose proof (filter_length_le
                (fun v => Nat.eqb (fst v) i && Nat.eqb (snd v) j) ps).
  lia.
Qed.

Lemma spec_p_pair_count (seg gt : list nat) (i j : nat) :
  RandSpec.p seg gt i j = pair_count (combine gt seg) i j.
Proof. reflexivity. Qed.

Lemma cong64_add (a a' b b' : Z) :
  cong64 a a' -> cong64 b b' -> cong64 (a + b) (a' + b').
Proof.
  unfold cong64. intros Ha Hb.
  rewrite (Zplus_mod a), (Zplus_mod a'), Ha, Hb. reflexivity.
Qed.

(** The stored counts are the pair counts, modulo [2^64]. *)
Lemma coo_ones_cong (gt seg : list nat) (i j : nat) :
  length gt = length seg ->
  cong64
    (value 0 (coo_entry add64 (triples (repeat 1 (length gt)) gt seg) i j))
    (pair_count (combine gt seg) i j).
Proof.
  revert seg. induction gt as [| g gt IH]; intros [| s seg] Hlen;
    try discriminate.
  - apply cong64_refl.
  - injection Hlen as Hlen. specialize (IH seg Hlen).
    unfold triples in *. simpl. rewrite pair_count_cons.
    destruct (Nat.eqb g i && Nat.eqb s j).
    + destruct (coo_entry add64 _ i j) as [w |]; cbn [value] in *.
      * apply add64_cong; [apply cong64_refl | exact IH].
      * apply (cong64_add (cong64_refl 1) IH).
    + exact IH.
Qed.

Lemma coo_ones_canonical (es : list (nat * nat * Z)) (i j : nat) :
  Forall (fun e => snd e = 1) es ->
  wrap64 (value 0 (coo_entry add64 es i j))
  = value 0 (coo_entry add64 es i j).
Proof.
  induction 1 as [| [[r c] v] es Hv _ IH]; [reflexivity |].
  simpl in *. subst v.
  destruct (Nat.eqb r i && Nat.eqb c j); [| exact IH].
  destruct (coo_entry add64 es i j); simpl.
  - unfold add64. apply wrap64_idem.
  - reflexivity.
Qed.

Lemma triples_ones (gt seg : list nat) (n : nat) :
  Forall (fun e : nat * nat * Z => snd e = 1) (triples (repeat 1 n) gt seg).
Proof.
  unfold triples. revert n seg.
  induction gt as [| g gt IH]; intros n seg; [constructor |].
  destruct seg as [| s seg]; [constructor |].
  destruct n as [| n]; [constructor |].
  simpl. constructor; [reflexivity | apply IH].
Qed.

Lemma get_slice (m : int_matrix) (r0 r1 c0 c1 i j : nat) :
  (i < r1 - r0)%nat -> (j < c1 - c0)%nat ->
  get 0 (slice m r0 r1 c0 c1) i j = get 0 m (r0 + i) (c0 + j).
Proof.
  intros Hi Hj. unfold get, slice. simpl.
  apply Nat.ltb_lt in Hi, Hj. now rewrite Hi, Hj.
Qed.

(** *** Bounds on the sums of pair counts *)

Lemma nested_indicator (g s : nat) (X Y : list nat) :
  NoDup X -> NoDup Y ->
  0 <= Zsum (map (fun i =>
              Zsum (map (fun j => if Nat.eqb g i && Nat.eqb s j then 1 else 0) Y))
            X) <= 1.
Proof.
  intros HX HY.
  pose proof (Zsum_indicator s HY) as Hs.
  pose proof (Zsum_indicator g HX) as Hg.
  split.
  - apply Zsum_map_nonneg. intros i. apply Zsum_map_nonneg. intros j.
    destruct (Nat.eqb g i && Nat.eqb s j); lia.
  - etransitivity; [| apply Hg].
    apply Zsum_map_le. intros i _.
    destruct (Nat.eqb g i); simpl andb.
    + apply Hs.
    + clear. induction Y; simpl; lia.
Qed.

Lemma nested_count_le (ps : list (nat * nat)) (X Y : list nat) :
  NoDup X -> NoDup Y ->
  0 <= Zsum (map (fun i => Zsum (map (fun j => pair_count ps i j) Y)) X)
    <= Z.of_nat (length ps).
Proof.
  intros HX HY. split.
  - apply Zsum_map_nonneg. intros i. apply Zsum_map_nonneg. intros j.
    apply pair_count_range.
  - induction ps as [| [g s] ps IH].
    + simpl length. apply Z.eq_le_incl.
      clear. induction X as [| i X IHX]; simpl; [reflexivity |].
      rewrite IHX. clear. induction Y; simpl; lia.
    + assert (Zsum (map (fun i => Zsum (map (fun j => pair_count ((g, s) :: ps) i j) Y)) X)
              = Zsum (map (fun i => Zsum (map (fun j => if Nat.eqb g i && Nat.eqb s j then 1 else 0) Y)) X)
                + Zsum (map (fun i => Zsum (map (fun j => pair_count ps i j) Y)) X)) as ->.
      { rewrite <- Zsum_map_add. f_equal. apply map_ext. intros i.
        rewrite <- Zsum_map_add. f_equal. apply map_ext. intros j.
        apply pair_count_cons. }
      pose proof (nested_indicator g s HX HY).
      simpl length. lia.
Qed.

Lemma nested_count_le_swap (ps : list (nat * nat)) (X Y : list nat) :
  NoDup X -> NoDup Y ->
  0 <= Zsum (map (fun j => Zsum (map (fun i => pair_count ps i j) X)) Y)
    <= Z.of_nat (length ps).
Proof.
  intros HX HY.
  assert (forall i j, pair_count (map (fun v => (snd v, fst v)) ps) j i
                      = pair_count ps i j) as Hsw.
  { intros i j. induction ps as [| [g s] ps IH]; [reflexivity |].
    simpl map. rewrite !pair_count_cons, IH. simpl fst. simpl snd.
    now rewrite andb_comm. }
  pose proof (nested_count_le (map (fun v => (snd v, fst v)) ps) HY HX) as H.
  rewrite length_map in H.
  erewrite map_ext in H; [exact H |].
  intros j. simpl. f_equal. apply map_ext. intros i. apply Hsw.
Qed.

Lemma Zsum_rows_nonneg (ps : list (nat * nat)) (X Y : list nat) :
  Forall (fun x => 0 <= x)
         (map (fun i => Zsum (map (fun j => pair_count ps i j) Y)) X).
Proof.
  apply Forall_map, Forall_forall. intros i _.
  apply Zsum_map_nonneg. intros j. apply pair_count_range.
Qed.

Lemma Zsum_cols_nonneg (ps : list (nat * nat)) (X Y : list nat) :
  Forall (fun x => 0 <= x)
         (map (fun j => Zsum (map (fun i => pair_count ps i j) X)) Y).
Proof.
  apply Forall_map, Forall_forall. intros j _.
  apply Zsum_map_nonneg. intros i. apply pair_count_range.
Qed.

Lemma nested_squares_le (ps : list (nat * nat)) (X Y : list nat) :
  NoDup X -> NoDup Y ->
  0 <= Zsum (map (fun i =>
              Zsum (map (fun j => pair_count ps i j * pair_count ps i j) Y)) X)
    <= Z.of_nat (length ps) * Z.of_nat (length ps).
Proof.
  intros HX HY.
  pose proof (nested_count_le ps HX HY) as Hn.
  pose proof (Zsum_squares_le (Zsum_rows_nonneg ps X Y)) as Hsq.
  rewrite map_map in Hsq.
  split.
  - apply Zsum_map_nonneg. intros i. apply Zsum_map_nonneg. intros j.
    pose proof (pair_count_range ps i j). nia.
  - etransitivity; [| etransitivity; [apply Hsq |]]; [| nia].
    apply Zsum_map_le. intros i _.
    assert (Forall (fun x => 0 <= x) (map (fun j => pair_count ps i j) Y)) as Hnn.
    { apply Forall_map, Forall_forall. intros j _. apply pair_count_range. }
    pose proof (Zsum_squares_le Hnn) as H. rewrite map_map in H. apply H.
Qed.

End RandTable.

Lemma amax_nonempty (l : list nat) : l <> [] -> amax l = Ok (list_max l).
Proof.
  destruct l; [contradiction | reflexivity].
Qed.

(** ** Adapted Rand: the code against the formulas *)

Section AdaptedRand.

Open Scope Z_scope.

Variables seg gt : list nat.
Hypothesis same_shape : length seg = length gt.
Hypothesis not_empty : gt <> [].
(** The 64-bit sums of squares, at most [N * N], do not wrap around. *)
Hypothesis fits : Z.of_nat (length gt) * Z.of_nat (length gt) < 2 ^ 63.

Let p_ij : int_matrix :=
  SpMatrix (S (list_max gt)) (S (list_max seg))
           (coo_entry add64 (triples (repeat 1 (length gt)) gt seg)).

Lemma rand_table_ok : rand_table seg gt = Ok p_ij.
Proof.
  unfold rand_table.
  rewrite (amax_nonempty not_empty), amax_nonempty.
  - cbn [rmap bind]. unfold coo_matrix.
    rewrite repeat_length, same_shape, !Nat.eqb_refl. reflexivity.
  - intros E. rewrite E in same_shape. apply not_empty.
    now apply length_zero_iff_nil.
Qed.

Lemma length_pairs : length (combine gt seg) = length gt.
Proof.
  rewrite length_combine, same_shape. apply Nat.min_id.
Qed.

Lemma N_squared_fits (x : Z) :
  0 <= x <= Z.of_nat (length gt) * Z.of_nat (length gt) ->
  - 2 ^ 63 <= x < 2 ^ 63.
Proof.
  intros H. assert (0 < 2 ^ 63) by reflexivity. lia.
Qed.

Lemma N_fits (x : Z) :
  0 <= x <= Z.of_nat (length gt) -> - 2 ^ 63 <= x < 2 ^ 63.
Proof.
  intros H. apply N_squared_fits. nia.
Qed.

Lemma p_ij_cong (i j : nat) : cong64 (get 0 p_ij i j) (RandSpec.p seg gt i j).
Proof.
  apply coo_ones_cong. now symmetry.
Qed.

Lemma p_ij_exact (i j : nat) : get 0 p_ij i j = RandSpec.p seg gt i j.
Proof.
  transitivity (wrap64 (RandSpec.p seg gt i j)).
  { unfold get. cbn [p_ij entry].
    rewrite <- coo_ones_canonical by apply triples_ones.
    apply cong64_wrap, p_ij_cong. }
  apply wrap64_small, N_fits.
pose proof (pair_count_range (combine gt seg) i j) as H.
rewrite length_pairs in H. rewrite spec_p_pair_count. exact H.
Qed.

Lemma a_i_cong :
  Forall2 cong64
    (row_sums 0 add64 (slice p_ij 1 (nrows p_ij) 0 (ncols p_ij)))
    (RandSpec.a_i seg gt).
Proof.
  unfold row_sums, RandSpec.a_i. cbn [nrows ncols slice p_ij].
  rewrite ?Nat.sub_succ, ?Nat.sub_0_r.
  apply Forall2_map_seq. intros k Hk.
  apply sum64_cong. unfold row. cbn [ncols slice]. rewrite ?Nat.sub_succ, ?Nat.sub_0_r.
  apply Forall2_map_seq. intros l Hl.
  rewrite get_slice by lia.
  apply p_ij_cong.
Qed.

Lemma b_i_cong :
  Forall2 cong64
    (col_sums 0 add64 (slice p_ij 1 (nrows p_ij) 1 (ncols p_ij)))
    (RandSpec.b_j seg gt).
Proof.
  unfold col_sums, RandSpec.b_j. cbn [nrows ncols slice p_ij].
  rewrite ?Nat.sub_succ, ?Nat.sub_0_r.
  apply Forall2_map_seq. intros l Hl.
  apply sum64_cong. unfold column. cbn [nrows slice]. rewrite ?Nat.sub_succ, ?Nat.sub_0_r.
  apply Forall2_map_seq. intros k Hk.
  rewrite get_slice by lia.
  apply p_ij_cong.
Qed.

Lemma c_cong :
  Forall2 cong64
    (row_sums 0 add64 (slice p_ij 1 (nrows p_ij) 0 1))
    (map (fun i => RandSpec.p seg gt i 0%nat) (seq 1 (list_max gt))).
Proof.
  unfold row_sums. cbn [nrows ncols slice p_ij]. rewrite ?Nat.sub_succ, ?Nat.sub_0_r.
  apply Forall2_map_seq. intros k Hk.
  unfold row. cbn [ncols slice seq map Nat.sub asum fold_right].
  rewrite get_slice by lia.
  rewrite <- (Z.add_0_r (RandSpec.p _ _ _ _)).
  apply add64_cong; [apply p_ij_cong | apply cong64_refl].
Qed.

Lemma d_cong :
  Forall2 cong64
    (row_sums 0 add64
       (multiply mul64 (slice p_ij 1 (nrows p_ij) 1 (ncols p_ij))
                       (slice p_ij 1 (nrows p_ij) 1 (ncols p_ij))))
    (map (fun i =>
            Zsum (map (fun j => RandSpec.p seg gt i j * RandSpec.p seg gt i j)
                      (seq 1 (list_max seg))))
         (seq 1 (list_max gt))).
Proof.
  unfold row_sums. cbn [nrows ncols slice multiply p_ij].
  rewrite ?Nat.sub_succ, ?Nat.sub_0_r.
  apply Forall2_map_seq. intros k Hk.
  apply sum64_cong. unfold row. cbn [ncols slice multiply].
  rewrite ?Nat.sub_succ, ?Nat.sub_0_r.
  apply Forall2_map_seq. intros l Hl.
  pose proof (p_ij_cong (1 + k) (1 + l)) as Hp.
  rewrite <- (@get_slice p_ij 1 (S (list_max gt)) 1 (S (list_max seg)) k l)
    in Hp by lia.
  change (0 + k)%nat with k. change (0 + l)%nat with l.
  unfold get in *. cbn [entry multiply] in *.
  destruct (entry (slice p_ij 1 (S (list_max gt)) 1 (S (list_max seg))) k l)
    as [v |]; cbn [value] in *.
  - now apply mul64_cong.
  - change 0 with (0 * 0) at 1. unfold cong64 in *.
    rewrite (Zmult_mod 0 0), (Zmult_mod (RandSpec.p _ _ _ _)), <- Hp.
    reflexivity.
Qed.

Lemma rand_sums_exact :
  rand_sums_of p_ij (length gt)
  = RandSums (RandSpec.sumA seg gt) (RandSpec.sumB seg gt)
             (RandSpec.sumAB seg gt).
Proof.
  unfold rand_sums_of, RandSpec.sumA, RandSpec.sumB, RandSpec.sumAB.
  assert (sum64 (map (fun x => mul64 x x)
                     (row_sums 0 add64 (slice p_ij 1 (nrows p_ij) 0 (ncols p_ij))))
          = Zsum (map (fun x => x * x) (RandSpec.a_i seg gt))) as HA.
  { apply sum64_exact.
    - apply (Forall2_map (R := cong64)); [| apply a_i_cong].
      intros x y Hxy. now apply mul64_cong.
    - apply N_squared_fits.
      pose proof (Zsum_squares_le
                    (Zsum_rows_nonneg (combine gt seg) (seq 1 (list_max gt))
                                      (seq 0 (S (list_max seg))))) as Hsq.
      pose proof (nested_count_le (combine gt seg)
                    (seq_NoDup (list_max gt) 1)
                    (seq_NoDup (S (list_max seg)) 0)) as Hn.
      rewrite length_pairs in Hn.
      change (map (fun i => Zsum (map (fun j => pair_count (combine gt seg) i j)
                                      (seq 0 (S (list_max seg)))))
                  (seq 1 (list_max gt)))
        with (RandSpec.a_i seg gt) in *.
      nia. }
  assert (sum64 (map (fun x => mul64 x x)
                     (col_sums 0 add64 (slice p_ij 1 (nrows p_ij) 1 (ncols p_ij))))
          = Zsum (map (fun x => x * x) (RandSpec.b_j seg gt))) as HB.
  { apply sum64_exact.
    - apply (Forall2_map (R := cong64)); [| apply b_i_cong].
      intros x y Hxy. now apply mul64_cong.
    - apply N_squared_fits.
      pose proof (Zsum_squares_le
                    (Zsum_cols_nonneg (combine gt seg) (seq 1 (list_max gt))
                                      (seq 1 (list_max seg)))) as Hsq.
      pose proof (nested_count_le_swap (combine gt seg)
                    (seq_NoDup (list_max gt) 1)
                    (seq_NoDup (list_max seg) 1)) as Hn.
      rewrite length_pairs in Hn.
      change (map (fun j => Zsum (map (fun i => pair_count (combine gt seg) i j)
                                      (seq 1 (list_max gt))))
                  (seq 1 (list_max seg)))
        with (RandSpec.b_j seg gt) in *.
      nia. }
  assert (msum 0 add64 (slice p_ij 1 (nrows p_ij) 0 1)
          = RandSpec.sum_c seg gt) as HC.
  { unfold msum. apply sum64_exact; [apply c_cong |].
    apply N_fits.
    pose proof (nested_count_le (combine gt seg)
                  (seq_NoDup (list_max gt) 1) (seq_NoDup 1 0)) as Hn.
    rewrite length_pairs in Hn.
    erewrite map_ext in Hn; [exact Hn |].
    intros i. cbn [seq map Zsum fold_right]. rewrite Z.add_0_r. reflexivity. }
  assert (msum 0 add64
            (multiply mul64 (slice p_ij 1 (nrows p_ij) 1 (ncols p_ij))
                            (slice p_ij 1 (nrows p_ij) 1 (ncols p_ij)))
          = RandSpec.sum_b2 seg gt) as HD.
  { unfold msum. apply sum64_exact; [apply d_cong |].
    apply N_squared_fits.
    pose proof (nested_squares_le (combine gt seg)
                  (seq_NoDup (list_max gt) 1)
                  (seq_NoDup (list_max seg) 1)) as Hn.
    rewrite length_pairs in Hn. exact Hn. }
  cbv zeta. rewrite HA, HB, HC, HD. reflexivity.
Qed.

End AdaptedRand.

(** C1, amended: for a candidate [seg] and a ground truth [gt] of one
    shape with [N >= 1] voxels and [N * N < 2^63], so that no 64-bit sum
    of squares wraps around,
    [adapted_rand] builds the count table [p_ij] of shape
    [(max gt + 1, max seg + 1)] with the ground truth on the rows, and its
    sums are [sumA], [sumB] and [sumAB] of the formulas: the rows start at
    ground-truth label 1, the columns of [a] and of [c] include candidate
    label 0; the result is [1 - 2 p r / (p + r)] for [p = sumAB / sumB]
    and [r = sumAB / sumA]. *)
Theorem adapted_rand_formula (seg gt : list nat) :
  length seg = length gt ->
  gt <> [] ->
  (Z.of_nat (length gt) * Z.of_nat (length gt) < 2 ^ 63)%Z ->
  exists p_ij : int_matrix,
    rand_table seg gt = Ok p_ij /\
    nrows p_ij = S (list_max gt) /\
    ncols p_ij = S (list_max seg) /\
    (forall i j, get 0%Z p_ij i j = RandSpec.p seg gt i j) /\
    rand_sums_of p_ij (length gt)
    = RandSums (RandSpec.sumA seg gt) (RandSpec.sumB seg gt)
               (RandSpec.sumAB seg gt) /\
    adapted_rand seg gt true
    = Ok (AreStats (RandSpec.error seg gt) (RandSpec.precision seg gt)
                   (RandSpec.recall seg gt)) /\
    adapted_rand seg gt false = Ok (Are (RandSpec.error seg gt)).
Proof.
  intros Hlen Hne Hfits.
  eexists. split; [now apply rand_table_ok |].
  split; [reflexivity |]. split; [reflexivity |].
  split; [intros i j; now apply p_ij_exact |].
  split; [now apply rand_sums_exact |].
  unfold adapted_rand. rewrite rand_table_ok by assumption. cbn [bind].
  rewrite rand_sums_exact by assumption.
  split; reflexivity.
Qed.

Lemma adapted_rand_formula_witness :
  adapted_rand [1; 1; 0; 2] [1; 1; 2; 2] false
  = Ok (Are (RandSpec.error [1; 1; 0; 2] [1; 1; 2; 2])).
Proof.
  destruct (@adapted_rand_formula [1; 1; 0; 2] [1; 1; 2; 2])
    as [p_ij [_ [_ [_ [_ [_ [_ H]]]]]]].
  - reflexivity.
  - discriminate.
  - reflexivity.
  - exact H.
Defined.

(** ** Finite values: the real numbers behind a float matrix *)

Section RealShadow.

Open Scope R_scope.

Lemma weight_of_R (b : bool) : weight_of b = F.Fin (weight_R b).
Proof. destruct b; reflexivity. Qed.

Lemma Rsum_map_add (A : Type) (f g : A -> R) (l : list A) :
  Rsum (map (fun x => f x + g x) l) = Rsum (map f l) + Rsum (map g l).
Proof.
  induction l as [| a l IH]; simpl; [lra | rewrite IH; lra].
Qed.

Lemma Rsum_map_scale (A : Type) (f : A -> R) (c : R) (l : list A) :
  Rsum (map (fun x => f x * c) l) = Rsum (map f l) * c.
Proof.
  induction l as [| a l IH]; simpl; [lra | rewrite IH; lra].
Qed.

Lemma Rsum_map_zero (A : Type) (f : A -> R) (l : list A) :
  (forall x, In x l -> f x = 0) -> Rsum (map f l) = 0.
Proof.
  induction l as [| a l IH]; intros H; simpl; [reflexivity |].
  rewrite (H a (or_introl eq_refl)), IH; [lra |].
  intros x Hx. apply H. now right.
Qed.

Lemma Rsum_map_nonneg (A : Type) (f : A -> R) (l : list A) :
  (forall x, In x l -> 0 <= f x) -> 0 <= Rsum (map f l).
Proof.
  induction l as [| a l IH]; intros H; simpl; [lra |].
  pose proof (H a (or_introl eq_refl)).
  assert (0 <= Rsum (map f l)) by (apply IH; intros; apply H; now right).
  lra.
Qed.

Lemma Rsum_map_ge_term (A : Type) (f : A -> R) (l : list A) (a : A) :
  (forall x, In x l -> 0 <= f x) -> In a l -> f a <= Rsum (map f l).
Proof.
  induction l as [| b l IH]; intros H Ha; [contradiction |]. simpl.
  pose proof (H b (or_introl eq_refl)).
  assert (0 <= Rsum (map f l))
    by (apply Rsum_map_nonneg; intros; apply H; now right).
  destruct Ha as [-> | Ha]; [lra |].
  assert (f a <= Rsum (map f l)) by (apply IH; [intros; apply H; now right | exact Ha]).
  lra.
Qed.

Lemma Rsum_map_ext (A : Type) (f g : A -> R) (l : list A) :
  (forall x, In x l -> f x = g x) -> Rsum (map f l) = Rsum (map g l).
Proof.
  intros H. f_equal. now apply map_ext_in.
Qed.

(** The only term of a sum over [0 .. n-1] that an indicator keeps. *)
Lemma Rsum_indicator (a : nat) (x : R) (s n : nat) :
  Rsum (map (fun i => if Nat.eqb a i then x else 0) (seq s n))
  = if Nat.leb s a && Nat.ltb a (s + n) then x else 0.
Proof.
  revert s. induction n as [| n IH]; intros s; simpl.
  - destruct (Nat.leb s a) eqn:E1, (Nat.ltb a (s + 0)) eqn:E2;
      try reflexivity.
    apply Nat.leb_le in E1. apply Nat.ltb_lt in E2. lia.
  - rewrite IH.
    destruct (Nat.eqb a s) eqn:E.
    + apply Nat.eqb_eq in E. subst s.
      assert (Nat.leb (S a) a = false) as -> by (apply Nat.leb_gt; lia).
      assert (Nat.leb a a = true) as -> by (apply Nat.leb_le; lia).
      assert (Nat.ltb a (a + S n) = true) as -> by (apply Nat.ltb_lt; lia).
      simpl. lra.
    + apply Nat.eqb_neq in E.
      destruct (Nat.leb (S s) a) eqn:E1, (Nat.ltb a (S s + n)) eqn:E2;
        destruct (Nat.leb s a) eqn:E3, (Nat.ltb a (s + S n)) eqn:E4;
        simpl; try lra; exfalso;
        repeat match goal with
          | H : Nat.leb _ _ = true |- _ => apply Nat.leb_le in H
          | H : Nat.leb _ _ = false |- _ => apply Nat.leb_gt in H
          | H : Nat.ltb _ _ = true |- _ => apply Nat.ltb_lt in H
          | H : Nat.ltb _ _ = false |- _ => apply Nat.ltb_ge in H
          end; lia.
Qed.

Lemma Rsum_indicator_in (a : nat) (x : R) (n : nat) :
  (a < n)%nat ->
  Rsum (map (fun i => if Nat.eqb a i then x else 0) (seq 0 n)) = x.
Proof.
  intros Ha. rewrite Rsum_indicator. simpl.
  apply Nat.ltb_lt in Ha. now rewrite Ha.
Qed.

Lemma mass_cons (w : nat * nat -> R) (v : nat * nat) (ps : list (nat * nat))
  (i j : nat) :
  mass w (v :: ps) i j
  = (if Nat.eqb (fst v) i && Nat.eqb (snd v) j then w v else 0) + mass w ps i j.
Proof. reflexivity. Qed.

(** Summed over a shape that holds every key, the masses add up to the
    total weight of the list. *)
Lemma mass_total (w : nat * nat -> R) (ps : list (nat * nat)) (nr nc : nat) :
  (forall v, In v ps -> (fst v < nr)%nat /\ (snd v < nc)%nat) ->
  Rsum (map (fun i => Rsum (map (fun j => mass w ps i j) (seq 0 nc))) (seq 0 nr))
  = Rsum (map w ps).
Proof.
  induction ps as [| v ps IH]; intros Hin.
  - simpl. apply Rsum_map_zero. intros i _. apply Rsum_map_zero. reflexivity.
  - assert (Rsum (map (fun i => Rsum (map (fun j => mass w (v :: ps) i j) (seq 0 nc))) (seq 0 nr))
            = Rsum (map (fun i => Rsum (map (fun j => if Nat.eqb (fst v) i && Nat.eqb (snd v) j then w v else 0) (seq 0 nc))) (seq 0 nr))
              + Rsum (map (fun i => Rsum (map (fun j => mass w ps i j) (seq 0 nc))) (seq 0 nr))) as ->.
    { rewrite <- Rsum_map_add. apply Rsum_map_ext. intros i _.
      rewrite <- Rsum_map_add. apply Rsum_map_ext. intros j _.
      apply mass_cons. }
    rewrite IH by (intros u Hu; apply Hin; now right).
    destruct (Hin v (or_introl eq_refl)) as [Hr Hc].
    simpl. f_equal.
    rewrite (Rsum_map_ext _ (fun i => if Nat.eqb (fst v) i then w v else 0)).
    + now apply Rsum_indicator_in.
    + intros i _. destruct (Nat.eqb (fst v) i); simpl.
      * now apply Rsum_indicator_in.
      * apply Rsum_map_zero. reflexivity.
Qed.

Lemma mass_transpose (w w' : nat * nat -> R) (ps : list (nat * nat)) (i j : nat) :
  (forall v, w' (snd v, fst v) = w v) ->
  mass w' (map (fun v => (snd v, fst v)) ps) j i = mass w ps i j.
Proof.
  intros Hw. unfold mass. rewrite map_map. apply Rsum_map_ext.
  intros v _. simpl. rewrite Hw, andb_comm. reflexivity.
Qed.

(** *** Sums of finite floats *)

Lemma asum_Fin (A : Type) (g : A -> float64) (f : A -> R) (l : list A) :
  (forall x, In x l -> g x = F.Fin (f x)) ->
  asum F.zero F.add (map g l) = F.Fin (Rsum (map f l)).
Proof.
  unfold asum.
  induction l as [| a l IH]; intros H; [reflexivity |].
  cbn [map fold_right]. rewrite IH by (intros; apply H; now right).
  now rewrite (H a (or_introl eq_refl)).
Qed.

Lemma row_sums_Fin (m : float_matrix) (f : nat -> nat -> R) :
  (forall i j, get F.zero m i j = F.Fin (f i j)) ->
  row_sums F.zero F.add m
  = map (fun i => F.Fin (Rsum (map (fun j => f i j) (seq 0 (ncols m)))))
        (seq 0 (nrows m)).
Proof.
  intros H. unfold row_sums. apply map_ext. intros i.
  unfold row. apply asum_Fin. intros j _. apply H.
Qed.

Lemma col_sums_Fin (m : float_matrix) (f : nat -> nat -> R) :
  (forall i j, get F.zero m i j = F.Fin (f i j)) ->
  col_sums F.zero F.add m
  = map (fun j => F.Fin (Rsum (map (fun i => f i j) (seq 0 (nrows m)))))
        (seq 0 (ncols m)).
Proof.
  intros H. unfold col_sums. apply map_ext. intros j.
  unfold column. apply asum_Fin. intros i _. apply H.
Qed.

Lemma msum_Fin (m : float_matrix) (f : nat -> nat -> R) :
  (forall i j, get F.zero m i j = F.Fin (f i j)) ->
  msum F.zero F.add m
  = F.Fin (Rsum (map (fun i => Rsum (map (fun j => f i j) (seq 0 (ncols m))))
                     (seq 0 (nrows m)))).
Proof.
  intros H. unfold msum. rewrite (@row_sums_Fin m f H).
  apply asum_Fin. reflexivity.
Qed.

(** The stored sums of weighted pairs are their masses. *)
Lemma coo_entry_mass (w : nat * nat -> R) (ps : list (nat * nat)) (i j : nat) :
  value F.zero (coo_entry F.add (map (fun v => (v, F.Fin (w v))) ps) i j)
  = F.Fin (mass w ps i j).
Proof.
  induction ps as [| [r c] ps IH]; [reflexivity |].
  simpl map. cbn [coo_entry]. rewrite mass_cons. simpl fst. simpl snd.
  destruct (Nat.eqb r i && Nat.eqb c j).
  - destruct (coo_entry F.add _ i j) as [u |]; cbn [value] in *.
    + now rewrite IH.
    + injection IH as IH. rewrite <- IH. f_equal. lra.
  - rewrite IH. f_equal. lra.
Qed.

Lemma combine_map_self (A B : Type) (f : A -> B) (l : list A) :
  combine l (map f l) = map (fun x => (x, f x)) l.
Proof.
  induction l; simpl; congruence.
Qed.

End RealShadow.

(** ** The contingency table and its total mass *)

Lemma list_max_ge (l : list nat) (x : nat) : In x l -> (x <= list_max l)%nat.
Proof.
  intros H. pose proof (proj1 (list_max_le l (list_max l)) (Nat.le_refl _)) as Hall.
  rewrite Forall_forall in Hall. now apply Hall.
Qed.

Lemma get_scale (m : float_matrix) (c r : R) (i j : nat) :
  get F.zero m i j = F.Fin r ->
  get F.zero (map_data (fun _ _ v => F.mul v (F.Fin c)) m) i j
  = F.Fin (r * c).
Proof.
  unfold get, map_data. cbn [entry].
  destruct (entry m i j) as [v |]; cbn [option_map value].
  - intros ->. reflexivity.
  - unfold F.zero. intros H. injection H as H. rewrite <- H. f_equal. lra.
Qed.

Section ContingencyTable.

Variables seg gt ignore_seg ignore_gt : list nat.
Hypothesis same_shape : length seg = length gt.

(** The weight of a voxel, as a real number. *)
Let w (v : nat * nat) : R :=
  weight_R (ignored_voxel ignore_seg ignore_gt (fst v) (snd v)).

(** The table of the weights before it is normalised. *)
Let cont : float_matrix :=
  SpMatrix (S (list_max seg)) (S (list_max gt))
           (coo_entry F.add
              (triples (voxel_weights seg gt ignore_seg ignore_gt) seg gt)).

Lemma triples_weights :
  triples (voxel_weights seg gt ignore_seg ignore_gt) seg gt
  = map (fun v => (v, F.Fin (w v))) (combine seg gt).
Proof.
  unfold triples. rewrite voxel_weights_spec by assumption.
  rewrite combine_map_self. apply map_ext. intros v.
  now rewrite weight_of_R.
Qed.

Lemma cont_get (i j : nat) :
  get F.zero cont i j = F.Fin (mass w (combine seg gt) i j).
Proof.
  unfold get. cbn [cont entry]. rewrite triples_weights.
  apply coo_entry_mass.
Qed.

Lemma cont_total :
  msum F.zero F.add cont = F.Fin (Rsum (map w (combine seg gt))).
Proof.
  rewrite (@msum_Fin cont (mass w (combine seg gt)) cont_get).
  f_equal. apply mass_total. intros [s g] Hin. simpl.
  pose proof (list_max_ge _ _ (in_combine_l _ _ _ _ Hin)).
  pose proof (list_max_ge _ _ (in_combine_r _ _ _ _ Hin)).
  lia.
Qed.

Lemma w_range (v : nat * nat) : (0 <= w v <= 1)%R.
Proof.
  unfold w, weight_R. destruct (ignored_voxel _ _ _ _); lra.
Qed.

Lemma contingency_table_unfold (norm : bool) :
  seg <> [] ->
  contingency_table seg gt ignore_seg ignore_gt norm
  = if norm then divide_by_scalar cont (msum F.zero F.add cont) else Ok cont.
Proof.
  intros Hne. unfold contingency_table.
  rewrite same_shape, Nat.eqb_refl. cbn [negb].
  assert (amax seg = Ok (list_max seg)) as ->
      by (destruct seg; [contradiction | reflexivity]).
  assert (amax gt = Ok (list_max gt)) as ->.
  { destruct gt as [| g gt']; [| reflexivity].
    destruct seg; [contradiction | discriminate]. }
  cbn [rmap bind]. unfold coo_matrix.
  assert (length (voxel_weights seg gt ignore_seg ignore_gt) = length seg) as ->.
  { rewrite voxel_weights_spec, length_map, length_combine by assumption.
    rewrite same_shape. apply Nat.min_id. }
  rewrite same_shape, !Nat.eqb_refl. reflexivity.
Qed.

Lemma contingency_table_empty (norm : bool) :
  seg = [] ->
  contingency_table seg gt ignore_seg ignore_gt norm = Raise ValueError.
Proof.
  intros ->. destruct gt; [reflexivity | discriminate].
Qed.

Lemma contingency_table_shape_error (norm : bool) :
  contingency_table seg gt ignore_seg ignore_gt norm <> Raise IndexError.
Proof.
  destruct (list_eq_dec Nat.eq_dec seg []) as [E | E].
  - rewrite contingency_table_empty by assumption. discriminate.
  - rewrite contingency_table_unfold by assumption.
    destruct norm; [| discriminate].
    unfold divide_by_scalar. destruct (F.nonzero _); discriminate.
Qed.

(** With every voxel ignored the total is zero and the division by it
    raises. *)
Lemma contingency_table_all_ignored :
  seg <> [] ->
  Forall (fun v => ignored_voxel ignore_seg ignore_gt (fst v) (snd v) = true)
         (combine seg gt) ->
  contingency_table seg gt ignore_seg ignore_gt true = Raise ZeroDivisionError.
Proof.
  intros Hne Hall. rewrite contingency_table_unfold by assumption.
  rewrite cont_total. unfold divide_by_scalar.
  rewrite Rsum_map_zero.
  - simpl. now rewrite Rsign_zero.
  - intros v Hv. rewrite Forall_forall in Hall. unfold w.
    now rewrite (Hall v Hv).
Qed.

Lemma total_weight_pos :
  Exists (fun v => ignored_voxel ignore_seg ignore_gt (fst v) (snd v) = false)
         (combine seg gt) ->
  (1 <= Rsum (map w (combine seg gt)))%R.
Proof.
  intros Hex. apply Exists_exists in Hex. destruct Hex as [v [Hin Hv]].
  assert (w v = 1%R) as H1 by (unfold w; now rewrite Hv).
  rewrite <- H1. apply Rsum_map_ge_term; [| exact Hin].
  intros x _. apply w_range.
Qed.

(** The normalised table: every entry is the mass of its position divided
    by the total weight. *)
Lemma contingency_table_normalised :
  Exists (fun v => ignored_voxel ignore_seg ignore_gt (fst v) (snd v) = false)
         (combine seg gt) ->
  exists pxy,
    contingency_table seg gt ignore_seg ignore_gt true = Ok pxy /\
    nrows pxy = S (list_max seg) /\ ncols pxy = S (list_max gt) /\
    (forall i j, entry pxy i j
                 = option_map (fun v => F.mul v (F.Fin (1 / Rsum (map w (combine seg gt)))))
                              (entry cont i j)) /\
    forall i j,
      get F.zero pxy i j
      = F.Fin (mass w (combine seg gt) i j * (1 / Rsum (map w (combine seg gt)))).
Proof.
  intros Hex. pose proof (total_weight_pos Hex) as HT.
  assert (seg <> []) as Hne.
  { intros ->. apply Exists_exists in Hex. destruct Hex as [v [Hin _]].
    exact Hin. }
  rewrite contingency_table_unfold by assumption.
  rewrite cont_total. unfold divide_by_scalar.
  rewrite nonzero_Fin by lra. unfold F.one. rewrite div_Fin by lra.
  eexists. split; [reflexivity |].
  split; [reflexivity |]. split; [reflexivity |].
  split; [reflexivity |].
  intros i j. apply get_scale, cont_get.
Qed.

End ContingencyTable.

Lemma Rsum_nested_scale (f : nat -> nat -> R) (c : R) (X Y : list nat) :
  Rsum (map (fun i => Rsum (map (fun j => (f i j * c)%R) Y)) X)
  = (Rsum (map (fun i => Rsum (map (fun j => f i j) Y)) X) * c)%R.
Proof.
  rewrite <- Rsum_map_scale. apply Rsum_map_ext.
  intros i _. apply Rsum_map_scale.
Qed.

(** C5, amended: for label volumes of one shape with at least one voxel
    that is not ignored, the entries of the normalised contingency table
    sum to 1 (exactly, in the arithmetic without rounding). *)
Theorem contingency_table_sums_to_one
  (seg gt ignore_seg ignore_gt : list nat) :
  length seg = length gt ->
  Exists (fun v => ignored_voxel ignore_seg ignore_gt (fst v) (snd v) = false)
         (combine seg gt) ->
  exists pxy,
    contingency_table seg gt ignore_seg ignore_gt true = Ok pxy /\
    nrows pxy = S (list_max seg) /\
    ncols pxy = S (list_max gt) /\
    msum F.zero F.add pxy = F.Fin 1.
Proof.
  intros Hlen Hex.
  destruct (@contingency_table_normalised seg gt ignore_seg ignore_gt Hlen Hex)
    as [pxy [Hok [Hr [Hc [_ Hget]]]]].
  exists pxy. split; [exact Hok |]. split; [exact Hr |]. split; [exact Hc |].
  rewrite (@msum_Fin pxy _ Hget). f_equal.
  pose proof (@total_weight_pos seg gt ignore_seg ignore_gt Hex) as HT.
  rewrite Rsum_nested_scale, Hr, Hc, mass_total.
  - field. lra.
  - intros [s g] Hin. simpl.
    pose proof (list_max_ge _ _ (in_combine_l _ _ _ _ Hin)).
    pose proof (list_max_ge _ _ (in_combine_r _ _ _ _ Hin)).
    lia.
Qed.

Lemma contingency_table_sums_to_one_witness :
  exists pxy,
    contingency_table_default [1; 1; 2; 0] [1; 0; 1; 1] = Ok pxy /\
    nrows pxy = 3 /\ ncols pxy = 2 /\
    msum F.zero F.add pxy = F.Fin 1.
Proof.
  apply (@contingency_table_sums_to_one
           [1; 1; 2; 0] [1; 0; 1; 1] default_ignore_seg default_ignore_gt).
  - reflexivity.
  - apply Exists_cons_hd. reflexivity.
Defined.

(** C5 as stated fails: when every voxel is ignored there is no
    normalised table at all. *)
Lemma contingency_table_all_background :
  contingency_table_default [1; 2] [0; 0] = Raise ZeroDivisionError /\
  ~ exists pxy,
      contingency_table_default [1; 2] [0; 0] = Ok pxy /\
      msum F.zero F.add pxy = F.Fin 1.
Proof.
  assert (contingency_table_default [1; 2] [0; 0] = Raise ZeroDivisionError) as H.
  { apply contingency_table_all_ignored.
    - reflexivity.
    - discriminate.
    - repeat constructor. }
  split; [exact H |].
  intros [pxy [Hok _]]. rewrite H in Hok. discriminate.
Qed.

(** ** Zero divisors *)

Lemma sum64_squares_zero (A : Type) (l : list A) :
  sum64 (map (fun x => mul64 x x) (map (fun _ => 0%Z) l)) = 0%Z.
Proof.
  induction l as [| a l IH]; [reflexivity |].
  cbn [map sum64 fold_right] in *. unfold sum64 in IH. rewrite IH. reflexivity.
Qed.

Lemma asum64_zero (A : Type) (l : list A) :
  asum 0%Z add64 (map (fun _ => 0%Z) l) = 0%Z.
Proof.
  unfold asum. induction l as [| a l IH]; [reflexivity |].
  cbn [map fold_right]. rewrite IH. reflexivity.
Qed.

Lemma list_max_zeros (l : list nat) : Forall (fun g => g = 0) l -> list_max l = 0.
Proof.
  induction 1 as [| g l Hg _ IH]; [reflexivity |].
  subst g. simpl. exact IH.
Qed.

(** Without a foreground voxel in the ground truth the three sums are
    zero. *)
Lemma rand_sums_no_foreground (p_ij : int_matrix) (n : nat) :
  nrows p_ij = 1 ->
  n <> 0 ->
  rand_sums_of p_ij n = RandSums 0 (F.Fin 0) (F.Fin 0).
Proof.
  intros Hrows Hn. unfold rand_sums_of. rewrite Hrows.
  unfold row_sums, col_sums, msum, row_sums, column.
  cbn [nrows ncols slice multiply Nat.sub seq map].
  rewrite sum64_squares_zero.
  cbn [asum fold_right sum64 map].
  assert (F.div (F.of_int 0) (F.of_int (Z.of_nat n)) = F.Fin 0) as ->.
  { unfold F.of_int. rewrite div_Fin.
    - f_equal. unfold Rdiv. apply Rmult_0_l.
    - apply not_0_IZR. lia. }
  unfold F.of_int. cbn [F.add]. rewrite Rplus_0_l. reflexivity.
Qed.

Lemma adapted_rand_no_foreground (seg gt : list nat) :
  length seg = length gt ->
  gt <> [] ->
  Forall (fun g => g = 0) gt ->
  (exists p_ij,
      rand_table seg gt = Ok p_ij /\
      rs_sumA (rand_sums_of p_ij (length gt)) = 0%Z) /\
  adapted_rand seg gt true = Ok (AreStats F.NaN F.NaN F.NaN) /\
  adapted_rand seg gt false = Ok (Are F.NaN).
Proof.
  intros Hlen Hne Hzero.
  assert (length gt <> 0) as Hn
      by (intros H; apply Hne; now apply length_zero_iff_nil).
  pose proof (@rand_table_ok seg gt Hlen Hne) as Htab.
  rewrite (list_max_zeros Hzero) in Htab.
  split.
  - eexists. split; [exact Htab |].
    now rewrite rand_sums_no_foreground.
  - unfold adapted_rand. rewrite Htab. cbn [bind].
    rewrite rand_sums_no_foreground by (trivial; reflexivity).
    unfold rand_scores. cbn [rs_sumA rs_sumB rs_sumAB].
    unfold F.of_int. rewrite div_zero_zero.
    split; reflexivity.
Qed.

(** C3, amended: a contingency table whose voxels are all ignored makes
    the normalisation raise ([ZeroDivisionError], from the reciprocal of
    the total); [adapted_rand] on a ground truth without foreground raises
    nothing and returns [nan] for the error, the precision and the
    recall. *)
Theorem zero_divisors (seg gt ignore_seg ignore_gt : list nat) :
  length seg = length gt ->
  gt <> [] ->
  (Forall (fun v => ignored_voxel ignore_seg ignore_gt (fst v) (snd v) = true)
          (combine seg gt) ->
   contingency_table seg gt ignore_seg ignore_gt true
   = Raise ZeroDivisionError) /\
  (Forall (fun g => g = 0) gt ->
   (exists p_ij,
       rand_table seg gt = Ok p_ij /\
       rs_sumA (rand_sums_of p_ij (length gt)) = 0%Z) /\
   adapted_rand seg gt true = Ok (AreStats F.NaN F.NaN F.NaN) /\
   adapted_rand seg gt false = Ok (Are F.NaN)).
Proof.
  intros Hlen Hne. split.
  - intros Hall. apply contingency_table_all_ignored; trivial.
    intros ->. apply Hne. now apply length_zero_iff_nil.
  - intros Hzero. now apply adapted_rand_no_foreground.
Qed.

Lemma zero_divisors_witness :
  contingency_table [1; 2] [0; 0] [] [0] true = Raise ZeroDivisionError /\
  adapted_rand [1; 2] [0; 0] false = Ok (Are F.NaN).
Proof.
  destruct (@zero_divisors [1; 2] [0; 0] [] [0]) as [H1 H2].
  - reflexivity.
  - discriminate.
  - split.
    + apply H1. repeat constructor.
    + apply H2. repeat constructor.
Defined.

(** C3 as stated fails: with [sumA] zero, [adapted_rand] returns [nan]
    and signals no error. *)
Lemma adapted_rand_returns_nan :
  (exists p_ij,
      rand_table [1] [0] = Ok p_ij /\
      rs_sumA (rand_sums_of p_ij 1) = 0%Z) /\
  adapted_rand [1] [0] false = Ok (Are F.NaN) /\
  forall e, adapted_rand [1] [0] false <> Raise e.
Proof.
  destruct (@adapted_rand_no_foreground [1] [0]) as [H1 [_ H2]].
  - reflexivity.
  - discriminate.
  - repeat constructor.
  - split; [exact H1 |]. split; [exact H2 |].
    intros e. rewrite H2. discriminate.
Qed.

(** ** Variation of information: exchanging the volumes *)

Lemma select_transpose (A : Type) (m : spmatrix A) (rows cols : list nat) :
  select (transpose m) cols rows = transpose (select m rows cols).
Proof.
  unfold select, transpose. cbn [nrows ncols entry]. f_equal.
  extensionality k. extensionality l. now rewrite andb_comm.
Qed.

Lemma vi_of_table_transpose (pxy : float_matrix) :
  vi_of_table (transpose pxy) = swap_vi (vi_of_table pxy).
Proof.
  unfold vi_of_table. cbv zeta.
  change (row_sums F.zero F.add (transpose pxy)) with (col_sums F.zero F.add pxy).
  change (col_sums F.zero F.add (transpose pxy)) with (row_sums F.zero F.add pxy).
  rewrite select_transpose.
  reflexivity.
Qed.

Lemma combine_swap (A B : Type) (l : list A) (l' : list B) :
  combine l' l = map (fun v => (snd v, fst v)) (combine l l').
Proof.
  revert l'. induction l as [| a l IH]; intros [| b l']; simpl;
    try reflexivity.
  now rewrite IH.
Qed.

Lemma coo_entry_swap (A : Type) (add : A -> A -> A)
  (es : list (nat * nat * A)) (i j : nat) :
  coo_entry add (map (fun e => (snd (fst e), fst (fst e), snd e)) es) j i
  = coo_entry add es i j.
Proof.
  induction es as [| [[r c] v] es IH]; [reflexivity |].
  simpl. rewrite IH, (andb_comm (Nat.eqb c j)). reflexivity.
Qed.

Lemma triples_swap (A : Type) (data : list A) (x y : list nat) :
  triples data y x
  = map (fun e => (snd (fst e), fst (fst e), snd e)) (triples data x y).
Proof.
  unfold triples. rewrite (combine_swap x y).
  generalize (combine x y) as ps. intros ps. revert data.
  induction ps as [| [s g] ps IH]; intros [| d data]; simpl;
    try reflexivity.
  now rewrite IH.
Qed.

Lemma divide_by_scalar_transpose (cont : float_matrix) (total : float64) :
  divide_by_scalar (transpose cont) total
  = rmap transpose (divide_by_scalar cont total).
Proof.
  unfold divide_by_scalar. destruct (F.nonzero total); reflexivity.
Qed.

Section SwapVolumes.

Variables x y ignore_x ignore_y ignore_x' ignore_y' : list nat.

(** The two calls ignore the same voxels. *)
Hypothesis same_ignored :
  Forall (fun v => ignored_voxel ignore_y' ignore_x' (snd v) (fst v)
                   = ignored_voxel ignore_x ignore_y (fst v) (snd v))
         (combine x y).

Lemma voxel_weights_swap :
  length x = length y ->
  voxel_weights y x ignore_y' ignore_x' = voxel_weights x y ignore_x ignore_y.
Proof.
  intros Hlen.
  rewrite !voxel_weights_spec by congruence.
  rewrite (combine_swap x y), map_map. apply map_ext_in.
  intros v Hv. rewrite Forall_forall in same_ignored. simpl.
  now rewrite (same_ignored v Hv).
Qed.

Lemma contingency_table_swap (norm : bool) :
  contingency_table y x ignore_y' ignore_x' norm
  = rmap transpose (contingency_table x y ignore_x ignore_y norm).
Proof.
  destruct (Nat.eq_dec (length x) (length y)) as [Hlen | Hlen].
  - destruct (list_eq_dec Nat.eq_dec x []) as [Hx | Hx].
    + subst x. destruct y; [reflexivity | discriminate].
    + assert (y <> []) as Hy.
      { intros ->. apply Hx. now apply length_zero_iff_nil. }
      rewrite (@contingency_table_unfold y x ignore_y' ignore_x'
                 (eq_sym Hlen) norm Hy).
      rewrite (@contingency_table_unfold x y ignore_x ignore_y Hlen norm Hx).
      rewrite (voxel_weights_swap Hlen).
      set (data := voxel_weights x y ignore_x ignore_y).
      assert (SpMatrix (S (list_max y)) (S (list_max x))
                       (coo_entry F.add (triples data y x))
              = transpose (SpMatrix (S (list_max x)) (S (list_max y))
                                    (coo_entry F.add (triples data x y)))) as ->.
      { unfold transpose. cbn [nrows ncols entry]. f_equal.
        extensionality j. extensionality i.
        rewrite triples_swap. apply coo_entry_swap. }
      destruct norm; [| reflexivity].
      set (cont := SpMatrix _ _ (coo_entry F.add (triples data x y))).
      assert (msum F.zero F.add (transpose cont) = msum F.zero F.add cont) as ->.
      { subst cont data.
        pose proof (@cont_total y x ignore_y' ignore_x' (eq_sym Hlen)) as H1.
        rewrite (voxel_weights_swap Hlen) in H1.
        pose proof (@cont_total x y ignore_x ignore_y Hlen) as H2.
        rewrite H2. etransitivity; [| etransitivity; [exact H1 |]].
        - unfold msum, row_sums, row, get, transpose. cbn [nrows ncols entry].
          f_equal. apply map_ext. intros i. f_equal. apply map_ext. intros j.
          rewrite triples_swap, coo_entry_swap. reflexivity.
        - f_equal. rewrite (combine_swap x y), map_map.
          apply Rsum_map_ext. intros v Hv.
          rewrite Forall_forall in same_ignored. simpl.
          now rewrite (same_ignored v Hv). }
      apply divide_by_scalar_transpose.
  - unfold contingency_table.
    assert (Nat.eqb (length y) (length x) = false) as ->
        by (apply Nat.eqb_neq; congruence).
    assert (Nat.eqb (length x) (length y) = false) as ->
        by (now apply Nat.eqb_neq).
    reflexivity.
Qed.

Lemma vi_tables_swap :
  vi_tables (LabelFields y x) ignore_y' ignore_x'
  = rmap swap_vi (vi_tables (LabelFields x y) ignore_x ignore_y).
Proof.
  unfold vi_tables. rewrite contingency_table_swap.
  destruct (contingency_table x y ignore_x ignore_y true) as [pxy | e];
    [| reflexivity].
  cbn [rmap bind]. now rewrite vi_of_table_transpose.
Qed.

(** Exchanging the volumes, with the same voxels ignored, exchanges the
    two conditional entropies. *)
Lemma voi_swap :
  voi y x ignore_y' ignore_x'
  = rmap swap_pair (voi x y ignore_x ignore_y).
Proof.
  unfold voi, split_vi. rewrite vi_tables_swap.
  destruct (vi_tables (LabelFields x y) ignore_x ignore_y) as [t | e];
    reflexivity.
Qed.

End SwapVolumes.

Lemma Forall2_combine (A B : Type) (R : A -> B -> Prop) (l : list A) (l' : list B) :
  Forall2 R l l' -> Forall (fun v => R (fst v) (snd v)) (combine l l').
Proof.
  induction 1; simpl; constructor; assumption.
Qed.

(** C7, amended: for volumes [a] and [b] that carry label 0 at the same
    voxels (so in particular when neither contains label 0), the call with
    the volumes exchanged returns the two errors exchanged: the split
    error of [(b, a)] is the merge error of [(a, b)] and conversely.  An
    exception of one call is the exception of the other. *)
Theorem voi_default_symmetry (a b : list nat) :
  Forall2 (fun p q => p = 0 <-> q = 0) a b ->
  voi_default b a = rmap swap_pair (voi_default a b).
Proof.
  intros Hzero. unfold voi_default. apply voi_swap.
  apply Forall2_combine in Hzero.
  eapply Forall_impl; [| exact Hzero].
  intros [p q] H. unfold ignored_voxel. simpl in *.
  rewrite !orb_false_r.
  destruct (Nat.eqb_spec q 0) as [Hq | Hq], (Nat.eqb_spec p 0) as [Hp | Hp];
    try reflexivity; exfalso; tauto.
Qed.

Lemma voi_default_symmetry_witness :
  voi_default [1; 1; 0] [1; 2; 0]
  = rmap swap_pair (voi_default [1; 2; 0] [1; 1; 0]).
Proof.
  apply (@voi_default_symmetry [1; 2; 0] [1; 1; 0]).
  repeat constructor; intros H; discriminate H.
Defined.

(** ** Evaluation on concrete volumes *)

Lemma nonzero_zero : F.nonzero (F.Fin 0) = false.
Proof. now apply nonzero_false. Qed.

(** One step of the evaluation of a float expression on constants: the
    tests and divisions are decided by linear arithmetic. *)
Ltac float_step :=
  match goal with
  | |- context [F.nonzero (F.Fin ?r)] =>
      first [ rewrite (@nonzero_Fin r) by lra
            | replace r with 0%R by lra; rewrite nonzero_zero ]
  | |- context [F.div (F.Fin ?a) (F.Fin ?b)] =>
      rewrite (@div_Fin a b) by lra
  | |- context [F.log2 (F.Fin ?a)] =>
      first [ replace a with 1%R by lra; rewrite log2_one
            | replace a with (/ 2)%R by lra; rewrite log2_half ]
  end.

Ltac float_eval :=
  repeat (cbn - [F.log2 F.div F.nonzero]; float_step);
  cbn - [F.log2 F.div F.nonzero].

(** Equality of evaluated results, component by component. *)
Ltac fin_eq :=
  repeat match goal with
    | |- F.Fin _ = F.Fin _ => apply f_equal; lra
    | |- _ :: _ = _ :: _ => apply f_equal2
    | |- (_, _) = (_, _) => apply f_equal2
    | |- Ok _ = Ok _ => apply f_equal
    | |- [] = [] => reflexivity
    end.

Ltac unfold_vi :=
  unfold voi_default, voi, split_vi, vi_tables, contingency_table_default,
    contingency_table;
  cbn [length Nat.eqb negb amax rmap bind list_max fold_right Nat.max];
  unfold voxel_weights;
  cbn [length repeat fold_left mark_equal combine map clear_ignored fst snd
       Nat.eqb];
  unfold coo_matrix; cbn [length Nat.eqb andb bind];
  unfold divide_by_scalar, vi_of_table, nonzero_idx, xlogx, xlogx_with,
    xlogx_elem, divide_rows, divide_columns, sum_axis0, sum_axis1,
    row_sums, col_sums, msum, row_sums, row, column, asum, get, F.sum,
    neg_mul, take, select, map_data, triples, F.one, F.zero.

(** C7 as stated fails: with a label 0 in [a] only, the split error of
    [(a, b)] is 1 and the merge error of [(b, a)] is 0. *)
Lemma voi_default_asymmetric :
  voi_default [0; 1] [1; 1] = Ok (F.Fin 1, F.Fin 0) /\
  voi_default [1; 1] [0; 1] = Ok (F.Fin 0, F.Fin 0) /\
  fst (F.Fin 1, F.Fin 0) <> snd (F.Fin 0, F.Fin 0).
Proof.
  split; [| split].
  - unfold_vi. float_eval. fin_eq.
  - unfold_vi. float_eval. fin_eq.
  - simpl. intros H. injection H as H. lra.
Qed.

(** C6: for [seg = [[1,1],[2,2]]] and [gt = [[1,1],[1,1]]] the normalised
    table has [C[1,1] = C[2,1] = 0.5], the marginals are [px = [0, 0.5,
    0.5]] and [py = [0, 1]], and [voi] returns the split error [H(X|Y) =
    1] and the merge error [H(Y|X) = 0]. *)
Theorem voi_scenario :
  (exists pxy,
      contingency_table [1; 1; 2; 2] [1; 1; 1; 1] [] [0] true = Ok pxy /\
      get F.zero pxy 1 1 = F.Fin (1 / 2) /\
      get F.zero pxy 2 1 = F.Fin (1 / 2) /\
      row_sums F.zero F.add pxy = [F.Fin 0; F.Fin (1 / 2); F.Fin (1 / 2)] /\
      col_sums F.zero F.add pxy = [F.Fin 0; F.Fin 1]) /\
  voi_default [1; 1; 2; 2] [1; 1; 1; 1] = Ok (F.Fin 1, F.Fin 0).
Proof.
  split.
  - eexists. split.
    + unfold_vi. float_eval. reflexivity.
    + unfold_vi. cbn. repeat split; fin_eq.
  - unfold_vi. float_eval. fin_eq.
Qed.

(** ** Variation of information of a volume against itself *)

Lemma in_combine_diag (A : Type) (l : list A) (v : A * A) :
  In v (combine l l) -> fst v = snd v.
Proof.
  induction l as [| a l IH]; simpl; [contradiction |].
  intros [<- | H]; [reflexivity | now apply IH].
Qed.

Lemma mass_diag (w : nat * nat -> R) (l : list nat) (i j : nat) :
  i <> j -> mass w (combine l l) i j = 0%R.
Proof.
  intros Hij. unfold mass. apply Rsum_map_zero. intros v Hv.
  apply in_combine_diag in Hv.
  destruct (Nat.eqb_spec (fst v) i) as [Hi | Hi]; [| reflexivity].
  destruct (Nat.eqb_spec (snd v) j) as [Hj | Hj]; [| reflexivity].
  exfalso. congruence.
Qed.

Lemma update_length (A : Type) (a : list A) (i : nat) (v : A) :
  length (update a i v) = length a.
Proof.
  revert i. induction a as [| x a IH]; intros [| i]; simpl; auto.
Qed.

Lemma update_Forall (A : Type) (P : A -> Prop) (a : list A) (i : nat) (v : A) :
  Forall P a -> P v -> Forall P (update a i v).
Proof.
  intros Ha Hv. revert i.
  induction Ha as [| x a Hx Ha IH]; intros [| i]; simpl; constructor; auto.
Qed.

Lemma put_length (A : Type) (a : list A) (idx : list nat) (vals : list A) :
  length (put a idx vals) = length a.
Proof.
  revert a vals. induction idx as [| i idx IH]; intros a [| v vals];
    simpl; try reflexivity.
  now rewrite IH, update_length.
Qed.

Lemma put_Forall (A : Type) (P : A -> Prop) (a : list A) (idx : list nat)
  (vals : list A) :
  Forall P a -> Forall P vals -> Forall P (put a idx vals).
Proof.
  revert a vals. induction idx as [| i idx IH]; intros a [| v vals] Ha Hv;
    simpl; try assumption.
  inversion Hv; subst. apply IH; [now apply update_Forall | assumption].
Qed.

Lemma Forall_eq_repeat (A : Type) (z : A) (l : list A) :
  Forall (fun v => v = z) l -> l = repeat z (length l).
Proof.
  induction 1 as [| v l Hv _ IH]; simpl; [reflexivity |].
  now rewrite Hv, <- IH.
Qed.

Lemma neg_mul_repeat (A : Type) (g : A -> float64) (z : float64) (l : list A) :
  neg_mul (map g l) (repeat z (length l))
  = map (fun a => F.neg (F.mul (g a) z)) l.
Proof.
  unfold neg_mul. induction l as [| a l IH]; simpl; [reflexivity |].
  now rewrite IH.
Qed.

Lemma nonzero_idx_spec (a : list float64) (i : nat) :
  In i (nonzero_idx a) ->
  i < length a /\ F.nonzero (nth i a F.zero) = true.
Proof.
  unfold nonzero_idx. rewrite filter_In, in_seq. intros [H1 H2].
  split; [lia | exact H2].
Qed.

Section Identity.

Variables x ignore_x ignore_y : list nat.

Hypothesis counted :
  Exists (fun v => ignored_voxel ignore_x ignore_y (fst v) (snd v) = false)
         (combine x x).

Let w (v : nat * nat) : R :=
  weight_R (ignored_voxel ignore_x ignore_y (fst v) (snd v)).

Let n : nat := S (list_max x).

(** The diagonal of the normalised table. *)
Let d (i : nat) : R :=
  (mass w (combine x x) i i * (1 / Rsum (map w (combine x x))))%R.

Variable pxy : float_matrix.
Hypothesis pxy_rows : nrows pxy = n.
Hypothesis pxy_cols : ncols pxy = n.
Hypothesis pxy_get :
  forall i j,
    get F.zero pxy i j
    = F.Fin (mass w (combine x x) i j * (1 / Rsum (map w (combine x x)))).

Lemma identity_px :
  row_sums F.zero F.add pxy = map (fun i => F.Fin (d i)) (seq 0 n).
Proof.
  rewrite (@row_sums_Fin pxy _ pxy_get), pxy_rows, pxy_cols.
  apply map_ext_in. intros i Hi. apply in_seq in Hi. f_equal.
  rewrite (Rsum_map_ext _ (fun j => if Nat.eqb i j then d i else 0%R)).
  - apply Rsum_indicator_in. lia.
  - intros j _. destruct (Nat.eqb_spec i j) as [<- | Hij]; [reflexivity |].
    rewrite mass_diag by assumption. lra.
Qed.

Lemma identity_px_nth (i : nat) :
  i < n -> nth i (row_sums F.zero F.add pxy) F.zero = F.Fin (d i).
Proof.
  intros Hi. rewrite identity_px.
  rewrite (nth_indep _ F.zero (F.Fin (d 0))) by now rewrite length_map, length_seq.
  rewrite (map_nth (fun i => F.Fin (d i)) (seq 0 n) 0 i).
  now rewrite seq_nth.
Qed.

(** After the division of the rows and [xlogx], every entry is zero. *)
Lemma identity_rows_vanish (k l : nat) :
  let px := row_sums F.zero F.add pxy in
  let py := col_sums F.zero F.add pxy in
  let nzx := nonzero_idx px in
  let nzy := nonzero_idx py in
  get F.zero
      (map_data (fun _ _ v => xlogx_elem F.log2 v)
         (map_data (fun i _ v =>
                      if F.nonzero v
                      then F.div v (nth i (take F.zero px nzx) F.NaN) else v)
                   (select pxy nzx nzy))) k l
  = F.Fin 0.
Proof.
  intros px py nzx nzy. unfold get, map_data, select. cbn [entry].
  destruct (Nat.ltb k (length nzx)) eqn:Hk; [| reflexivity].
  destruct (Nat.ltb l (length nzy)) eqn:Hl; [| reflexivity].
  cbn [andb]. apply Nat.ltb_lt in Hk.
  set (i := nth k nzx 0). set (j := nth l nzy 0).
  pose proof (pxy_get i j) as Hv. unfold get in Hv.
  destruct (entry pxy i j) as [v |]; [| reflexivity].
  cbn [value option_map] in *. subst v.
  destruct (nonzero_idx_spec px i (nth_In nzx 0 Hk)) as [Hi Hnz].
  unfold px in Hi. rewrite identity_px, length_map, length_seq in Hi.
  destruct (Nat.eq_dec i j) as [<- | Hij].
  - fold (d i).
    unfold px in Hnz. rewrite (identity_px_nth Hi) in Hnz.
    assert (d i <> 0%R) as Hd.
    { intros E. rewrite E, nonzero_zero in Hnz. discriminate. }
    rewrite Hnz.
    assert (nth k (take F.zero px nzx) F.NaN = F.Fin (d i)) as ->.
    { unfold take.
      rewrite (nth_indep _ F.NaN (nth 0 px F.zero)) by now rewrite length_map.
      rewrite (map_nth (fun i => nth i px F.zero) nzx 0 k).
      fold i. unfold px. now apply identity_px_nth. }
    rewrite div_Fin by assumption.
    replace (d i / d i)%R with 1%R by (field; assumption).
    unfold xlogx_elem. rewrite nonzero_Fin by lra. rewrite log2_one.
    cbn [F.mul]. f_equal. lra.
  - rewrite mass_diag by assumption.
    replace (0 * (1 / Rsum (map w (combine x x))))%R with 0%R by lra.
    rewrite nonzero_zero. unfold xlogx_elem. now rewrite nonzero_zero.
Qed.

(** The merge error [H(Y|X)] of the table vanishes. *)
Lemma identity_merge : F.sum (vi_hygx (vi_of_table pxy)) = F.Fin 0.
Proof.
  unfold vi_of_table. cbn [vi_hygx].
  unfold divide_rows, xlogx, xlogx_with, sum_axis1.
  set (px := row_sums F.zero F.add pxy).
  set (nzx := nonzero_idx px).
  set (M := map_data _ (map_data _ (select pxy nzx _))).
  assert (Forall (fun v => v = F.Fin 0) (row_sums F.zero F.add M)) as Hvals.
  { rewrite (@row_sums_Fin M (fun _ _ => 0%R) identity_rows_vanish).
    apply Forall_map, Forall_forall. intros k _. f_equal.
    apply Rsum_map_zero. reflexivity. }
  assert (put (repeat F.zero (length px)) nzx (row_sums F.zero F.add M)
          = repeat (F.Fin 0) (length (seq 0 n))) as ->.
  { assert (Forall (fun v => v = F.Fin 0) (repeat F.zero (length px))) as Hbase.
    { apply Forall_forall. intros v Hv. now apply repeat_spec in Hv. }
    rewrite (Forall_eq_repeat (put_Forall nzx Hbase Hvals)).
    f_equal. rewrite put_length, repeat_length. unfold px.
    now rewrite identity_px, length_map. }
  unfold px. rewrite identity_px, neg_mul_repeat.
  change F.sum with (asum F.zero F.add).
  rewrite (asum_Fin _ (fun i => (- (d i * 0))%R)) by reflexivity.
  f_equal. apply Rsum_map_zero. intros i _. lra.
Qed.

End Identity.

Lemma Exists_combine_diag (A : Type) (P : A -> Prop) (l : list A) :
  Exists P l -> Exists (fun v => P (fst v)) (combine l l).
Proof.
  induction 1; simpl; [now apply Exists_cons_hd | now apply Exists_cons_tl].
Qed.

(** A volume compared with itself, some voxel being counted: both errors
    are zero. *)
Lemma voi_self (x ignore_x ignore_y : list nat) :
  Exists (fun l => ignored_voxel ignore_x ignore_y l l = false) x ->
  voi x x ignore_x ignore_y = Ok (F.Fin 0, F.Fin 0).
Proof.
  intros Hex.
  assert (Exists (fun v => ignored_voxel ignore_x ignore_y (fst v) (snd v) = false)
                 (combine x x)) as Hex'.
  { apply Exists_combine_diag in Hex.
    apply Exists_exists in Hex. destruct Hex as [v [Hin Hv]].
    apply Exists_exists. exists v. split; [exact Hin |].
    now rewrite <- (in_combine_diag _ _ Hin). }
  destruct (@contingency_table_normalised x x ignore_x ignore_y eq_refl Hex')
    as [pxy [Hok [Hr [Hc [_ Hget]]]]].
  pose proof (@identity_merge x ignore_x ignore_y pxy Hr Hc Hget) as Hmerge.
  remember (F.sum (vi_hxgy (vi_of_table pxy))) as split eqn:Es.
  remember (F.sum (vi_hygx (vi_of_table pxy))) as merge eqn:Em.
  assert (voi x x ignore_x ignore_y = Ok (split, merge)) as Hvoi.
  { unfold voi, split_vi, vi_tables. rewrite Hok. subst. reflexivity. }
  assert (voi x x ignore_x ignore_y
          = rmap swap_pair (voi x x ignore_x ignore_y)) as Hsym.
  { apply voi_swap. apply Forall_forall. intros v Hv.
    now rewrite (in_combine_diag _ _ Hv). }
  rewrite Hvoi in Hsym. cbn [rmap bind swap_pair fst snd] in Hsym.
  injection Hsym as Hsplit _.
  rewrite Hvoi, Hsplit, Hmerge. reflexivity.
Qed.

(** C8: for a label volume [x] in which some voxel is not ignored, that
    is, has a label other than 0, [voi x x] returns exactly [(0, 0)]. *)
Theorem voi_identity (x : list nat) :
  Exists (fun l => l <> 0) x ->
  voi_default x x = Ok (F.Fin 0, F.Fin 0).
Proof.
  intros Hex. unfold voi_default. apply voi_self.
  eapply Exists_impl; [| exact Hex].
  intros l Hl. unfold ignored_voxel. simpl.
  destruct (Nat.eqb_spec l 0); [contradiction | reflexivity].
Qed.

Lemma voi_identity_witness :
  voi_default [3; 0; 1; 3] [3; 0; 1; 3] = Ok (F.Fin 0, F.Fin 0).
Proof.
  apply (@voi_identity [3; 0; 1; 3]).
  apply Exists_cons_hd. discriminate.
Defined.

(** ** Further evaluations of the embedding *)

(** Evaluation of the integer arguments of the conversions to float. *)
Ltac int_eval :=
  repeat match goal with
    | |- context [F.of_int ?z] =>
        let v := eval vm_compute in z in
        progress (change z with v)
    end.

(** The sign of a constant. *)
Ltac sign_eval :=
  repeat match goal with
    | |- context [F.Rsign ?r] =>
        first [ rewrite (@Rsign_pos r) by lra
              | rewrite (@Rsign_neg r) by lra
              | replace r with 0%R by lra; rewrite Rsign_zero ]
    end.

(** The Adapted Rand statistics of a small pair of volumes: [sumA = 8],
    [sumB = sumAB = 5 + 1/4]. *)
Example adapted_rand_example :
  adapted_rand [1; 1; 0; 2] [1; 1; 2; 2] true
  = Ok (AreStats (F.Fin (11 / 53)) (F.Fin 1) (F.Fin (21 / 32))).
Proof.
  unfold adapted_rand, rand_table.
  cbn [amax rmap bind list_max fold_right Nat.max length repeat].
  unfold coo_matrix. cbn [length Nat.eqb andb bind].
  unfold rand_sums_of, rand_scores. cbv zeta.
  cbn [rs_sumA rs_sumB rs_sumAB].
  int_eval. unfold F.of_int, F.sub.
  float_eval.
  apply f_equal. apply f_equal3; fin_eq.
Qed.

(** A square that does not fit 64 bits wraps around, which is why the sums
    of squares of [adapted_rand] are compared with the formulas for
    [N * N < 2^63] only. *)
Example mul64_wraps : mul64 (2 ^ 32) (2 ^ 32) = 0%Z.
Proof. reflexivity. Qed.

(** One threshold, one element in each of the four categories. *)
Example get_binary_jaccard_example :
  get_binary_jaccard [F.Fin (9 / 10); F.Fin (2 / 10); F.Fin (8 / 10); F.Fin (1 / 10)]
                     [1; 0; 0; 1]%Z [F.Fin (1 / 2)]
  = Ok [[F.Fin (1 / 3); F.Fin (1 / 3); F.Fin (1 / 2); F.Fin (1 / 2)]].
Proof.
  cbn [get_binary_jaccard]. unfold valid_threshold, confusion_matrix.
  cbn [length Nat.eqb combine map fst snd Z.eqb Pos.eqb andb].
  unfold F.gtb, F.ltb, F.leb. sign_eval.
  cbn [andb bind count_true filter length map].
  unfold jaccard_row. int_eval. unfold F.of_int.
  float_eval. fin_eq.
Qed.

(** * Further properties of the code *)

(** ** Binary segmentation: when scores are returned *)

Lemma get_binary_jaccard_all_valid
  (pred : list float64) (gt : list Z) (thres : list float64) :
  length pred = length gt ->
  Forall in_open_unit thres ->
  exists score,
    get_binary_jaccard pred gt thres = Ok score /\
    length score = length thres /\
    Forall (fun row => length row = 4) score.
Proof.
  intros Hlen Hall.
  induction Hall as [| t thres Ht _ IH].
  - exists []. repeat split; constructor.
  - destruct IH as [score [Hs [Hl Hr]]].
    destruct (confusion_matrix_shape pred gt t Hlen) as [[[[TP FP] TN] FN] Hc].
    exists (jaccard_row TP FP TN FN :: score).
    cbn [get_binary_jaccard].
    apply valid_threshold_spec in Ht. rewrite Ht, Hc. cbn [bind].
    rewrite Hs. cbn [bind length]. repeat split.
    + now rewrite Hl.
    + constructor; [reflexivity | exact Hr].
Qed.

Lemma get_binary_jaccard_ok_valid
  (pred : list float64) (gt : list Z) (thres : list float64)
  (score : list (list float64)) :
  get_binary_jaccard pred gt thres = Ok score ->
  Forall in_open_unit thres.
Proof.
  revert score. induction thres as [| t thres IH]; intros score H.
  - constructor.
  - cbn [get_binary_jaccard] in H.
    destruct (valid_threshold t) eqn:Ht; [| discriminate].
    apply valid_threshold_spec in Ht.
    destruct (confusion_matrix pred gt t) as [[[[TP FP] TN] FN] |];
      [| discriminate].
    cbn [bind] in H.
    destruct (get_binary_jaccard pred gt thres) as [rest |] eqn:Hr;
      [| discriminate].
    constructor; [exact Ht | now apply (IH rest)].
Qed.

(** For arrays of one shape [get_binary_jaccard] returns a score array
    exactly when every threshold lies in the open interval (0, 1); the
    array then has one row of four scores per threshold. *)
Theorem get_binary_jaccard_returns
  (pred : list float64) (gt : list Z) (thres : list float64) :
  length pred = length gt ->
  ((exists score, get_binary_jaccard pred gt thres = Ok score)
   <-> Forall in_open_unit thres) /\
  (forall score,
      get_binary_jaccard pred gt thres = Ok score ->
      length score = length thres /\
      Forall (fun row => length row = 4) score).
Proof.
  intros Hlen. split.
  - split.
    + intros [score H]. now apply (get_binary_jaccard_ok_valid _ _ _ H).
    + intros Hall.
      destruct (get_binary_jaccard_all_valid pred gt Hlen Hall) as [s [H _]].
      now exists s.
  - intros score H.
    pose proof (get_binary_jaccard_ok_valid _ _ _ H) as Hall.
    destruct (get_binary_jaccard_all_valid pred gt Hlen Hall) as [s [H' Hs]].
    rewrite H in H'. injection H' as <-. exact Hs.
Qed.

Lemma get_binary_jaccard_returns_witness :
  exists score,
    get_binary_jaccard [F.Fin 1; F.Fin 0] [1%Z; 0%Z] [F.Fin (/ 2); F.Fin (/ 4)]
    = Ok score /\
    length score = 2 /\ Forall (fun row => length row = 4) score.
Proof.
  destruct (@get_binary_jaccard_returns
              [F.Fin 1; F.Fin 0] [1%Z; 0%Z] [F.Fin (/ 2); F.Fin (/ 4)])
    as [[_ Hret] Hshape]; [reflexivity |].
  destruct Hret as [score Hs].
  - repeat (apply Forall_cons; [unfold in_open_unit; cbn; lra |]).
    apply Forall_nil.
  - exists score. split; [exact Hs | now apply Hshape].
Defined.

(** ** Binary segmentation: the threshold *)

Lemma count_true_le (A : Type) (f g : A -> bool) (l : list A) :
  (forall x, In x l -> f x = true -> g x = true) ->
  (count_true (map f l) <= count_true (map g l))%Z.
Proof.
  induction l as [| a l IH]; intros H; [reflexivity |].
  cbn [map]. rewrite !count_true_cons.
  assert (count_true (map f l) <= count_true (map g l))%Z
    by (apply IH; intros x Hx; apply H; now right).
  pose proof (H a (or_introl eq_refl)) as Ha.
  destruct (f a), (g a); try lia.
Qed.

Lemma gtb_threshold_mono (x : float64) (a b : R) :
  (a <= b)%R -> F.gtb x (F.Fin b) = true -> F.gtb x (F.Fin a) = true.
Proof.
  intros Hab. unfold F.gtb.
  destruct x as [r | | |]; try (intros H; exact H).
  rewrite !ltb_Fin. lra.
Qed.

Lemma leb_threshold_mono (x : float64) (a b : R) :
  (a <= b)%R -> F.leb x (F.Fin a) = true -> F.leb x (F.Fin b) = true.
Proof.
  intros Hab.
  destruct x as [r | | |]; try (intros H; exact H).
  rewrite !leb_Fin. lra.
Qed.

(** Raising the threshold can only move elements from the predicted
    foreground to the predicted background: [TP] and [FP] do not grow,
    [TN] and [FN] do not shrink. *)
Theorem confusion_matrix_threshold_monotone
  (pred : list float64) (gt : list Z) (a b : R)
  (TP FP TN FN TP' FP' TN' FN' : Z) :
  (a <= b)%R ->
  confusion_matrix pred gt (F.Fin a) = Ok (TP, FP, TN, FN) ->
  confusion_matrix pred gt (F.Fin b) = Ok (TP', FP', TN', FN') ->
  (TP' <= TP /\ FP' <= FP /\ TN <= TN' /\ FN <= FN')%Z.
Proof.
  intros Hab. unfold confusion_matrix.
  destruct (Nat.eqb (length pred) (length gt)); [| discriminate].
  intros H H'. injection H as <- <- <- <-. injection H' as <- <- <- <-.
  repeat split; apply count_true_le; intros [g p] _; cbn [fst snd];
    rewrite !andb_true_iff; intros [Hg Hp]; (split; [exact Hg |]).
  - now apply (gtb_threshold_mono p Hab).
  - now apply (gtb_threshold_mono p Hab).
  - now apply (leb_threshold_mono p Hab).
  - now apply (leb_threshold_mono p Hab).
Qed.

Lemma confusion_matrix_threshold_monotone_witness :
  confusion_matrix [F.Fin (3 / 4); F.Fin (1 / 2)] [1%Z; 1%Z] (F.Fin (1 / 4))
  = Ok (2, 0, 0, 0)%Z /\
  confusion_matrix [F.Fin (3 / 4); F.Fin (1 / 2)] [1%Z; 1%Z] (F.Fin (5 / 8))
  = Ok (1, 0, 0, 1)%Z /\
  (1 <= 2 /\ 0 <= 0 /\ 0 <= 0 /\ 0 <= 1)%Z.
Proof.
  assert (confusion_matrix [F.Fin (3 / 4); F.Fin (1 / 2)] [1%Z; 1%Z]
                           (F.Fin (1 / 4)) = Ok (2, 0, 0, 0)%Z) as H1.
  { unfold confusion_matrix.
    cbn [length Nat.eqb combine map fst snd Z.eqb Pos.eqb andb].
    unfold F.gtb, F.ltb, F.leb. sign_eval. reflexivity. }
  assert (confusion_matrix [F.Fin (3 / 4); F.Fin (1 / 2)] [1%Z; 1%Z]
                           (F.Fin (5 / 8)) = Ok (1, 0, 0, 1)%Z) as H2.
  { unfold confusion_matrix.
    cbn [length Nat.eqb combine map fst snd Z.eqb Pos.eqb andb].
    unfold F.gtb, F.ltb, F.leb. sign_eval. reflexivity. }
  split; [exact H1 |]. split; [exact H2 |].
  apply (@confusion_matrix_threshold_monotone
           [F.Fin (3 / 4); F.Fin (1 / 2)] [1%Z; 1%Z] (1 / 4) (5 / 8)
           2 0 0 0 1 0 0 1).
  - lra.
  - exact H1.
  - exact H2.
Defined.

Lemma binarized_gtb (p t : float64) :
  binarized p -> in_open_unit t ->
  F.gtb p t = match p with F.Fin r => if Req_dec_T r 1 then true else false | _ => false end
  /\ F.leb p t = negb (F.gtb p t).
Proof.
  intros Hp Ht. destruct t as [a | | |]; try contradiction.
  simpl in Ht. unfold F.gtb.
  destruct Hp as [-> | ->].
  - destruct (Req_dec_T 0 1) as [E | _]; [lra |].
    assert (F.ltb (F.Fin a) (F.Fin 0) = false) as ->.
    { destruct (F.ltb (F.Fin a) (F.Fin 0)) eqn:E; [| reflexivity].
      apply ltb_Fin in E. lra. }
    split; [reflexivity |]. apply leb_Fin. lra.
  - destruct (Req_dec_T 1 1) as [_ | E]; [| contradiction].
    assert (F.ltb (F.Fin a) (F.Fin 1) = true) as -> by (apply ltb_Fin; lra).
    split; [reflexivity |].
    destruct (F.leb (F.Fin 1) (F.Fin a)) eqn:E; [| reflexivity].
    apply leb_Fin in E. lra.
Qed.

Lemma confusion_matrix_binarized
  (pred : list float64) (gt : list Z) (t t' : float64) :
  Forall binarized pred ->
  in_open_unit t -> in_open_unit t' ->
  confusion_matrix pred gt t = confusion_matrix pred gt t'.
Proof.
  intros Hb Ht Ht'. unfold confusion_matrix.
  destruct (Nat.eqb (length pred) (length gt)); [| reflexivity].
  assert (forall g p, In (g, p) (combine gt pred) ->
                      F.gtb p t = F.gtb p t' /\ F.leb p t = F.leb p t') as Hc.
  { intros g p Hin. apply in_combine_r in Hin.
    rewrite Forall_forall in Hb. specialize (Hb p Hin).
    destruct (@binarized_gtb p t Hb Ht) as [H1 H2].
    destruct (@binarized_gtb p t' Hb Ht') as [H1' H2'].
    split; congruence. }
  f_equal. repeat (apply f_equal2); f_equal; apply map_ext_in;
    intros [g p] Hin; cbn [fst snd]; destruct (Hc g p Hin) as [H1 H2];
    now rewrite ?H1, ?H2.
Qed.

(** If the prediction is already binarized, different thresholds give the
    same result: every row of the score array is the same. *)
Theorem get_binary_jaccard_binarized
  (pred : list float64) (gt : list Z) (thres : list float64) :
  length pred = length gt ->
  Forall binarized pred ->
  Forall in_open_unit thres ->
  exists row,
    get_binary_jaccard pred gt thres = Ok (repeat row (length thres)).
Proof.
  intros Hlen Hb Hall.
  destruct thres as [| t0 thres]; [exists []; reflexivity |].
  destruct (confusion_matrix_shape pred gt t0 Hlen) as [[[[TP FP] TN] FN] Hc].
  exists (jaccard_row TP FP TN FN).
  assert (forall l, Forall in_open_unit l ->
                    get_binary_jaccard pred gt l
                    = Ok (repeat (jaccard_row TP FP TN FN) (length l))) as Hgen.
  { intros l Hl. induction Hl as [| t l Ht _ IH]; [reflexivity |].
    cbn [get_binary_jaccard length repeat].
    pose proof Ht as Hv. apply valid_threshold_spec in Hv. rewrite Hv.
    inversion Hall as [| ? ? Ht0 _]; subst.
    rewrite (@confusion_matrix_binarized pred gt t t0 Hb Ht Ht0), Hc.
    cbn [bind].
    rewrite IH. reflexivity. }
  now apply Hgen.
Qed.

Lemma get_binary_jaccard_binarized_witness :
  exists row,
    get_binary_jaccard [F.Fin 1; F.Fin 0; F.Fin 1] [1%Z; 0%Z; 0%Z]
                       [F.Fin (/ 4); F.Fin (/ 2)]
    = Ok (repeat row 2).
Proof.
  apply (@get_binary_jaccard_binarized
           [F.Fin 1; F.Fin 0; F.Fin 1] [1%Z; 0%Z; 0%Z]
           [F.Fin (/ 4); F.Fin (/ 2)]).
  - reflexivity.
  - repeat (apply Forall_cons;
            [first [left; reflexivity | right; reflexivity] |]).
    apply Forall_nil.
  - repeat constructor; simpl; lra.
Defined.

(** ** Binary segmentation: the scores *)

Lemma count_true_none (A : Type) (f : A -> bool) (l : list A) :
  (forall x, In x l -> f x = false) -> count_true (map f l) = 0%Z.
Proof.
  induction l as [| a l IH]; intros H; [reflexivity |].
  cbn [map]. rewrite count_true_cons, (H a (or_introl eq_refl)), IH;
    [reflexivity | intros x Hx; apply H; now right].
Qed.

(** An empty foreground: when the ground truth has no element 1 and no
    prediction exceeds the threshold, the four scores are the [nan] of
    [0/0]; nothing is raised. *)
Theorem get_binary_jaccard_empty_foreground
  (pred : list float64) (gt : list Z) (t : float64) :
  length pred = length gt ->
  in_open_unit t ->
  Forall (fun g => g <> 1%Z) gt ->
  Forall (fun p => F.gtb p t = false) pred ->
  get_binary_jaccard pred gt [t] = Ok [[F.NaN; F.NaN; F.NaN; F.NaN]].
Proof.
  intros Hlen Ht Hgt Hpred.
  cbn [get_binary_jaccard]. apply valid_threshold_spec in Ht. rewrite Ht.
  unfold confusion_matrix. rewrite Hlen, Nat.eqb_refl. cbn [bind].
  rewrite Forall_forall in Hgt, Hpred.
  rewrite (count_true_none (fun c => Z.eqb (fst c) 1 && F.gtb (snd c) t)),
    (count_true_none (fun c => Z.eqb (fst c) 0 && F.gtb (snd c) t)),
    (count_true_none (fun c => Z.eqb (fst c) 1 && F.leb (snd c) t)).
  - unfold jaccard_row.
    assert (F.div (F.of_int 0) (F.of_int (add64 0 0)) = F.NaN) as Hnan
        by apply div_zero_zero.
    assert (F.div (F.of_int 0) (F.of_int (add64 (add64 0 0) 0)) = F.NaN)
      as Hnan' by apply div_zero_zero.
    rewrite Hnan, Hnan'. reflexivity.
  - intros [g p] Hin. cbn [fst snd]. apply in_combine_l in Hin.
    destruct (Z.eqb_spec g 1) as [E | E]; [| reflexivity].
    now destruct (Hgt g Hin).
  - intros [g p] Hin. cbn [fst snd]. apply in_combine_r in Hin.
    rewrite (Hpred p Hin). apply andb_false_r.
  - intros [g p] Hin. cbn [fst snd]. apply in_combine_r in Hin.
    rewrite (Hpred p Hin). apply andb_false_r.
Qed.

Lemma get_binary_jaccard_empty_foreground_witness :
  get_binary_jaccard [F.Fin (/ 4); F.Fin 0] [0%Z; 0%Z] [F.Fin (/ 2)]
  = Ok [[F.NaN; F.NaN; F.NaN; F.NaN]].
Proof.
  apply (@get_binary_jaccard_empty_foreground
           [F.Fin (/ 4); F.Fin 0] [0%Z; 0%Z] (F.Fin (/ 2))).
  - reflexivity.
  - simpl. lra.
  - repeat constructor; discriminate.
  - repeat constructor; unfold F.gtb, F.ltb; sign_eval; reflexivity.
Defined.

(** With a true positive, the foreground IoU, the precision and the
    recall are finite numbers in (0, 1], and the foreground IoU exceeds
    neither the precision nor the recall. *)
Theorem jaccard_row_bounds (TP FP TN FN : Z) :
  (0 < TP)%Z -> (0 <= FP)%Z -> (0 <= FN)%Z ->
  (TP + FP + FN < 2 ^ 63)%Z ->
  exists iou_fg precision recall : R,
    nth 0 (jaccard_row TP FP TN FN) F.NaN = F.Fin iou_fg /\
    nth 2 (jaccard_row TP FP TN FN) F.NaN = F.Fin precision /\
    nth 3 (jaccard_row TP FP TN FN) F.NaN = F.Fin recall /\
    (0 < iou_fg /\ iou_fg <= precision <= 1 /\ iou_fg <= recall <= 1)%R.
Proof.
  intros HTP HFP HFN Hfit.
  unfold jaccard_row. cbn [nth]. unfold add64.
  rewrite (@wrap64_small (TP + FP)%Z), (@wrap64_small (TP + FN)%Z),
    (@wrap64_small (TP + FP + FN)%Z) by lia.
  unfold F.of_int.
  assert (0 < IZR TP)%R as H1 by (apply IZR_lt; lia).
  assert (0 <= IZR FP)%R as H2 by (apply IZR_le; lia).
  assert (0 <= IZR FN)%R as H3 by (apply IZR_le; lia).
  rewrite !plus_IZR.
  rewrite !div_Fin by lra.
  do 3 eexists. repeat (split; [reflexivity |]).
  set (a := IZR TP) in *. set (b := IZR FP) in *. set (c := IZR FN) in *.
  assert (0 < a + b)%R by lra. assert (0 < a + c)%R by lra.
  assert (0 < a + b + c)%R by lra.
  repeat split.
  - apply Rdiv_lt_0_compat; lra.
  - apply (Rmult_le_reg_r ((a + b + c) * (a + b))); [nra |].
    field_simplify; [| lra | lra]. nra.
  - apply (Rmult_le_reg_r (a + b)); [lra |]. field_simplify; lra.
  - apply (Rmult_le_reg_r ((a + b + c) * (a + c))); [nra |].
    field_simplify; [| lra | lra]. nra.
  - apply (Rmult_le_reg_r (a + c)); [lra |]. field_simplify; lra.
Qed.

Lemma jaccard_row_bounds_witness :
  exists iou_fg precision recall : R,
    nth 0 (jaccard_row 2 1 5 1) F.NaN = F.Fin iou_fg /\
    nth 2 (jaccard_row 2 1 5 1) F.NaN = F.Fin precision /\
    nth 3 (jaccard_row 2 1 5 1) F.NaN = F.Fin recall /\
    (0 < iou_fg /\ iou_fg <= precision <= 1 /\ iou_fg <= recall <= 1)%R.
Proof.
  apply (@jaccard_row_bounds 2 1 5 1); reflexivity || discriminate.
Defined.

Lemma class_counts (v : Z) (cells : list (Z * float64)) (t : float64) :
  t <> F.NaN ->
  Forall (fun c => snd c <> F.NaN) cells ->
  (count_true (map (fun c => Z.eqb (fst c) v && F.gtb (snd c) t) cells)
   + count_true (map (fun c => Z.eqb (fst c) v && F.leb (snd c) t) cells)
   = count_true (map (fun c => Z.eqb (fst c) v) cells))%Z.
Proof.
  intros Ht Hall.
  induction Hall as [| [g p] cells Hp _ IH]; [reflexivity |].
  cbn [map]. rewrite !count_true_cons. cbn [fst snd] in *.
  rewrite (gtb_leb Hp Ht).
  destruct (Z.eqb g v), (F.leb p t); cbn [andb negb]; lia.
Qed.

Lemma map_fst_combine (A B : Type) (f : A -> bool) (l : list A) (l' : list B) :
  length l = length l' ->
  map (fun c => f (fst c)) (combine l l') = map f l.
Proof.
  revert l'. induction l as [| a l IH]; intros [| b l'] H;
    try discriminate; [reflexivity |].
  cbn [combine map fst]. f_equal. apply IH. now injection H.
Qed.

(** Without [nan], the threshold only splits each class of the ground
    truth: [TP + FN] is the number of elements 1 and [FP + TN] the number
    of elements 0, whatever the threshold. *)
Theorem confusion_matrix_class_totals
  (pred : list float64) (gt : list Z) (thres : float64) :
  length pred = length gt ->
  Forall (fun p => p <> F.NaN) pred ->
  thres <> F.NaN ->
  exists TP FP TN FN,
    confusion_matrix pred gt thres = Ok (TP, FP, TN, FN) /\
    (TP + FN = count_true (map (fun g => Z.eqb g 1) gt))%Z /\
    (FP + TN = count_true (map (fun g => Z.eqb g 0) gt))%Z.
Proof.
  intros Hlen Hpred Ht.
  unfold confusion_matrix. rewrite Hlen, Nat.eqb_refl.
  do 4 eexists. split; [reflexivity |].
  assert (Forall (fun c : Z * float64 => snd c <> F.NaN) (combine gt pred))
    as Hcells.
  { apply Forall_forall. intros [g p] Hin. apply in_combine_r in Hin.
    rewrite Forall_forall in Hpred. now apply Hpred. }
  rewrite !class_counts by assumption.
  rewrite !(map_fst_combine (fun g => Z.eqb g _) gt pred) by congruence.
  split; reflexivity.
Qed.

Lemma confusion_matrix_class_totals_witness :
  exists TP FP TN FN,
    confusion_matrix [F.Fin 1; F.Fin 0; F.Fin 1] [1%Z; 1%Z; 0%Z] (F.Fin (/ 2))
    = Ok (TP, FP, TN, FN) /\
    (TP + FN = 2)%Z /\ (FP + TN = 1)%Z.
Proof.
  apply (@confusion_matrix_class_totals
           [F.Fin 1; F.Fin 0; F.Fin 1] [1%Z; 1%Z; 0%Z] (F.Fin (/ 2))).
  - reflexivity.
  - repeat constructor; discriminate.
  - discriminate.
Defined.

(** ** Colouring of the confusion matrix *)

Lemma repeat_as_map (A B : Type) (z : B) (l : list A) :
  repeat z (length l) = map (fun _ => z) l.
Proof.
  induction l; simpl; congruence.
Qed.

Lemma set_where_map (A : Type) (f : A -> bool) (g : A -> float64)
  (v : float64) (l : list A) :
  set_where (map f l) v (map g l) = map (fun c => if f c then v else g c) l.
Proof.
  unfold set_where. induction l as [| a l IH]; simpl; [reflexivity |].
  now rewrite IH.
Qed.

Lemma add_arrays_map (A : Type) (f g : A -> float64) (l : list A) :
  add_arrays (map f l) (map g l) = map (fun c => F.add (f c) (g c)) l.
Proof.
  unfold add_arrays. induction l as [| a l IH]; simpl; [reflexivity |].
  now rewrite IH.
Qed.

Lemma channels_last_map (A : Type) (r g b : A -> float64) (l : list A) :
  channels_last (length l) (RgbImage (map r l) (map g l) (map b l))
  = map (fun c => [r c; g c; b c]) l.
Proof.
  unfold channels_last. cbn [channel0 channel1 channel2].
  destruct l as [| a0 l0] eqn:E; [reflexivity |]. rewrite <- E.
  apply (nth_ext _ _ [] ((fun c => [r c; g c; b c]) a0)).
  - now rewrite !length_map, length_seq.
  - intros k Hk. rewrite length_map, length_seq in Hk.
    rewrite (nth_indep _ [] ((fun k => [nth k (map r l) F.zero;
                                        nth k (map g l) F.zero;
                                        nth k (map b l) F.zero]) 0))
      by now rewrite length_map, length_seq.
    rewrite (map_nth (fun k => [nth k (map r l) F.zero;
                                nth k (map g l) F.zero;
                                nth k (map b l) F.zero]) (seq 0 (length l)) 0 k).
    rewrite seq_nth by assumption. cbn [Nat.add].
    rewrite (map_nth (fun c => [r c; g c; b c]) l a0 k).
    rewrite (nth_indep (map r l) F.zero (r a0)) by now rewrite length_map.
    rewrite (nth_indep (map g l) F.zero (g a0)) by now rewrite length_map.
    rewrite (nth_indep (map b l) F.zero (b a0)) by now rewrite length_map.
    now rewrite !map_nth.
Qed.

(** No element is both above and at most the threshold. *)
Lemma gtb_leb_exclusive (x t : float64) :
  F.gtb x t = true -> F.leb x t = true -> False.
Proof.
  unfold F.gtb.
  destruct x as [a | | |], t as [b | | |]; try discriminate.
  rewrite ltb_Fin, leb_Fin. lra.
Qed.

(** Every voxel gets the colour of its category: green for a true
    positive, blue for a false positive, red for a false negative and
    black otherwise; the categories exclude each other, so the sum of the
    four images never mixes colours, and the assignment to the
    false-positive image at the false negatives changes nothing. *)
Theorem confusion_matrix_visualize_colours
  (pred : list float64) (gt : list Z) (thres : float64) :
  length pred = length gt ->
  confusion_matrix_visualize pred gt thres
  = Ok (map (category_colour thres) (combine gt pred)).
Proof.
  intros Hlen. unfold confusion_matrix_visualize.
  rewrite Hlen, Nat.eqb_refl. f_equal.
  set (cells := combine gt pred).
  rewrite length_map. unfold zeros_image, assign_from, add_images.
  cbn [Nat.leb channel0 channel1 channel2].
  rewrite !repeat_as_map, !set_where_map, !add_arrays_map, channels_last_map.
  apply map_ext. intros [g p]. unfold category_colour. cbn [fst snd].
  destruct (Z.eqb_spec g 1) as [E1 | E1], (Z.eqb_spec g 0) as [E0 | E0];
    try (exfalso; lia);
    destruct (F.gtb p thres) eqn:Hgt, (F.leb p thres) eqn:Hle;
    try (exfalso; exact (gtb_leb_exclusive p thres Hgt Hle));
    cbn [andb F.add F.zero]; fin_eq.
Qed.

Lemma confusion_matrix_visualize_colours_witness :
  confusion_matrix_visualize [F.Fin 1; F.Fin 1; F.Fin 0; F.Fin 0]
                             [1%Z; 0%Z; 1%Z; 0%Z] (F.Fin (/ 2))
  = Ok (map (category_colour (F.Fin (/ 2)))
            (combine [1%Z; 0%Z; 1%Z; 0%Z]
                     [F.Fin 1; F.Fin 1; F.Fin 0; F.Fin 0])).
Proof.
  apply (@confusion_matrix_visualize_colours
           [F.Fin 1; F.Fin 1; F.Fin 0; F.Fin 0] [1%Z; 0%Z; 1%Z; 0%Z]
           (F.Fin (/ 2))).
  reflexivity.
Defined.

(** ** The contingency table: when it is returned, and what it holds *)

Lemma counted_dec (ignore_seg ignore_gt : list nat) (ps : list (nat * nat)) :
  {Exists (fun v => ignored_voxel ignore_seg ignore_gt (fst v) (snd v) = false) ps}
  + {Forall (fun v => ignored_voxel ignore_seg ignore_gt (fst v) (snd v) = true) ps}.
Proof.
  induction ps as [| v ps IH].
  - right. constructor.
  - destruct (ignored_voxel ignore_seg ignore_gt (fst v) (snd v)) eqn:E.
    + destruct IH as [IH | IH].
      * left. now apply Exists_cons_tl.
      * right. now constructor.
    + left. now apply Exists_cons_hd.
Qed.

(** [contingency_table] with [norm=True] returns a table exactly when the
    two volumes have one length and at least one voxel is not ignored;
    otherwise it raises. *)
Theorem contingency_table_returns (seg gt ignore_seg ignore_gt : list nat) :
  (exists pxy, contingency_table seg gt ignore_seg ignore_gt true = Ok pxy)
  <->
  length seg = length gt /\
  Exists (fun v => ignored_voxel ignore_seg ignore_gt (fst v) (snd v) = false)
         (combine seg gt).
Proof.
  split.
  - intros [pxy H].
    destruct (Nat.eq_dec (length seg) (length gt)) as [Hlen | Hlen].
    + split; [exact Hlen |].
      destruct (counted_dec ignore_seg ignore_gt (combine seg gt))
        as [Hex | Hall]; [exact Hex | exfalso].
      destruct (list_eq_dec Nat.eq_dec seg []) as [E | E].
      * rewrite (@contingency_table_empty seg gt ignore_seg ignore_gt Hlen true E)
          in H. discriminate.
      * rewrite (@contingency_table_all_ignored seg gt ignore_seg ignore_gt
                   Hlen E Hall) in H. discriminate.
    + exfalso. unfold contingency_table in H.
      apply Nat.eqb_neq in Hlen. rewrite Hlen in H. discriminate.
  - intros [Hlen Hex].
    destruct (@contingency_table_normalised seg gt ignore_seg ignore_gt
                Hlen Hex) as [pxy [H _]].
    now exists pxy.
Qed.

Lemma mass_counts (ignore_seg ignore_gt : list nat) (ps : list (nat * nat))
  (i j : nat) :
  mass (fun v => weight_R (ignored_voxel ignore_seg ignore_gt (fst v) (snd v)))
       ps i j
  = IZR (pair_count
           (filter (fun v => negb (ignored_voxel ignore_seg ignore_gt
                                     (fst v) (snd v))) ps) i j).
Proof.
  induction ps as [| [s g] ps IH]; [reflexivity |].
  rewrite mass_cons, IH. cbn [filter fst snd].
  destruct (ignored_voxel ignore_seg ignore_gt s g); cbn [negb weight_R].
  - destruct (Nat.eqb s i && Nat.eqb g j); lra.
  - rewrite pair_count_cons, plus_IZR.
    destruct (Nat.eqb s i && Nat.eqb g j); reflexivity.
Qed.

Lemma total_weight_counts (ignore_seg ignore_gt : list nat)
  (ps : list (nat * nat)) :
  Rsum (map (fun v => weight_R (ignored_voxel ignore_seg ignore_gt
                                  (fst v) (snd v))) ps)
  = IZR (Z.of_nat
           (length (filter (fun v => negb (ignored_voxel ignore_seg ignore_gt
                                             (fst v) (snd v))) ps))).
Proof.
  induction ps as [| [s g] ps IH]; [reflexivity |].
  cbn [map Rsum fold_right filter fst snd]. unfold Rsum in IH. rewrite IH.
  destruct (ignored_voxel ignore_seg ignore_gt s g); cbn [negb weight_R].
  - lra.
  - cbn [length]. rewrite Nat2Z.inj_succ, succ_IZR. lra.
Qed.

(** With [norm=False] the table holds counts: the entry at [(i, j)] is the
    number of voxels labelled [i] in [seg] and [j] in [gt] that are not
    ignored, the shape is [(max seg + 1, max gt + 1)] whatever is
    ignored, and the entries add up to the number of counted voxels. *)
Theorem contingency_table_counts (seg gt ignore_seg ignore_gt : list nat) :
  length seg = length gt ->
  seg <> [] ->
  exists cont,
    contingency_table seg gt ignore_seg ignore_gt false = Ok cont /\
    nrows cont = S (list_max seg) /\
    ncols cont = S (list_max gt) /\
    (forall i j,
        get F.zero cont i j
        = F.of_int
            (pair_count
               (filter (fun v => negb (ignored_voxel ignore_seg ignore_gt
                                         (fst v) (snd v)))
                       (combine seg gt)) i j)) /\
    msum F.zero F.add cont
    = F.of_int
        (Z.of_nat
           (length
              (filter (fun v => negb (ignored_voxel ignore_seg ignore_gt
                                        (fst v) (snd v)))
                      (combine seg gt)))).
Proof.
  intros Hlen Hne.
  rewrite (@contingency_table_unfold seg gt ignore_seg ignore_gt Hlen false Hne).
  eexists. split; [reflexivity |].
  split; [reflexivity |]. split; [reflexivity |]. split.
  - intros i j.
    rewrite (@cont_get seg gt ignore_seg ignore_gt Hlen i j), mass_counts.
    reflexivity.
  - rewrite (@cont_total seg gt ignore_seg ignore_gt Hlen), total_weight_counts.
    reflexivity.
Qed.

Lemma contingency_table_counts_witness :
  exists cont,
    contingency_table [1; 1; 0; 2] [1; 1; 1; 0] [0] [0] false = Ok cont /\
    nrows cont = 3 /\ ncols cont = 2 /\
    get F.zero cont 1 1 = F.of_int 2 /\
    msum F.zero F.add cont = F.of_int 2.
Proof.
  destruct (@contingency_table_counts [1; 1; 0; 2] [1; 1; 1; 0] [0] [0])
    as [cont [H [Hr [Hc [Hg Hs]]]]].
  - reflexivity.
  - discriminate.
  - exists cont. split; [exact H |]. split; [exact Hr |].
    split; [exact Hc |]. split; [apply Hg | exact Hs].
Defined.

(** Exchanging the volumes together with their ignore lists transposes
    the table; an exception is kept. *)
Theorem contingency_table_transpose
  (seg gt ignore_seg ignore_gt : list nat) (norm : bool) :
  contingency_table gt seg ignore_gt ignore_seg norm
  = rmap transpose (contingency_table seg gt ignore_seg ignore_gt norm).
Proof.
  apply contingency_table_swap.
  apply Forall_forall. intros v _. unfold ignored_voxel. apply orb_comm.
Qed.

(** ** The normalised table: marginals and conditional probabilities *)

Lemma Rsum_exchange (f : nat -> nat -> R) (X Y : list nat) :
  Rsum (map (fun i => Rsum (map (fun j => f i j) Y)) X)
  = Rsum (map (fun j => Rsum (map (fun i => f i j) X)) Y).
Proof.
  induction X as [| a X IH].
  - cbn [map Rsum fold_right]. symmetry. apply Rsum_map_zero. reflexivity.
  - rewrite (Rsum_map_ext (fun j => Rsum (map (fun i => f i j) (a :: X)))
               (fun j => (f a j + Rsum (map (fun i => f i j) X))%R) Y)
      by reflexivity.
    rewrite Rsum_map_add, <- IH. reflexivity.
Qed.



Lemma sum_fin_nonneg (l : list float64) :
  Forall fin_nonneg l -> fin_nonneg (F.sum l).
Proof.
  induction 1 as [| v l [r [-> Hr]] _ [s [IH Hs]]].
  - exists 0%R. split; [reflexivity | lra].
  - exists (r + s)%R. split; [| lra].
    unfold F.sum in *. cbn [fold_right]. now rewrite IH.
Qed.

Lemma asum_fin_nonpos (l : list float64) :
  Forall fin_nonpos l -> fin_nonpos (asum F.zero F.add l).
Proof.
  induction 1 as [| v l [r [-> Hr]] _ [s [IH Hs]]].
  - exists 0%R. split; [reflexivity | lra].
  - exists (r + s)%R. split; [| lra].
    unfold asum in *. cbn [fold_right]. now rewrite IH.
Qed.

Lemma neg_mul_nonneg (p lp : list float64) :
  Forall fin_nonneg p -> Forall fin_nonpos lp -> Forall fin_nonneg (neg_mul p lp).
Proof.
  intros Hp. revert lp. unfold neg_mul.
  induction Hp as [| v p [r [-> Hr]] _ IH]; intros lp Hlp; [constructor |].
  destruct Hlp as [| u lp [s [-> Hs]] Hlp]; [constructor |].
  cbn [combine map fst snd F.mul F.neg]. constructor.
  - exists (- (r * s))%R. split; [reflexivity | nra].
  - now apply IH.
Qed.

(** [x log2 x] of a probability is not positive. *)
Lemma xlogx_elem_nonpos (q : R) :
  (0 <= q <= 1)%R -> fin_nonpos (xlogx_elem F.log2 (F.Fin q)).
Proof.
  intros Hq. unfold xlogx_elem.
  destruct (Req_dec_T q 0) as [-> | Hq0].
  - rewrite nonzero_zero. exists 0%R. split; [reflexivity | lra].
  - rewrite nonzero_Fin by assumption.
    cbn [F.log2]. rewrite Rsign_pos by lra. cbn [F.mul].
    exists (q * (ln q / ln 2))%R. split; [reflexivity |].
    assert (ln q <= 0)%R as Hln.
    { rewrite <- ln_1. destruct (Req_dec_T q 1) as [-> | Hq1]; [lra |].
      left. apply ln_increasing; lra. }
    assert (0 < ln 2)%R as Hln2.
    { rewrite <- ln_1. apply ln_increasing; lra. }
    assert (ln q / ln 2 <= 0)%R.
    { apply (Rmult_le_reg_r (ln 2)); [exact Hln2 |].
      unfold Rdiv. rewrite Rmult_assoc, Rinv_l by lra. lra. }
    nra.
Qed.

Lemma mass_nonzero_in (w : nat * nat -> R) (ps : list (nat * nat))
  (i j : nat) :
  mass w ps i j <> 0%R ->
  exists v, In v ps /\ fst v = i /\ snd v = j /\ w v <> 0%R.
Proof.
  induction ps as [| v ps IH]; intros H.
  - exfalso. apply H. reflexivity.
  - rewrite mass_cons in H.
    destruct (Req_dec (mass w ps i j) 0) as [Hz | Hz].
    + rewrite Hz in H.
      destruct (Nat.eqb_spec (fst v) i) as [Hi | Hi];
        destruct (Nat.eqb_spec (snd v) j) as [Hj | Hj];
        cbn [andb] in H; try (exfalso; apply H; lra).
      exists v. repeat split; [now left | assumption | assumption |].
      intros E. apply H. lra.
    + destruct (IH Hz) as [u [Hin Hu]]. exists u. split; [now right | exact Hu].
Qed.

Lemma mass_zero (w : nat * nat -> R) (ps : list (nat * nat)) (i j : nat) :
  (forall v, In v ps -> fst v = i -> snd v = j -> w v = 0%R) ->
  mass w ps i j = 0%R.
Proof.
  intros H. unfold mass. apply Rsum_map_zero. intros v Hv.
  destruct (Nat.eqb_spec (fst v) i) as [Hi | Hi];
    destruct (Nat.eqb_spec (snd v) j) as [Hj | Hj];
    cbn [andb]; try reflexivity.
  now apply H.
Qed.

Section NormalisedTable.

Variables seg gt ignore_seg ignore_gt : list nat.

Hypothesis counted :
  Exists (fun v => ignored_voxel ignore_seg ignore_gt (fst v) (snd v) = false)
         (combine seg gt).

Let w (v : nat * nat) : R :=
  weight_R (ignored_voxel ignore_seg ignore_gt (fst v) (snd v)).

Let nr : nat := S (list_max seg).
Let nc : nat := S (list_max gt).

(** The proportion of the counted voxels that carry the labels [(i, j)]. *)
Let m (i j : nat) : R :=
  (mass w (combine seg gt) i j * (1 / Rsum (map w (combine seg gt))))%R.

Let rx (i : nat) : R := Rsum (map (fun j => m i j) (seq 0 nc)).
Let ry (j : nat) : R := Rsum (map (fun i => m i j) (seq 0 nr)).

Variable pxy : float_matrix.
Hypothesis pxy_rows : nrows pxy = nr.
Hypothesis pxy_cols : ncols pxy = nc.
Hypothesis pxy_get : forall i j, get F.zero pxy i j = F.Fin (m i j).

Lemma m_nonneg (i j : nat) : (0 <= m i j)%R.
Proof.
  unfold m.
  pose proof (@total_weight_pos seg gt ignore_seg ignore_gt counted) as HT.
  fold w in HT.
  assert (0 <= mass w (combine seg gt) i j)%R as Hm.
  { unfold mass. apply Rsum_map_nonneg. intros v _.
    destruct (Nat.eqb (fst v) i && Nat.eqb (snd v) j); [| lra].
    unfold w, weight_R. destruct (ignored_voxel _ _ _ _); lra. }
  apply Rmult_le_pos; [exact Hm |].
  apply Rlt_le, Rdiv_lt_0_compat; lra.
Qed.

Lemma m_total : Rsum (map rx (seq 0 nr)) = 1%R.
Proof.
  pose proof (@total_weight_pos seg gt ignore_seg ignore_gt counted) as HT.
  fold w in HT. unfold rx, m.
  rewrite Rsum_nested_scale, mass_total.
  - field. lra.
  - intros [s g] Hin. cbn [fst snd]. unfold nr, nc.
    pose proof (list_max_ge _ _ (in_combine_l _ _ _ _ Hin)).
    pose proof (list_max_ge _ _ (in_combine_r _ _ _ _ Hin)).
    lia.
Qed.

Lemma m_total_columns : Rsum (map ry (seq 0 nc)) = 1%R.
Proof.
  unfold ry. rewrite <- Rsum_exchange. exact m_total.
Qed.

Lemma m_le_rx (i j : nat) : j < nc -> (m i j <= rx i)%R.
Proof.
  intros Hj. unfold rx.
  apply (Rsum_map_ge_term (fun j => m i j)).
  - intros x _. apply m_nonneg.
  - apply in_seq. lia.
Qed.


Lemma normalised_px :
  row_sums F.zero F.add pxy = map (fun i => F.Fin (rx i)) (seq 0 nr).
Proof.
  now rewrite (@row_sums_Fin pxy m pxy_get), pxy_rows, pxy_cols.
Qed.

Lemma normalised_py :
  col_sums F.zero F.add pxy = map (fun j => F.Fin (ry j)) (seq 0 nc).
Proof.
  now rewrite (@col_sums_Fin pxy m pxy_get), pxy_rows, pxy_cols.
Qed.

Lemma nth_map_Fin (f : nat -> R) (n i : nat) :
  i < n -> nth i (map (fun i => F.Fin (f i)) (seq 0 n)) F.zero = F.Fin (f i).
Proof.
  intros Hi.
  rewrite (nth_indep _ F.zero (F.Fin (f 0))) by now rewrite length_map, length_seq.
  rewrite (map_nth (fun i => F.Fin (f i)) (seq 0 n) 0 i).
  now rewrite seq_nth.
Qed.

(** The rows with a nonzero marginal. *)
Lemma nzx_spec (i : nat) :
  In i (nonzero_idx (row_sums F.zero F.add pxy)) <-> i < nr /\ rx i <> 0%R.
Proof.
  rewrite normalised_px. unfold nonzero_idx.
  rewrite filter_In, in_seq, length_map, length_seq.
  split.
  - intros [[_ Hi] Hnz]. cbn [Nat.add] in Hi. split; [exact Hi |].
    rewrite nth_map_Fin in Hnz by assumption.
    intros E. rewrite E, nonzero_zero in Hnz. discriminate.
  - intros [Hi Hnz]. split; [lia |].
    rewrite nth_map_Fin by assumption. now apply nonzero_Fin.
Qed.

Lemma nzy_spec (j : nat) :
  In j (nonzero_idx (col_sums F.zero F.add pxy)) <-> j < nc /\ ry j <> 0%R.
Proof.
  rewrite normalised_py. unfold nonzero_idx.
  rewrite filter_In, in_seq, length_map, length_seq.
  split.
  - intros [[_ Hj] Hnz]. cbn [Nat.add] in Hj. split; [exact Hj |].
    rewrite nth_map_Fin in Hnz by assumption.
    intros E. rewrite E, nonzero_zero in Hnz. discriminate.
  - intros [Hj Hnz]. split; [lia |].
    rewrite nth_map_Fin by assumption. now apply nonzero_Fin.
Qed.


(** The conditional probability [P(y = nzy[l] | x = nzx[k])], and 0
    outside the shape. *)
Let q (k l : nat) : R :=
  let nzx := nonzero_idx (row_sums F.zero F.add pxy) in
  let nzy := nonzero_idx (col_sums F.zero F.add pxy) in
  if Nat.ltb k (length nzx) && Nat.ltb l (length nzy)
  then (m (nth k nzx 0%nat) (nth l nzy 0%nat) / rx (nth k nzx 0%nat))%R
  else 0%R.

Lemma divided_rows_get (k l : nat) :
  let px := row_sums F.zero F.add pxy in
  let py := col_sums F.zero F.add pxy in
  let nzx := nonzero_idx px in
  let nzy := nonzero_idx py in
  get F.zero
      (map_data (fun i _ v =>
                   if F.nonzero v
                   then F.div v (nth i (take F.zero px nzx) F.NaN) else v)
                (select pxy nzx nzy)) k l
  = F.Fin (q k l).
Proof.
  intros px py nzx nzy. unfold q. fold px py nzx nzy.
  unfold get, map_data, select. cbn [entry].
  destruct (Nat.ltb k (length nzx)) eqn:Hk; [| reflexivity].
  destruct (Nat.ltb l (length nzy)) eqn:Hl; [| reflexivity].
  cbn [andb]. apply Nat.ltb_lt in Hk.
  set (i := nth k nzx 0). set (j := nth l nzy 0).
  destruct (proj1 (nzx_spec i) (nth_In nzx 0 Hk)) as [Hi Hrx].
  pose proof (pxy_get i j) as Hv. unfold get in Hv.
  destruct (entry pxy i j) as [v |]; cbn [value option_map] in *.
  - subst v. destruct (Req_dec_T (m i j) 0) as [E | E].
    + rewrite E, nonzero_zero. f_equal. unfold Rdiv. now rewrite Rmult_0_l.
    + rewrite nonzero_Fin by assumption.
      assert (nth k (take F.zero px nzx) F.NaN = F.Fin (rx i)) as ->.
      { unfold take.
        rewrite (nth_indep _ F.NaN (nth 0 px F.zero)) by now rewrite length_map.
        rewrite (map_nth (fun i => nth i px F.zero) nzx 0 k).
        fold i. unfold px. rewrite normalised_px. now apply nth_map_Fin. }
      now rewrite div_Fin.
  - unfold F.zero in Hv. injection Hv as Hv. rewrite <- Hv.
    unfold F.zero. f_equal. unfold Rdiv. now rewrite Rmult_0_l.
Qed.

Lemma q_range (k l : nat) : (0 <= q k l <= 1)%R.
Proof.
  unfold q.
  set (nzx := nonzero_idx (row_sums F.zero F.add pxy)).
  set (nzy := nonzero_idx (col_sums F.zero F.add pxy)).
  destruct (Nat.ltb k (length nzx)) eqn:Hk; [| cbn [andb]; lra].
  destruct (Nat.ltb l (length nzy)) eqn:Hl; [| cbn [andb]; lra].
  cbn [andb]. apply Nat.ltb_lt in Hk, Hl.
  destruct (proj1 (nzx_spec _) (nth_In nzx 0 Hk)) as [Hi Hrx].
  destruct (proj1 (nzy_spec _) (nth_In nzy 0 Hl)) as [Hj Hry].
  pose proof (m_nonneg (nth k nzx 0) (nth l nzy 0)) as H0.
  pose proof (m_le_rx (nth k nzx 0) Hj) as H1.
  set (i := nth k nzx 0) in *.
  assert (0 < rx i)%R as Hpos by lra.
  split.
  - apply Rmult_le_pos; [exact H0 |]. apply Rlt_le, Rinv_0_lt_compat, Hpos.
  - apply (Rmult_le_reg_r (rx i)); [exact Hpos |].
    unfold Rdiv. rewrite Rmult_assoc, Rinv_l by lra. lra.
Qed.


(** The conditional entropy of every label is a finite non-negative
    number, and so is the merge error of the table. *)
Lemma normalised_hygx_nonneg :
  Forall fin_nonneg (vi_hygx (vi_of_table pxy)).
Proof.
  unfold vi_of_table. cbn [vi_hygx].
  unfold divide_rows, xlogx, xlogx_with, sum_axis1.
  set (px := row_sums F.zero F.add pxy).
  set (nzx := nonzero_idx px).
  set (D := map_data _ (select pxy nzx _)).
  apply neg_mul_nonneg.
  - unfold px. rewrite normalised_px.
    apply Forall_map, Forall_forall. intros i _.
    exists (rx i). split; [reflexivity |].
    unfold rx. apply Rsum_map_nonneg. intros j _. apply m_nonneg.
  - apply put_Forall.
    + apply Forall_forall. intros v Hv. apply repeat_spec in Hv. subst v.
      exists 0%R. split; [reflexivity | lra].
    + unfold row_sums. apply Forall_map, Forall_forall. intros k _.
      apply asum_fin_nonpos. unfold row.
      apply Forall_map, Forall_forall. intros l _.
      unfold get, map_data at 1. cbn [entry].
      pose proof (divided_rows_get k l) as Hd. cbv zeta in Hd.
      fold px nzx D in Hd. unfold get in Hd.
      destruct (entry D k l) as [v |]; cbn [option_map value] in *.
      * subst v. apply xlogx_elem_nonpos, q_range.
      * exists 0%R. split; [reflexivity | lra].
Qed.

Lemma normalised_merge_nonneg :
  fin_nonneg (F.sum (vi_hygx (vi_of_table pxy))).
Proof. apply sum_fin_nonneg, normalised_hygx_nonneg. Qed.


Lemma normalised_marginals :
  F.sum (row_sums F.zero F.add pxy) = F.Fin 1 /\
  F.sum (col_sums F.zero F.add pxy) = F.Fin 1.
Proof.
  rewrite normalised_px, normalised_py.
  change F.sum with (asum F.zero F.add).
  rewrite (asum_Fin (fun i => F.Fin (rx i)) rx) by reflexivity.
  rewrite (asum_Fin (fun j => F.Fin (ry j)) ry) by reflexivity.
  now rewrite m_total, m_total_columns.
Qed.

Lemma normalised_marginals_nonneg :
  Forall fin_nonneg (row_sums F.zero F.add pxy) /\
  Forall fin_nonneg (col_sums F.zero F.add pxy).
Proof.
  rewrite normalised_px, normalised_py. split.
  - apply Forall_map, Forall_forall. intros i _.
    exists (rx i). split; [reflexivity |].
    unfold rx. apply Rsum_map_nonneg. intros j _. apply m_nonneg.
  - apply Forall_map, Forall_forall. intros j _.
    exists (ry j). split; [reflexivity |].
    unfold ry. apply Rsum_map_nonneg. intros i _. apply m_nonneg.
Qed.

(** *** A first volume whose labels refine those of the second *)

Hypothesis refines : label_refines ignore_seg ignore_gt (combine seg gt).

Lemma refined_row (i j : nat) : j < nc -> m i j <> 0%R -> rx i = m i j.
Proof.
  intros Hj Hm. unfold rx.
  rewrite (Rsum_map_ext _ (fun j' => if Nat.eqb j j' then m i j else 0%R)).
  - apply Rsum_indicator_in. exact Hj.
  - intros j' _. destruct (Nat.eqb_spec j j') as [<- | Hjj]; [reflexivity |].
    assert (mass w (combine seg gt) i j <> 0%R) as Hmass.
    { intros E. apply Hm. unfold m. rewrite E. lra. }
    destruct (mass_nonzero_in _ _ _ _ Hmass) as [v [Hin [Hf [Hs Hw]]]].
    unfold m. rewrite (@mass_zero w (combine seg gt) i j'); [lra |].
    intros v' Hin' Hf' Hs'. unfold w, weight_R in *.
    destruct (ignored_voxel ignore_seg ignore_gt (fst v') (snd v')) eqn:E';
      [reflexivity | exfalso].
    destruct (ignored_voxel ignore_seg ignore_gt (fst v) (snd v)) eqn:E;
      [now apply Hw |].
    apply Hjj. rewrite <- Hs, <- Hs'.
    apply (refines v v' Hin Hin' E E'). congruence.
Qed.

Lemma refined_q (k l : nat) : q k l = 0%R \/ q k l = 1%R.
Proof.
  unfold q.
  set (nzx := nonzero_idx (row_sums F.zero F.add pxy)).
  set (nzy := nonzero_idx (col_sums F.zero F.add pxy)).
  destruct (Nat.ltb k (length nzx)) eqn:Hk; [| now left].
  destruct (Nat.ltb l (length nzy)) eqn:Hl; [| now left].
  cbn [andb]. apply Nat.ltb_lt in Hk, Hl.
  destruct (proj1 (nzx_spec _) (nth_In nzx 0 Hk)) as [Hi Hrx].
  destruct (proj1 (nzy_spec _) (nth_In nzy 0 Hl)) as [Hj Hry].
  set (i := nth k nzx 0) in *. set (j := nth l nzy 0) in *.
  destruct (Req_dec (m i j) 0) as [Hz | Hnz].
  - left. rewrite Hz. unfold Rdiv. ring.
  - right. rewrite (refined_row Hj Hnz). now field.
Qed.

(** The merge error [H(Y|X)] of the table vanishes. *)
Lemma refined_merge : F.sum (vi_hygx (vi_of_table pxy)) = F.Fin 0.
Proof.
  unfold vi_of_table. cbn [vi_hygx].
  unfold divide_rows, xlogx, xlogx_with, sum_axis1.
  set (px := row_sums F.zero F.add pxy).
  set (nzx := nonzero_idx px).
  set (D := map_data _ (select pxy nzx _)).
  set (M := map_data _ D).
  assert (forall k l, get F.zero M k l = F.Fin 0) as Hget.
  { intros k l. unfold get, M, map_data at 1. cbn [entry].
    pose proof (divided_rows_get k l) as Hd. cbv zeta in Hd.
    fold px nzx D in Hd. unfold get in Hd.
    destruct (entry D k l) as [v |]; cbn [option_map value] in *;
      [| reflexivity].
    subst v. unfold xlogx_elem.
    destruct (refined_q k l) as [-> | ->].
    - now rewrite nonzero_zero.
    - rewrite nonzero_Fin by lra. rewrite log2_one.
      cbn [F.mul]. f_equal. lra. }
  assert (Forall (fun v => v = F.Fin 0) (row_sums F.zero F.add M)) as Hvals.
  { rewrite (@row_sums_Fin M (fun _ _ => 0%R) Hget).
    apply Forall_map, Forall_forall. intros k _. f_equal.
    apply Rsum_map_zero. reflexivity. }
  assert (put (repeat F.zero (length px)) nzx (row_sums F.zero F.add M)
          = repeat (F.Fin 0) (length (seq 0 nr))) as ->.
  { assert (Forall (fun v => v = F.Fin 0) (repeat F.zero (length px))) as Hbase.
    { apply Forall_forall. intros v Hv. now apply repeat_spec in Hv. }
    rewrite (Forall_eq_repeat (put_Forall nzx Hbase Hvals)).
    f_equal. rewrite put_length, repeat_length. unfold px.
    now rewrite normalised_px, length_map. }
  unfold px. rewrite normalised_px, neg_mul_repeat.
  change F.sum with (asum F.zero F.add).
  rewrite (asum_Fin _ (fun i => (- (rx i * 0))%R)) by reflexivity.
  f_equal. apply Rsum_map_zero. intros i _. lra.
Qed.

End NormalisedTable.

(** ** Variation of information of volumes with a counted voxel *)

Lemma exchange_ignored (seg gt ignore_seg ignore_gt : list nat) :
  Forall (fun v => ignored_voxel ignore_gt ignore_seg (snd v) (fst v)
                   = ignored_voxel ignore_seg ignore_gt (fst v) (snd v))
         (combine seg gt).
Proof.
  apply Forall_forall. intros v _. unfold ignored_voxel. apply orb_comm.
Qed.

Lemma counted_exchange (seg gt ignore_seg ignore_gt : list nat) :
  Exists (fun v => ignored_voxel ignore_seg ignore_gt (fst v) (snd v) = false)
         (combine seg gt) ->
  Exists (fun v => ignored_voxel ignore_gt ignore_seg (fst v) (snd v) = false)
         (combine gt seg).
Proof.
  intros H. rewrite combine_swap.
  apply Exists_exists in H. destruct H as [v [Hin Hv]].
  apply Exists_exists. exists (snd v, fst v). split.
  - apply in_map_iff. exists v. split; [reflexivity | exact Hin].
  - cbn [fst snd]. unfold ignored_voxel in *. now rewrite orb_comm.
Qed.

(** The table of the volumes and the table of the exchanged volumes. *)
Lemma normalised_tables (seg gt ignore_seg ignore_gt : list nat) :
  length seg = length gt ->
  Exists (fun v => ignored_voxel ignore_seg ignore_gt (fst v) (snd v) = false)
         (combine seg gt) ->
  exists pxy,
    contingency_table seg gt ignore_seg ignore_gt true = Ok pxy /\
    normalised_form seg gt ignore_seg ignore_gt pxy /\
    normalised_form gt seg ignore_gt ignore_seg (transpose pxy).
Proof.
  intros Hlen Hex.
  destruct (@contingency_table_normalised seg gt ignore_seg ignore_gt Hlen Hex)
    as [pxy [Hok [Hr [Hc [_ Hg]]]]].
  destruct (@contingency_table_normalised gt seg ignore_gt ignore_seg
              (eq_sym Hlen) (@counted_exchange seg gt ignore_seg ignore_gt Hex))
    as [pyx [Hok' [Hr' [Hc' [_ Hg']]]]].
  rewrite (@contingency_table_swap seg gt ignore_seg ignore_gt
             ignore_seg ignore_gt
             (@exchange_ignored seg gt ignore_seg ignore_gt) true) in Hok'.
  rewrite Hok in Hok'. cbn [rmap bind] in Hok'.
  injection Hok' as Hpyx. subst pyx.
  exists pxy. split; [exact Hok |]. split.
  - split; [exact Hr |]. split; [exact Hc | exact Hg].
  - split; [exact Hr' |]. split; [exact Hc' | exact Hg'].
Qed.

(** With volumes of one shape and a counted voxel, [vi_tables] returns
    marginals [px] and [py] that are probability vectors: one entry for
    each label up to the largest one, every entry finite and not
    negative, and the entries add up to one. *)
Theorem vi_tables_marginals (x y ignore_x ignore_y : list nat) :
  length x = length y ->
  Exists (fun v => ignored_voxel ignore_x ignore_y (fst v) (snd v) = false)
         (combine x y) ->
  exists t,
    vi_tables (LabelFields x y) ignore_x ignore_y = Ok t /\
    length (vi_px t) = S (list_max x) /\
    length (vi_py t) = S (list_max y) /\
    F.sum (vi_px t) = F.Fin 1 /\
    F.sum (vi_py t) = F.Fin 1 /\
    Forall fin_nonneg (vi_px t) /\
    Forall fin_nonneg (vi_py t).
Proof.
  intros Hlen Hex.
  destruct (@normalised_tables x y ignore_x ignore_y Hlen Hex)
    as [pxy [Hok [[Hr [Hc Hg]] _]]].
  exists (vi_of_table pxy). split.
  - unfold vi_tables. rewrite Hok. reflexivity.
  - unfold vi_of_table. cbn [vi_px vi_py].
    destruct (@normalised_marginals x y ignore_x ignore_y Hex pxy Hr Hc Hg)
      as [Sx Sy].
    destruct (@normalised_marginals_nonneg x y ignore_x ignore_y Hex pxy
                Hr Hc Hg) as [Nx Ny].
    repeat split; try assumption.
    + unfold row_sums. now rewrite length_map, length_seq.
    + unfold col_sums. now rewrite length_map, length_seq.
Qed.

Lemma vi_tables_marginals_witness :
  exists t,
    vi_tables (LabelFields [1; 1; 2] [1; 2; 2]) [0] [0] = Ok t /\
    length (vi_px t) = 3 /\
    length (vi_py t) = 3 /\
    F.sum (vi_px t) = F.Fin 1 /\
    F.sum (vi_py t) = F.Fin 1 /\
    Forall fin_nonneg (vi_px t) /\
    Forall fin_nonneg (vi_py t).
Proof.
  apply (@vi_tables_marginals [1; 1; 2] [1; 2; 2] [0] [0]).
  - reflexivity.
  - apply Exists_cons_hd. reflexivity.
Defined.



(** With volumes of one shape and a counted voxel, [voi] returns two
    finite numbers, neither of them negative; so do the entropies of the
    single labels that [vi_tables] returns. *)
Theorem voi_nonneg (x y ignore_x ignore_y : list nat) :
  length x = length y ->
  Exists (fun v => ignored_voxel ignore_x ignore_y (fst v) (snd v) = false)
         (combine x y) ->
  (exists t,
      vi_tables (LabelFields x y) ignore_x ignore_y = Ok t /\
      Forall fin_nonneg (vi_hxgy t) /\
      Forall fin_nonneg (vi_hygx t)) /\
  exists split merge : R,
    voi x y ignore_x ignore_y = Ok (F.Fin split, F.Fin merge) /\
    (0 <= split)%R /\ (0 <= merge)%R.
Proof.
  intros Hlen Hex.
  destruct (@normalised_tables x y ignore_x ignore_y Hlen Hex)
    as [pxy [Hok [[Hr [Hc Hg]] [Hr' [Hc' Hg']]]]].
  pose proof (@normalised_hygx_nonneg x y ignore_x ignore_y Hex pxy Hr Hc Hg)
    as Hm.
  pose proof (@normalised_hygx_nonneg y x ignore_y ignore_x
                (@counted_exchange x y ignore_x ignore_y Hex)
                (transpose pxy) Hr' Hc' Hg') as Hs.
  rewrite vi_of_table_transpose in Hs. cbn [swap_vi vi_hygx] in Hs.
  assert (Ht : vi_tables (LabelFields x y) ignore_x ignore_y
               = Ok (vi_of_table pxy)).
  { unfold vi_tables. rewrite Hok. reflexivity. }
  split.
  - exists (vi_of_table pxy). split; [exact Ht |]. split; assumption.
  - destruct (sum_fin_nonneg Hs) as [s [Es Hs0]].
    destruct (sum_fin_nonneg Hm) as [m [Em Hm0]].
    exists s, m. split; [| split; assumption].
    unfold voi, split_vi. rewrite Ht. cbn [bind]. now rewrite Es, Em.
Qed.

Lemma voi_nonneg_witness :
  (exists t,
      vi_tables (LabelFields [1; 1; 2] [1; 2; 2]) [0] [0] = Ok t /\
      Forall fin_nonneg (vi_hxgy t) /\
      Forall fin_nonneg (vi_hygx t)) /\
  exists split merge : R,
    voi [1; 1; 2] [1; 2; 2] [0] [0] = Ok (F.Fin split, F.Fin merge) /\
    (0 <= split)%R /\ (0 <= merge)%R.
Proof.
  apply (@voi_nonneg [1; 1; 2] [1; 2; 2] [0] [0]).
  - reflexivity.
  - apply Exists_cons_hd. reflexivity.
Defined.

(** ** A table as the argument of [vi_tables] *)

(** [vi_tables] called on the table of counts of two volumes (the second
    argument left out) returns what it returns on the two volumes. *)
Theorem vi_tables_of_counts (x y ignore_x ignore_y : list nat)
  (cont : float_matrix) (ignore_x' ignore_y' : list nat) :
  contingency_table x y ignore_x ignore_y false = Ok cont ->
  vi_tables (Table cont) ignore_x' ignore_y'
  = vi_tables (LabelFields x y) ignore_x ignore_y.
Proof.
  intros H.
  destruct (Nat.eq_dec (length x) (length y)) as [Hlen | Hlen].
  - destruct (list_eq_dec Nat.eq_dec x []) as [E | E].
    + rewrite (@contingency_table_empty x y ignore_x ignore_y Hlen false E)
        in H. discriminate.
    + rewrite (@contingency_table_unfold x y ignore_x ignore_y Hlen false E)
        in H.
      injection H as <-. unfold vi_tables.
      now rewrite (@contingency_table_unfold x y ignore_x ignore_y Hlen true E).
  - exfalso. unfold contingency_table in H.
    apply Nat.eqb_neq in Hlen. rewrite Hlen in H. discriminate.
Qed.

Lemma vi_tables_of_counts_witness :
  exists cont,
    contingency_table [1; 1; 2] [1; 2; 2] [0] [0] false = Ok cont /\
    vi_tables (Table cont) [] []
    = vi_tables (LabelFields [1; 1; 2] [1; 2; 2]) [0] [0].
Proof.
  eexists. split.
  - reflexivity.
  - apply (@vi_tables_of_counts [1; 1; 2] [1; 2; 2] [0] [0]). reflexivity.
Defined.

Lemma coo_entry_stored (w : nat * nat -> R) (ps : list (nat * nat))
  (i j : nat) (u : float64) :
  coo_entry F.add (map (fun v => (v, F.Fin (w v))) ps) i j = Some u ->
  u = F.Fin (mass w ps i j).
Proof.
  intros H. pose proof (coo_entry_mass w ps i j) as Hm.
  rewrite H in Hm. exact Hm.
Qed.

(** Normalising a table that is normalised changes nothing (without
    rounding): [vi_tables] called on the normalised table of two volumes
    returns what it returns on the two volumes. *)
Theorem vi_tables_of_normalised (x y ignore_x ignore_y : list nat)
  (pxy : float_matrix) (ignore_x' ignore_y' : list nat) :
  contingency_table x y ignore_x ignore_y true = Ok pxy ->
  vi_tables (Table pxy) ignore_x' ignore_y'
  = vi_tables (LabelFields x y) ignore_x ignore_y.
Proof.
  intros H.
  assert (Hlen : length x = length y).
  { destruct (Nat.eq_dec (length x) (length y)) as [Hlen | Hlen];
      [exact Hlen | exfalso].
    unfold contingency_table in H.
    apply Nat.eqb_neq in Hlen. rewrite Hlen in H. discriminate. }
  assert (Hex : Exists (fun v => ignored_voxel ignore_x ignore_y (fst v) (snd v)
                                 = false) (combine x y)).
  { destruct (counted_dec ignore_x ignore_y (combine x y))
      as [Hex | Hall]; [exact Hex | exfalso].
    destruct (list_eq_dec Nat.eq_dec x []) as [E | E].
    - rewrite (@contingency_table_empty x y ignore_x ignore_y Hlen true E)
        in H. discriminate.
    - rewrite (@contingency_table_all_ignored x y ignore_x ignore_y
                 Hlen E Hall) in H. discriminate. }
  destruct (@contingency_table_normalised x y ignore_x ignore_y Hlen Hex)
    as [p [Hok [Hr [Hc [He Hg]]]]].
  rewrite H in Hok. injection Hok as <-.
  destruct (@normalised_marginals x y ignore_x ignore_y Hex pxy Hr Hc Hg)
    as [Hsum _].
  unfold vi_tables. rewrite H. cbn [bind].
  change (msum F.zero F.add pxy) with (F.sum (row_sums F.zero F.add pxy)).
  rewrite Hsum. unfold divide_by_scalar.
  rewrite nonzero_Fin by lra. unfold F.one. rewrite div_Fin by lra.
  cbn [bind]. do 2 f_equal.
  destruct pxy as [nr nc e]. unfold map_data. cbn [nrows ncols entry] in *.
  f_equal. extensionality i. extensionality j.
  rewrite He. rewrite (@triples_weights x y ignore_x ignore_y Hlen).
  destruct (coo_entry F.add _ i j) as [u |] eqn:Eu; [| reflexivity].
  apply coo_entry_stored in Eu. subst u.
  cbn [option_map F.mul]. do 2 f_equal. field.
  pose proof (@total_weight_pos x y ignore_x ignore_y Hex). lra.
Qed.

Lemma vi_tables_of_normalised_witness :
  exists pxy,
    contingency_table [1; 1; 2] [1; 2; 2] [0] [0] true = Ok pxy /\
    vi_tables (Table pxy) [] []
    = vi_tables (LabelFields [1; 1; 2] [1; 2; 2]) [0] [0].
Proof.
  destruct (@contingency_table_normalised [1; 1; 2] [1; 2; 2] [0] [0])
    as [pxy [H _]].
  - reflexivity.
  - apply Exists_cons_hd. reflexivity.
  - exists pxy. split; [exact H |].
    apply (@vi_tables_of_normalised [1; 1; 2] [1; 2; 2] [0] [0]). exact H.
Defined.

(** ** Pure over- and under-segmentation *)

(** When, among the counted voxels, every label of the reconstruction lies
    inside one label of the ground truth (the reconstruction only splits),
    the merge error returned by [voi] is exactly zero; the split error is
    a finite number that is not negative. *)
Theorem voi_oversegmentation (x y ignore_x ignore_y : list nat) :
  length x = length y ->
  Exists (fun v => ignored_voxel ignore_x ignore_y (fst v) (snd v) = false)
         (combine x y) ->
  label_refines ignore_x ignore_y (combine x y) ->
  exists split : R,
    voi x y ignore_x ignore_y = Ok (F.Fin split, F.Fin 0) /\ (0 <= split)%R.
Proof.
  intros Hlen Hex Href.
  destruct (@normalised_tables x y ignore_x ignore_y Hlen Hex)
    as [pxy [Hok [[Hr [Hc Hg]] [Hr' [Hc' Hg']]]]].
  pose proof (@refined_merge x y ignore_x ignore_y pxy Hr Hc Hg Href)
    as Hm.
  pose proof (@normalised_merge_nonneg y x ignore_y ignore_x
                (@counted_exchange x y ignore_x ignore_y Hex)
                (transpose pxy) Hr' Hc' Hg') as [s [Es Hs]].
  rewrite vi_of_table_transpose in Es. cbn [swap_vi vi_hygx] in Es.
  exists s. split; [| exact Hs].
  unfold voi, split_vi, vi_tables. rewrite Hok. cbn [bind].
  now rewrite Es, Hm.
Qed.

Lemma voi_oversegmentation_witness :
  exists split : R,
    voi [1; 2; 3; 3] [1; 1; 2; 2] [0] [0] = Ok (F.Fin split, F.Fin 0) /\
    (0 <= split)%R.
Proof.
  apply (@voi_oversegmentation [1; 2; 3; 3] [1; 1; 2; 2] [0] [0]).
  - reflexivity.
  - apply Exists_cons_hd. reflexivity.
  - intros v v' Hv Hv' _ _.
    cbn [combine In] in Hv, Hv'.
    repeat (destruct Hv as [<- | Hv]; [| try contradiction]);
      repeat (destruct Hv' as [<- | Hv']; [| try contradiction]);
      cbn [fst snd]; intros E; first [reflexivity | discriminate E].
Defined.

(** When, among the counted voxels, every label of the ground truth lies
    inside one label of the reconstruction (the reconstruction only
    merges), the split error returned by [voi] is exactly zero; the merge
    error is a finite number that is not negative. *)
Theorem voi_undersegmentation (x y ignore_x ignore_y : list nat) :
  length x = length y ->
  Exists (fun v => ignored_voxel ignore_x ignore_y (fst v) (snd v) = false)
         (combine x y) ->
  label_refines ignore_y ignore_x (combine y x) ->
  exists merge : R,
    voi x y ignore_x ignore_y = Ok (F.Fin 0, F.Fin merge) /\ (0 <= merge)%R.
Proof.
  intros Hlen Hex Href.
  destruct (@normalised_tables x y ignore_x ignore_y Hlen Hex)
    as [pxy [Hok [[Hr [Hc Hg]] [Hr' [Hc' Hg']]]]].
  pose proof (@refined_merge y x ignore_y ignore_x
                (transpose pxy) Hr' Hc' Hg' Href) as Hs.
  rewrite vi_of_table_transpose in Hs. cbn [swap_vi vi_hygx] in Hs.
  pose proof (@normalised_merge_nonneg x y ignore_x ignore_y Hex pxy
                Hr Hc Hg) as [m [Em Hm]].
  exists m. split; [| exact Hm].
  unfold voi, split_vi, vi_tables. rewrite Hok. cbn [bind].
  now rewrite Em, Hs.
Qed.

Lemma voi_undersegmentation_witness :
  exists merge : R,
    voi [1; 1; 2; 2] [1; 2; 3; 3] [0] [0] = Ok (F.Fin 0, F.Fin merge) /\
    (0 <= merge)%R.
Proof.
  apply (@voi_undersegmentation [1; 1; 2; 2] [1; 2; 3; 3] [0] [0]).
  - reflexivity.
  - apply Exists_cons_hd. reflexivity.
  - intros v v' Hv Hv' _ _.
    cbn [combine In] in Hv, Hv'.
    repeat (destruct Hv as [<- | Hv]; [| try contradiction]);
      repeat (destruct Hv' as [<- | Hv']; [| try contradiction]);
      cbn [fst snd]; intros E; first [reflexivity | discriminate E].
Defined.

(** ** The range of the Adapted Rand scores *)

Section RandRange.

Open Scope Z_scope.

Lemma Zsum_cons (a : Z) (l : list Z) : Zsum (a :: l) = a + Zsum l.
Proof. reflexivity. Qed.

Lemma Zsum_map_ext (A : Type) (f g : A -> Z) (l : list A) :
  (forall x, In x l -> f x = g x) -> Zsum (map f l) = Zsum (map g l).
Proof.
  intros H. f_equal. now apply map_ext_in.
Qed.


Lemma Zsum_map_ge_term (A : Type) (f : A -> Z) (l : list A) (a : A) :
  (forall x, 0 <= f x) -> In a l -> f a <= Zsum (map f l).
Proof.
  intros H. induction l as [| b l IH]; intros Ha; [contradiction |].
  cbn [map]. rewrite Zsum_cons.
  pose proof (H b). pose proof (Zsum_map_nonneg f l H).
  destruct Ha as [-> | Ha]; [lia |]. specialize (IH Ha). lia.
Qed.

Lemma pair_count_in (ps : list (nat * nat)) (g s : nat) :
  In (g, s) ps -> 1 <= pair_count ps g s.
Proof.
  induction ps as [| [g' s'] ps IH]; intros H; [contradiction |].
  rewrite pair_count_cons. pose proof (pair_count_range ps g s) as Hr.
  destruct H as [E | H].
  - injection E as -> ->. rewrite !Nat.eqb_refl. cbn [andb]. lia.
  - specialize (IH H). destruct (Nat.eqb g' g && Nat.eqb s' s); lia.
Qed.

Lemma in_combine_l_exists (A B : Type) (l : list A) (l' : list B) (a : A) :
  length l = length l' -> In a l -> exists b, In (a, b) (combine l l').
Proof.
  revert l'. induction l as [| x l IH]; intros [| y l'] Hlen Ha;
    try contradiction; try discriminate.
  destruct Ha as [-> | Ha].
  - exists y. now left.
  - injection Hlen as Hlen. destruct (IH l' Hlen Ha) as [b Hb].
    exists b. now right.
Qed.

Variables seg gt : list nat.

Lemma rand_p_range (i j : nat) : 0 <= RandSpec.p seg gt i j.
Proof. apply (pair_count_range (combine gt seg) i j). Qed.

Lemma rand_sum_c_nonneg : 0 <= RandSpec.sum_c seg gt.
Proof.
  unfold RandSpec.sum_c. apply Zsum_map_nonneg. intros i. apply rand_p_range.
Qed.

Lemma rand_sum_b2_nonneg : 0 <= RandSpec.sum_b2 seg gt.
Proof.
  unfold RandSpec.sum_b2. apply Zsum_map_nonneg. intros i.
  apply Zsum_map_nonneg. intros j. pose proof (rand_p_range i j). nia.
Qed.



Hypothesis same_shape : length seg = length gt.
Hypothesis foreground : Exists (fun g => g <> 0%nat) gt.

(** A labelled voxel of the ground truth makes [sumAB] positive. *)
Lemma rand_foreground :
  1 <= RandSpec.sum_b2 seg gt + RandSpec.sum_c seg gt.
Proof.
  apply Exists_exists in foreground. destruct foreground as [g [Hg Hnz]].
  destruct (@in_combine_l_exists nat nat gt seg g (eq_sym same_shape) Hg)
    as [s Hin].
  pose proof (list_max_ge _ _ Hg) as Hgmax.
  pose proof (list_max_ge _ _ (in_combine_r _ _ _ _ Hin)) as Hsmax.
  pose proof (pair_count_in _ _ _ Hin) as Hone.
  change (pair_count (combine gt seg) g s) with (RandSpec.p seg gt g s)
    in Hone.
  assert (In g (seq 1 (list_max gt))) as HgX by (apply in_seq; lia).
  pose proof rand_sum_c_nonneg as Hc. pose proof rand_sum_b2_nonneg as Hb.
  destruct (Nat.eq_dec s 0) as [-> | Hs].
  - pose proof (Zsum_map_ge_term (fun i => RandSpec.p seg gt i 0)
                  (seq 1 (list_max gt)) g
                  (fun i => rand_p_range i 0) HgX) as H.
    cbv beta in H. fold (RandSpec.sum_c seg gt) in H. lia.
  - assert (In s (seq 1 (list_max seg))) as HsY by (apply in_seq; lia).
    pose proof (Zsum_map_ge_term
                  (fun i => Zsum (map (fun j => RandSpec.p seg gt i j
                                                * RandSpec.p seg gt i j)
                                      (seq 1 (list_max seg))))
                  (seq 1 (list_max gt)) g) as H.
    cbv beta in H. fold (RandSpec.sum_b2 seg gt) in H.
    pose proof (Zsum_map_ge_term
                  (fun j => RandSpec.p seg gt g j * RandSpec.p seg gt g j)
                  (seq 1 (list_max seg)) s) as H'.
    cbv beta in H'.
    assert (forall j, 0 <= RandSpec.p seg gt g j * RandSpec.p seg gt g j)
      as Hsq by (intros j; pose proof (rand_p_range g j); nia).
    specialize (H' Hsq HsY).
    assert (forall i, 0 <= Zsum (map (fun j => RandSpec.p seg gt i j
                                              * RandSpec.p seg gt i j)
                                      (seq 1 (list_max seg)))) as Hrow.
    { intros i. apply Zsum_map_nonneg. intros j.
      pose proof (rand_p_range i j). nia. }
    specialize (H Hrow HgX). nia.
Qed.

End RandRange.

Section ScoreRange.

Open Scope R_scope.



End ScoreRange.



(** ** A segmentation scored against itself *)

Section RandSelf.

Open Scope Z_scope.

Lemma Zsum_map_zero (A : Type) (f : A -> Z) (l : list A) :
  (forall x, In x l -> f x = 0) -> Zsum (map f l) = 0.
Proof.
  induction l as [| a l IH]; intros H; [reflexivity |].
  cbn [map]. rewrite Zsum_cons, IH, (H a); [lia | now left |].
  intros x Hx. apply H. now right.
Qed.

Lemma Zsum_single (f : nat -> Z) (i : nat) (l : list nat) :
  NoDup l -> In i l ->
  (forall j, In j l -> j <> i -> f j = 0) ->
  Zsum (map f l) = f i.
Proof.
  induction 1 as [| a l Ha Hl IH]; intros Hi Hz; [contradiction |].
  cbn [map]. rewrite Zsum_cons.
  destruct Hi as [-> | Hi].
  - rewrite Zsum_map_zero; [lia |].
    intros j Hj. apply Hz; [now right |]. intros ->. contradiction.
  - rewrite IH; [| exact Hi | intros j Hj; apply Hz; now right].
    rewrite (Hz a); [lia | now left |]. intros ->. contradiction.
Qed.

Variable x : list nat.

Lemma rand_p_off_diagonal (i j : nat) : i <> j -> RandSpec.p x x i j = 0.
Proof.
  intros Hij. unfold RandSpec.p.
  induction x as [| a l IH]; [reflexivity |].
  cbn [combine filter fst snd].
  destruct (Nat.eqb_spec a i) as [-> | Hi]; cbn [andb]; [| exact IH].
  destruct (Nat.eqb_spec i j) as [E | _]; [contradiction | exact IH].
Qed.

(** The sum of the squared counts of the labels [1 ..]. *)
Let S : Z :=
  Zsum (map (fun i => RandSpec.p x x i i * RandSpec.p x x i i)
            (seq 1 (list_max x))).

Lemma rand_self_a_i :
  Zsum (map (fun v => v * v) (RandSpec.a_i x x)) = S.
Proof.
  unfold RandSpec.a_i. rewrite map_map. apply Zsum_map_ext.
  intros i Hi. apply in_seq in Hi.
  rewrite (@Zsum_single (fun j => RandSpec.p x x i j) i); try reflexivity.
  - apply seq_NoDup.
  - apply in_seq. lia.
  - intros j _ Hj. apply rand_p_off_diagonal. congruence.
Qed.

Lemma rand_self_b_j :
  Zsum (map (fun v => v * v) (RandSpec.b_j x x)) = S.
Proof.
  unfold RandSpec.b_j. rewrite map_map. apply Zsum_map_ext.
  intros j Hj.
  rewrite (@Zsum_single (fun i => RandSpec.p x x i j) j); try reflexivity.
  - apply seq_NoDup.
  - exact Hj.
  - intros i _ Hi. now apply rand_p_off_diagonal.
Qed.

Lemma rand_self_c : RandSpec.sum_c x x = 0.
Proof.
  unfold RandSpec.sum_c. apply Zsum_map_zero.
  intros i Hi. apply in_seq in Hi. apply rand_p_off_diagonal. lia.
Qed.

Lemma rand_self_b2 : RandSpec.sum_b2 x x = S.
Proof.
  unfold RandSpec.sum_b2. apply Zsum_map_ext. intros i Hi.
  rewrite (@Zsum_single
             (fun j => RandSpec.p x x i j * RandSpec.p x x i j) i);
    try reflexivity.
  - apply seq_NoDup.
  - exact Hi.
  - intros j _ Hj. rewrite rand_p_off_diagonal by congruence. reflexivity.
Qed.

Lemma rand_self_sums :
  RandSpec.sumA x x = S /\
  RandSpec.sumB x x
  = F.add (F.of_int S) (F.div (F.of_int 0) (F.of_int (Z.of_nat (length x)))) /\
  RandSpec.sumAB x x
  = F.add (F.of_int S) (F.div (F.of_int 0) (F.of_int (Z.of_nat (length x)))).
Proof.
  unfold RandSpec.sumA, RandSpec.sumB, RandSpec.sumAB.
  now rewrite rand_self_a_i, rand_self_b_j, rand_self_c, rand_self_b2.
Qed.

Lemma rand_self_positive :
  Exists (fun g => g <> 0%nat) x -> 1 <= S.
Proof.
  intros Hfg.
  pose proof (@rand_foreground x x eq_refl Hfg) as H.
  now rewrite rand_self_c, rand_self_b2, Z.add_0_r in H.
Qed.

End RandSelf.

(** A segmentation with a labelled voxel scored against itself (and
    [N * N < 2^63]): the error is 0, the precision and the recall are 1. *)
Theorem adapted_rand_self (x : list nat) :
  Exists (fun g => g <> 0) x ->
  (Z.of_nat (length x) * Z.of_nat (length x) < 2 ^ 63)%Z ->
  adapted_rand x x true = Ok (AreStats (F.Fin 0) (F.Fin 1) (F.Fin 1)) /\
  adapted_rand x x false = Ok (Are (F.Fin 0)).
Proof.
  intros Hfg Hfits.
  assert (x <> []) as Hne.
  { intros ->. apply Exists_exists in Hfg. destruct Hfg as [g [[] _]]. }
  assert (1 <= Z.of_nat (length x))%Z as HN.
  { destruct x; [contradiction | cbn [length]; lia]. }
  pose proof (@rand_self_positive x Hfg) as HS.
  destruct (@rand_self_sums x) as [HA [HB HAB]].
  apply IZR_le in HN, HS.
  unfold adapted_rand.
  rewrite (@rand_table_ok x x eq_refl Hne). cbn [bind].
  rewrite (@rand_sums_exact x x eq_refl Hfits), HA, HB, HAB.
  unfold rand_scores. cbn [rs_sumA rs_sumB rs_sumAB]. unfold F.of_int.
  set (s := IZR (Zsum _)) in *.
  set (n := IZR (Z.of_nat (length x))) in *.
  rewrite (@div_Fin 0 n) by lra. cbn [F.add].
  replace (s + 0 / n)%R with s by (field; lra).
  rewrite (@div_Fin s s) by lra.
  replace (s / s)%R with 1%R by (field; lra).
  cbn [F.mul F.add]. rewrite (@div_Fin (2 * 1 * 1) (1 + 1)) by lra.
  assert (F.sub (F.Fin 1) (F.Fin (2 * 1 * 1 / (1 + 1))) = F.Fin 0) as ->
      by (cbn; f_equal; field).
  split; reflexivity.
Qed.

Lemma adapted_rand_self_witness :
  adapted_rand [3; 0; 1; 3] [3; 0; 1; 3] true
  = Ok (AreStats (F.Fin 0) (F.Fin 1) (F.Fin 1)) /\
  adapted_rand [3; 0; 1; 3] [3; 0; 1; 3] false = Ok (Are (F.Fin 0)).
Proof.
  apply (@adapted_rand_self [3; 0; 1; 3]).
  - apply Exists_cons_hd. discriminate.
  - reflexivity.
Defined.

(** ** Division of the rows and columns of a sparse matrix *)

Lemma div_zero_l (c : float64) :
  c <> F.Fin 0 -> c <> F.NaN -> F.div (F.Fin 0) c = F.Fin 0.
Proof.
  intros Hz Hn. destruct c as [b | | |]; try reflexivity; try contradiction.
  rewrite div_Fin.
  - f_equal. unfold Rdiv. ring.
  - intros ->. now apply Hz.
Qed.

Lemma divided_entry (u : option float64) (c : float64) :
  c <> F.Fin 0 -> c <> F.NaN ->
  value F.zero
    (option_map (fun v => if F.nonzero v then F.div v c else v) u)
  = F.div (value F.zero u) c.
Proof.
  intros Hz Hn. destruct u as [v |]; cbn [option_map value].
  - destruct (F.nonzero v) eqn:E; [reflexivity |].
    apply nonzero_false in E. subst v. symmetry. now apply div_zero_l.
  - symmetry. now apply div_zero_l.
Qed.

(** On a sparse matrix [divide_rows] keeps the shape and the stored
    positions, and yields [out[i, j] = matrix[i, j] / column[i]] wherever
    the divisor [column[i]] is neither zero nor [nan]. *)
Theorem divide_rows_quotient (m : float_matrix) (column : list float64)
  (i j : nat) :
  i < nrows m ->
  nrows m <= length column ->
  nth i column F.NaN <> F.Fin 0 ->
  nth i column F.NaN <> F.NaN ->
  exists out,
    divide_rows (Sparse m) column = Sparse out /\
    nrows out = nrows m /\ ncols out = ncols m /\
    (entry out i j = None <-> entry m i j = None) /\
    get F.zero out i j = F.div (get F.zero m i j) (nth i column F.NaN).
Proof.
  intros _ _ Hz Hn. eexists. split; [reflexivity |].
  split; [reflexivity |]. split; [reflexivity |].
  unfold get, map_data. cbn [entry]. split.
  - destruct (entry m i j); cbn [option_map]; split; intros H;
      first [discriminate H | reflexivity].
  - now apply divided_entry.
Qed.

Lemma divide_rows_quotient_witness :
  exists out,
    divide_rows (Sparse (SpMatrix 1 1 (fun _ _ => Some (F.Fin 6))))
                [F.Fin 3]
    = Sparse out /\
    nrows out = 1 /\ ncols out = 1 /\
    (entry out 0 0 = None <-> Some (F.Fin 6) = None) /\
    get F.zero out 0 0 = F.div (F.Fin 6) (F.Fin 3).
Proof.
  apply (@divide_rows_quotient
           (SpMatrix 1 1 (fun _ _ => Some (F.Fin 6))) [F.Fin 3] 0 0).
  - cbn [nrows]. lia.
  - cbn [nrows length]. lia.
  - cbn [nth]. intros H. injection H as H. lra.
  - cbn [nth]. discriminate.
Defined.

(** On a sparse matrix [divide_columns] keeps the shape and the stored
    positions, and yields [out[i, j] = matrix[i, j] / row[j]] wherever the
    divisor [row[j]] is neither zero nor [nan]. *)
Theorem divide_columns_quotient (m : float_matrix) (row : list float64)
  (i j : nat) :
  j < ncols m ->
  ncols m <= length row ->
  nth j row F.NaN <> F.Fin 0 ->
  nth j row F.NaN <> F.NaN ->
  exists out,
    divide_columns (Sparse m) row = Sparse out /\
    nrows out = nrows m /\ ncols out = ncols m /\
    (entry out i j = None <-> entry m i j = None) /\
    get F.zero out i j = F.div (get F.zero m i j) (nth j row F.NaN).
Proof.
  intros _ _ Hz Hn. eexists. split; [reflexivity |].
  split; [reflexivity |]. split; [reflexivity |].
  unfold get, map_data. cbn [entry]. split.
  - destruct (entry m i j); cbn [option_map]; split; intros H;
      first [discriminate H | reflexivity].
  - now apply divided_entry.
Qed.

Lemma divide_columns_quotient_witness :
  exists out,
    divide_columns (Sparse (SpMatrix 1 1 (fun _ _ => Some (F.Fin 6))))
                   [F.Fin 3]
    = Sparse out /\
    nrows out = 1 /\ ncols out = 1 /\
    (entry out 0 0 = None <-> Some (F.Fin 6) = None) /\
    get F.zero out 0 0 = F.div (F.Fin 6) (F.Fin 3).
Proof.
  apply (@divide_columns_quotient
           (SpMatrix 1 1 (fun _ _ => Some (F.Fin 6))) [F.Fin 3] 0 0).
  - cbn [ncols]. lia.
  - cbn [ncols length]. lia.
  - cbn [nth]. intros H. injection H as H. lra.
  - cbn [nth]. discriminate.
Defined.

(** A zero of the matrix, stored or not, is never divided: with vectors
    as long as the dimension they divide, it stays zero also where the
    divisor is zero or [nan], where the quotient
    [matrix[i, j] / column[i]] would be [nan]. *)
Theorem divide_keeps_zeros (m : float_matrix) (column row : list float64)
  (i j : nat) :
  i < nrows m -> j < ncols m ->
  nrows m <= length column ->
  ncols m <= length row ->
  get F.zero m i j = F.Fin 0 ->
  (exists out,
      divide_rows (Sparse m) column = Sparse out /\
      get F.zero out i j = F.Fin 0) /\
  (exists out,
      divide_columns (Sparse m) row = Sparse out /\
      get F.zero out i j = F.Fin 0).
Proof.
  intros _ _ _ _ Hz.
  assert (forall c,
             value F.zero
               (option_map (fun u => if F.nonzero u then F.div u c else u)
                           (entry m i j)) = F.Fin 0) as H.
  { intros c. unfold get in Hz.
    destruct (entry m i j) as [u |]; cbn [option_map value] in *;
      [| reflexivity].
    subst u. now rewrite nonzero_zero. }
  split; eexists; (split; [reflexivity |]);
    unfold get, map_data; cbn [entry]; apply H.
Qed.

Lemma divide_keeps_zeros_witness :
  ((exists out,
       divide_rows (Sparse (SpMatrix 1 1 (fun _ _ => Some (F.Fin 0))))
                   [F.Fin 0]
       = Sparse out /\
       get F.zero out 0 0 = F.Fin 0) /\
   (exists out,
       divide_columns (Sparse (SpMatrix 1 1 (fun _ _ => Some (F.Fin 0))))
                      [F.NaN]
       = Sparse out /\
       get F.zero out 0 0 = F.Fin 0)) /\
  F.div (F.Fin 0) (F.Fin 0) = F.NaN.
Proof.
  split.
  - apply (@divide_keeps_zeros
             (SpMatrix 1 1 (fun _ _ => Some (F.Fin 0)))
             [F.Fin 0] [F.NaN] 0 0).
    + cbn [nrows]. lia.
    + cbn [ncols]. lia.
    + cbn [nrows length]. lia.
    + cbn [ncols length]. lia.
    + reflexivity.
  - apply div_zero_zero.
Defined.

(** ** CREMI distance statistics *)

Section CremiMasks.

Open Scope Z_scope.

(** The conversion of one voxel. *)
Let conv (z : Z) : Z :=
  if Z.eqb (z mod 2 ^ 64) 0 then 2 ^ 64 - 1 else z mod 2 ^ 64.

Lemma convert_dtype_map (data : list Z) : convert_dtype data = map conv data.
Proof.
  unfold convert_dtype. cbv zeta. rewrite map_map. reflexivity.
Qed.

Lemma conv_range (z : Z) : 0 < conv z < 2 ^ 64.
Proof.
  unfold conv. pose proof (Z.mod_pos_bound z (2 ^ 64) eq_refl) as H.
  destruct (Z.eqb_spec (z mod 2 ^ 64) 0); lia.
Qed.

Lemma conv_background (z : Z) :
  Z.eqb (conv z) (2 ^ 64 - 1) = is_background z.
Proof.
  unfold conv, is_background.
  destruct (Z.eqb_spec (z mod 2 ^ 64) 0); reflexivity.
Qed.

Lemma conv_invalid (z : Z) : Z.eqb (conv z) (2 ^ 64 - 2) = is_invalid z.
Proof.
  unfold conv, is_invalid.
  destruct (Z.eqb_spec (z mod 2 ^ 64) 0) as [E | E]; [| reflexivity].
  rewrite E. reflexivity.
Qed.

Lemma conv_idempotent (z : Z) : conv (conv z) = conv z.
Proof.
  pose proof (conv_range z) as H. unfold conv at 1.
  rewrite (Z.mod_small (conv z)) by lia.
  destruct (Z.eqb_spec (conv z) 0); [lia | reflexivity].
Qed.

Lemma combine_map_both (A B C D : Type) (f : A -> C) (g : B -> D)
  (l : list A) (l' : list B) :
  combine (map f l) (map g l')
  = map (fun v => (f (fst v), g (snd v))) (combine l l').
Proof.
  revert l'. induction l as [| a l IH]; intros [| b l']; simpl;
    try reflexivity.
  now rewrite IH.
Qed.

Lemma map_combine_self (A B : Type) (h : A * A -> B) (l : list A) :
  map h (combine l l) = map (fun x => h (x, x)) l.
Proof.
  induction l as [| a l IH]; [reflexivity |].
  cbn [combine map]. now rewrite IH.
Qed.

Lemma test_clefts_mask_eq (pred gt : list Z) :
  length pred = length gt ->
  logical_or (map (fun t => Z.eqb t 0xffffffffffffffff) (convert_dtype pred))
             (map (fun t => Z.eqb t 0xfffffffffffffffe) (convert_dtype gt))
  = Ok (map test_masked (combine pred gt)).
Proof.
  intros Hlen. unfold logical_or.
  rewrite !length_map, !convert_dtype_map, !length_map, Hlen, Nat.eqb_refl.
  rewrite !map_map, combine_map_both, map_map. apply (f_equal Ok).
  apply map_ext. intros [p g]. cbn [fst snd]. unfold test_masked.
  cbn [fst snd]. now rewrite <- conv_background, <- conv_invalid.
Qed.

Lemma truth_clefts_mask_eq (gt : list Z) :
  logical_or (map (fun t => Z.eqb t 0xffffffffffffffff) (convert_dtype gt))
             (map (fun t => Z.eqb t 0xfffffffffffffffe) (convert_dtype gt))
  = Ok (map truth_masked gt).
Proof.
  unfold logical_or.
  rewrite !length_map, Nat.eqb_refl, !convert_dtype_map.
  rewrite !map_map, combine_map_both, map_map, map_combine_self.
  apply (f_equal Ok). apply map_ext. intros g. cbn [fst snd].
  unfold truth_masked. now rewrite <- conv_background, <- conv_invalid.
Qed.

End CremiMasks.

(** [convert_dtype] keeps the shape and leaves no zero: every value lies
    in [1 .. 2^64 - 1]; the value [0xffffffffffffffff] marks exactly the
    voxels without a label; converting twice changes nothing more. *)
Theorem convert_dtype_labels (data : list Z) :
  length (convert_dtype data) = length data /\
  Forall (fun d => 0 < d < 2 ^ 64)%Z (convert_dtype data) /\
  Forall2 (fun z d => Z.eqb d 0xffffffffffffffff = is_background z)
          data (convert_dtype data) /\
  convert_dtype (convert_dtype data) = convert_dtype data.
Proof.
  rewrite !convert_dtype_map. split; [apply length_map |]. split; [| split].
  - apply Forall_map, Forall_forall. intros z _. apply conv_range.
  - induction data as [| z l IH]; cbn [map]; constructor; [| exact IH].
    apply conv_background.
  - rewrite map_map. apply map_ext. intros z. apply conv_idempotent.
Qed.

Lemma selected_nonempty (A B : Type) (f : B -> bool) (d : list A)
  (l : list B) :
  length d = length l ->
  map fst (filter snd (combine d (invert (map f l)))) <> []
  <-> Exists (fun x => f x = false) l.
Proof.
  revert d. induction l as [| x l IH]; intros [| a d] Hlen;
    try discriminate.
  - split; [intros H; now contradiction H | intros H; inversion H].
  - injection Hlen as Hlen. cbn [map invert combine filter snd].
    destruct (f x) eqn:E; cbn [negb].
    + fold (invert (map f l)). rewrite (IH d Hlen). split.
      * intros H. now apply Exists_cons_tl.
      * intros H. inversion H as [? ? H0 | ? ? H0]; subst;
          [congruence | exact H0].
    + cbn [map]. split; [| discriminate].
      intros _. now apply Exists_cons_hd.
Qed.

Lemma selected_zero (B : Type) (f g : B -> bool) (ps : list B)
  (d : list float64) :
  Forall (fun v => f v = false -> g v = false) ps ->
  Forall2 (fun (b : bool) x => b = false -> x = F.Fin 0) (map g ps) d ->
  Forall (fun x => x = F.Fin 0)
         (map fst (filter snd (combine d (invert (map f ps))))).
Proof.
  revert d. induction ps as [| v ps IH]; intros d Hfg Hd.
  - destruct d; constructor.
  - cbn [map] in Hd. inversion Hd as [| b x lb d' Hx Hd']; subst.
    inversion Hfg as [| ? ? Hv Hfg']; subst.
    cbn [map invert combine filter snd].
    fold (invert (map f ps)).
    destruct (f v) eqn:E; cbn [negb].
    + now apply IH.
    + cbn [map fst]. constructor; [| now apply IH].
      apply Hx, Hv. reflexivity.
Qed.

Lemma mean_zeros (l : list float64) :
  l <> [] -> Forall (fun x => x = F.Fin 0) l -> mean l = F.Fin 0.
Proof.
  intros Hne Hz. unfold mean.
  assert (F.sum l = F.Fin 0) as ->.
  { induction Hz as [| x l -> _ IH]; [reflexivity |].
    unfold F.sum in *. cbn [fold_right].
    destruct l as [| y l]; [cbn; f_equal; lra |].
    rewrite IH by discriminate. cbn. f_equal. lra. }
  unfold F.of_int. rewrite div_Fin.
  - f_equal. unfold Rdiv. ring.
  - apply not_0_IZR. destruct l; [contradiction | cbn [length]; lia].
Qed.

Lemma map_snd_combine (A B C : Type) (g : B -> C) (l : list A)
  (l' : list B) :
  length l = length l' ->
  map g l' = map (fun v => g (snd v)) (combine l l').
Proof.
  revert l'. induction l as [| a l IH]; intros [| b l'] Hlen;
    try discriminate; [reflexivity |].
  injection Hlen as Hlen. cbn [combine map snd]. now rewrite <- IH.
Qed.

Section CremiDistance.

Variable edt : list bool -> list float64.
Hypothesis edt_shape : forall mask, length (edt mask) = length mask.

Variables pred gt : list Z.
Hypothesis same_shape : length pred = length gt.

Let tm : list bool := map test_masked (combine pred gt).
Let trm : list bool := map truth_masked gt.
(** The distances collected for the two statistics. *)
Let fps : list float64 :=
  map fst (filter snd (combine (edt trm) (invert tm))).
Let fns : list float64 :=
  map fst (filter snd (combine (edt tm) (invert trm))).

Lemma mask_lengths : length tm = length gt /\ length trm = length gt.
Proof.
  unfold tm, trm. rewrite !length_map, length_combine, same_shape.
  split; [apply Nat.min_id | reflexivity].
Qed.

Lemma count_false_positives_ok (mask : list bool) (d : list float64)
  (t : float64) :
  length d = length mask ->
  exists n, count_false_positives mask d t = Ok n.
Proof.
  intros H. unfold count_false_positives, logical_and, invert.
  rewrite !length_map, H, Nat.eqb_refl. cbn [bind]. unfold masked.
  rewrite length_map, length_combine, !length_map, H, Nat.min_id,
    Nat.eqb_refl.
  cbn [bind]. eexists. reflexivity.
Qed.

Lemma cremi_distance_eval :
  cremi_distance edt pred gt
  = match fps, fns with
    | [], _ => Raise ValueError
    | _ :: _, [] => Raise ValueError
    | _ :: _, _ :: _ => Ok (mean fps, mean fns)
    end.
Proof.
  destruct mask_lengths as [Htm Htrm].
  unfold cremi_distance. cbv zeta.
  rewrite (test_clefts_mask_eq pred gt same_shape), truth_clefts_mask_eq.
  cbn [bind]. fold tm trm.
  destruct (@count_false_positives_ok tm (edt trm) (F.Fin 200)) as [n1 ->];
    [now rewrite edt_shape, Htm, Htrm |].
  cbn [bind].
  change (count_false_negatives trm (edt tm) (F.Fin 200))
    with (count_false_positives trm (edt tm) (F.Fin 200)).
  destruct (@count_false_positives_ok trm (edt tm) (F.Fin 200)) as [n2 ->];
    [now rewrite edt_shape, Htm, Htrm |].
  cbn [bind].
  unfold acc_false_positives, acc_false_negatives, masked, invert.
  rewrite !length_map, !edt_shape, Htm, Htrm, Nat.eqb_refl.
  cbn [bind]. fold (invert tm) (invert trm). fold fps fns.
  destruct fps; cbn [amax_float bind]; [reflexivity |].
  destruct fns; reflexivity.
Qed.

Lemma fps_nonempty :
  fps <> [] <-> Exists (fun v => test_masked v = false) (combine pred gt).
Proof.
  destruct mask_lengths as [Htm Htrm]. unfold fps, tm.
  apply selected_nonempty.
  rewrite edt_shape, Htrm, length_combine, same_shape. now rewrite Nat.min_id.
Qed.

Lemma fns_nonempty :
  fns <> [] <-> Exists (fun g => truth_masked g = false) gt.
Proof.
  destruct mask_lengths as [Htm Htrm]. unfold fns, trm.
  apply selected_nonempty. now rewrite edt_shape, Htm.
Qed.

End CremiDistance.

(** For volumes of one shape (and a distance transform that keeps the
    shape), [cremi_distance] returns a pair exactly when some voxel of the
    prediction carries a label where the ground truth is valid and some
    voxel of the ground truth carries a label; otherwise [np.amax] of an
    empty selection raises [ValueError], and no other exception occurs. *)
Theorem cremi_distance_returns (edt : list bool -> list float64)
  (pred gt : list Z) :
  length pred = length gt ->
  (forall mask, length (edt mask) = length mask) ->
  ((exists r, cremi_distance edt pred gt = Ok r)
   <-> Exists (fun v => test_masked v = false) (combine pred gt) /\
       Exists (fun g => truth_masked g = false) gt) /\
  (forall e, cremi_distance edt pred gt = Raise e -> e = ValueError).
Proof.
  intros Hlen Hedt.
  pose proof (@fps_nonempty edt Hedt pred gt Hlen) as Hp.
  pose proof (@fns_nonempty edt Hedt pred gt Hlen) as Hn.
  rewrite (@cremi_distance_eval edt Hedt pred gt Hlen).
  cbv zeta in Hp, Hn. rewrite <- Hp, <- Hn.
  destruct (map fst (filter snd (combine (edt (map truth_masked gt)) _)))
    as [| a l];
    [| destruct (map fst (filter snd (combine (edt (map test_masked _)) _)))
         as [| b l']].
  - split.
    + split; [intros [r H]; discriminate H | intros [H _]; now contradiction H].
    + intros e H. now injection H as <-.
  - split.
    + split; [intros [r H]; discriminate H | intros [_ H]; now contradiction H].
    + intros e H. now injection H as <-.
  - split.
    + split; [intros _; split; discriminate | intros _; eexists; reflexivity].
    + intros e H. discriminate H.
Qed.

Lemma cremi_distance_returns_witness :
  ((exists r,
       cremi_distance
         (fun mask => map (fun b : bool => if b then F.Fin 1 else F.Fin 0) mask)
         [0; 5]%Z [7; 7]%Z = Ok r)
   <-> Exists (fun v => test_masked v = false) (combine [0; 5]%Z [7; 7]%Z) /\
       Exists (fun g => truth_masked g = false) [7; 7]%Z) /\
  (forall e,
      cremi_distance
        (fun mask => map (fun b : bool => if b then F.Fin 1 else F.Fin 0) mask)
        [0; 5]%Z [7; 7]%Z = Raise e -> e = ValueError).
Proof.
  apply (@cremi_distance_returns
           (fun mask => map (fun b : bool => if b then F.Fin 1 else F.Fin 0)
                            mask)
           [0; 5]%Z [7; 7]%Z).
  - reflexivity.
  - intros mask. apply length_map.
Defined.

(** With a distance transform that is zero at the [False] elements of its
    mask: when every labelled voxel of the prediction (where the ground
    truth is valid) is a labelled voxel of the ground truth, the first
    mean returned by [cremi_distance] is zero; when every labelled voxel
    of the ground truth is one of the prediction, the second is. *)
Theorem cremi_distance_contained (edt : list bool -> list float64)
  (pred gt : list Z) (fp fn : float64) :
  length pred = length gt ->
  (forall mask,
      Forall2 (fun (b : bool) d => b = false -> d = F.Fin 0) mask (edt mask)) ->
  cremi_distance edt pred gt = Ok (fp, fn) ->
  (Forall (fun v => test_masked v = false -> truth_masked (snd v) = false)
          (combine pred gt) ->
   fp = F.Fin 0) /\
  (Forall (fun v => truth_masked (snd v) = false -> test_masked v = false)
          (combine pred gt) ->
   fn = F.Fin 0).
Proof.
  intros Hlen Hzero Hok.
  assert (Hedt : forall mask, length (edt mask) = length mask).
  { intros mask. symmetry. exact (Forall2_length (Hzero mask)). }
  rewrite (@cremi_distance_eval edt Hedt pred gt Hlen) in Hok.
  pose proof (Hzero (map truth_masked gt)) as Htr.
  pose proof (Hzero (map test_masked (combine pred gt))) as Hte.
  rewrite (@map_snd_combine Z Z bool truth_masked pred gt Hlen) in Htr.
  pose proof (fun H => @selected_zero (Z * Z) test_masked
                         (fun v => truth_masked (snd v)) (combine pred gt)
                         _ H Htr) as Hfp.
  pose proof (fun H => @selected_zero (Z * Z)
                         (fun v => truth_masked (snd v)) test_masked
                         (combine pred gt) _ H Hte) as Hfn.
  rewrite <- (@map_snd_combine Z Z bool truth_masked pred gt Hlen)
    in Hfp, Hfn.
  destruct (map fst (filter snd (combine (edt (map truth_masked gt)) _)))
    as [| a l] eqn:Ea; [discriminate Hok |].
  destruct (map fst (filter snd (combine (edt (map test_masked _)) _)))
    as [| b l'] eqn:Eb; [discriminate Hok |].
  injection Hok as <- <-. split; intros H.
  - apply mean_zeros; [discriminate | now apply Hfp].
  - apply mean_zeros; [discriminate | now apply Hfn].
Qed.

Lemma cremi_distance_contained_witness :
  exists fn,
    cremi_distance
      (fun mask => map (fun b : bool => if b then F.Fin 1 else F.Fin 0) mask)
      [0; 5]%Z [7; 7]%Z
    = Ok (F.Fin 0, fn).
Proof.
  assert (exists fp fn,
             cremi_distance
               (fun mask => map (fun b : bool => if b then F.Fin 1 else F.Fin 0)
                                mask)
               [0; 5]%Z [7; 7]%Z = Ok (fp, fn))
    as [fp [fn Hok]] by (eexists; eexists; reflexivity).
  destruct (@cremi_distance_contained
              (fun mask => map (fun b : bool => if b then F.Fin 1 else F.Fin 0)
                               mask)
              [0; 5]%Z [7; 7]%Z fp fn) as [H _].
  - reflexivity.
  - intros mask. induction mask as [| b mask IH]; cbn [map]; constructor;
      [intros -> | exact IH]; reflexivity.
  - exact Hok.
  - exists fn. rewrite Hok, H; [reflexivity |].
    repeat (constructor; [intros _; reflexivity |]). constructor.
Defined.

(** With a distance transform that is zero at the [False] elements of its
    mask, a volume with a labelled voxel compared with itself has the
    distances [(0, 0)]. *)
Theorem cremi_distance_self (edt : list bool -> list float64) (x : list Z) :
  (forall mask,
      Forall2 (fun (b : bool) d => b = false -> d = F.Fin 0) mask (edt mask)) ->
  Exists (fun g => truth_masked g = false) x ->
  cremi_distance edt x x = Ok (F.Fin 0, F.Fin 0).
Proof.
  intros Hzero Hex.
  assert (Hedt : forall mask, length (edt mask) = length mask).
  { intros mask. symmetry. exact (Forall2_length (Hzero mask)). }
  assert (Hdiag : forall v, In v (combine x x) ->
                            test_masked v = truth_masked (snd v)).
  { intros [a b] Hin. pose proof (in_combine_diag _ _ Hin) as E.
    cbn [fst snd] in E. subst b. reflexivity. }
  pose proof (proj2 (@fns_nonempty edt Hedt x x eq_refl) Hex) as Hn.
  assert (Exists (fun v => test_masked v = false) (combine x x)) as Hex'.
  { apply Exists_combine_diag in Hex.
    apply Exists_exists in Hex. destruct Hex as [v [Hin Hv]].
    apply Exists_exists. exists v. split; [exact Hin |].
    rewrite (Hdiag v Hin). now rewrite <- (in_combine_diag _ _ Hin). }
  pose proof (proj2 (@fps_nonempty edt Hedt x x eq_refl) Hex') as Hp.
  cbv zeta in Hp, Hn.
  pose proof (Hzero (map truth_masked x)) as Htr.
  pose proof (Hzero (map test_masked (combine x x))) as Hte.
  rewrite (@map_snd_combine Z Z bool truth_masked x x eq_refl) in Htr.
  assert (Hfp := @selected_zero (Z * Z) test_masked
                   (fun v => truth_masked (snd v)) (combine x x) _
                   (proj2 (Forall_forall _ _)
                      (fun v Hin H => eq_trans (eq_sym (Hdiag v Hin)) H))
                   Htr).
  assert (Hfn := @selected_zero (Z * Z)
                   (fun v => truth_masked (snd v)) test_masked
                   (combine x x) _
                   (proj2 (Forall_forall _ _)
                      (fun v Hin H => eq_trans (Hdiag v Hin) H))
                   Hte).
  rewrite <- (@map_snd_combine Z Z bool truth_masked x x eq_refl)
    in Hfp, Hfn.
  rewrite (@cremi_distance_eval edt Hedt x x eq_refl).
  destruct (map fst (filter snd (combine (edt (map truth_masked x)) _)))
    as [| a l] eqn:Ea; [now contradiction Hp |].
  destruct (map fst (filter snd (combine (edt (map test_masked _)) _)))
    as [| b l'] eqn:Eb; [now contradiction Hn |].
  rewrite (mean_zeros (l := a :: l)) by (discriminate || exact Hfp).
  rewrite (mean_zeros (l := b :: l')) by (discriminate || exact Hfn).
  reflexivity.
Qed.

Lemma cremi_distance_self_witness :
  cremi_distance
    (fun mask => map (fun b : bool => if b then F.Fin 1 else F.Fin 0) mask)
    [0; 5; 5]%Z [0; 5; 5]%Z
  = Ok (F.Fin 0, F.Fin 0).
Proof.
  apply (@cremi_distance_self
           (fun mask => map (fun b : bool => if b then F.Fin 1 else F.Fin 0)
                            mask)
           [0; 5; 5]%Z).
  - intros mask. induction mask as [| b mask IH]; cbn [map]; constructor;
      [intros -> | exact IH]; reflexivity.
  - apply Exists_cons_tl, Exists_cons_hd. reflexivity.
Defined.

(** ** Sums beyond the 64-bit range *)

Section RandWrapped.

Open Scope Z_scope.

(** A wrapped sum is the mathematical sum wrapped once. *)
Lemma sum64_wrapped (l l' : list Z) :
  Forall2 cong64 l l' -> sum64 l = wrap64 (Zsum l').
Proof.
  intros Hc. rewrite <- sum64_canonical. apply cong64_wrap, sum64_cong, Hc.
Qed.

(** The sums of [adapted_rand] whatever the size of the volumes: each
    integer sum is the sum of the formula wrapped to 64 bits. *)
Lemma rand_sums_wrapped (seg gt : list nat) :
  length seg = length gt ->
  rand_sums_of
    (SpMatrix (S (list_max gt)) (S (list_max seg))
              (coo_entry add64 (triples (repeat 1 (length gt)) gt seg)))
    (length gt)
  = RandSums
      (wrap64 (RandSpec.sumA seg gt))
      (F.add (F.of_int
                (wrap64 (Zsum (map (fun x => x * x) (RandSpec.b_j seg gt)))))
             (F.div (F.of_int (wrap64 (RandSpec.sum_c seg gt)))
                    (F.of_int (Z.of_nat (length gt)))))
      (F.add (F.of_int (wrap64 (RandSpec.sum_b2 seg gt)))
             (F.div (F.of_int (wrap64 (RandSpec.sum_c seg gt)))
                    (F.of_int (Z.of_nat (length gt))))).
Proof.
  intros Hlen.
  set (p_ij := SpMatrix (S (list_max gt)) (S (list_max seg))
                 (coo_entry add64 (triples (repeat 1 (length gt)) gt seg))).
  unfold rand_sums_of, RandSpec.sumA.
  assert (sum64 (map (fun x => mul64 x x)
                     (row_sums 0 add64 (slice p_ij 1 (nrows p_ij) 0 (ncols p_ij))))
          = wrap64 (Zsum (map (fun x => x * x) (RandSpec.a_i seg gt)))) as HA.
  { apply sum64_wrapped.
    apply (Forall2_map (R := cong64)); [| apply (@a_i_cong seg gt Hlen)].
    intros x y Hxy. now apply mul64_cong. }
  assert (sum64 (map (fun x => mul64 x x)
                     (col_sums 0 add64 (slice p_ij 1 (nrows p_ij) 1 (ncols p_ij))))
          = wrap64 (Zsum (map (fun x => x * x) (RandSpec.b_j seg gt)))) as HB.
  { apply sum64_wrapped.
    apply (Forall2_map (R := cong64)); [| apply (@b_i_cong seg gt Hlen)].
    intros x y Hxy. now apply mul64_cong. }
  assert (msum 0 add64 (slice p_ij 1 (nrows p_ij) 0 1)
          = wrap64 (RandSpec.sum_c seg gt)) as HC.
  { unfold msum. apply sum64_wrapped, (@c_cong seg gt Hlen). }
  assert (msum 0 add64
            (multiply mul64 (slice p_ij 1 (nrows p_ij) 1 (ncols p_ij))
                            (slice p_ij 1 (nrows p_ij) 1 (ncols p_ij)))
          = wrap64 (RandSpec.sum_b2 seg gt)) as HD.
  { unfold msum. apply sum64_wrapped, (@d_cong seg gt Hlen). }
  cbv zeta. rewrite HA, HB, HC, HD. reflexivity.
Qed.

Lemma list_max_repeat (a n : nat) : n <> 0%nat -> list_max (repeat a n) = a.
Proof.
  induction n as [| n IH]; intros Hn; [contradiction |].
  cbn [repeat list_max fold_right]. destruct n as [| n].
  - cbn [repeat fold_right]. apply Nat.max_0_r.
  - fold (list_max (repeat a (S n))). rewrite IH by discriminate.
    apply Nat.max_id.
Qed.

Lemma pair_count_repeat (a n : nat) :
  pair_count (combine (repeat a n) (repeat a n)) a a = Z.of_nat n.
Proof.
  induction n as [| n IH]; [reflexivity |].
  cbn [repeat combine]. rewrite pair_count_cons, IH, !Nat.eqb_refl.
  cbn [andb]. lia.
Qed.

End RandWrapped.

(** The formula of a volume with a labelled voxel scored against itself:
    the error is 0. *)
Lemma rand_spec_self (x : list nat) :
  Exists (fun g => g <> 0) x -> RandSpec.error x x = F.Fin 0.
Proof.
  intros Hfg.
  assert (1 <= Z.of_nat (length x))%Z as HN.
  { destruct x; [| cbn [length]; lia].
    apply Exists_exists in Hfg. destruct Hfg as [g [[] _]]. }
  pose proof (@rand_self_positive x Hfg) as HS.
  destruct (@rand_self_sums x) as [HA [HB HAB]].
  apply IZR_le in HN, HS.
  unfold RandSpec.error, RandSpec.precision, RandSpec.recall.
  rewrite HA, HB, HAB. unfold F.of_int.
  set (s := IZR (Zsum _)) in *.
  set (n := IZR (Z.of_nat (length x))) in *.
  rewrite (@div_Fin 0 n) by lra. cbn [F.add].
  replace (s + 0 / n)%R with s by (field; lra).
  rewrite (@div_Fin s s) by lra.
  replace (s / s)%R with 1%R by (field; lra).
  cbn [F.mul F.add]. rewrite (@div_Fin (2 * 1 * 1) (1 + 1)) by lra.
  cbn. f_equal. field.
Qed.

(** A volume of [2^32] voxels, all labelled 1, scored against itself:
    the squared count [2^64] wraps to 0 in every sum, and the result is
    the [nan] of [0/0], where the formula gives 0. *)
Lemma adapted_rand_wraps (n : nat) :
  Z.of_nat n = 4294967296%Z ->
  adapted_rand (repeat 1 n) (repeat 1 n) false = Ok (Are F.NaN) /\
  RandSpec.error (repeat 1 n) (repeat 1 n) = F.Fin 0.
Proof.
  intros Hn.
  assert (n <> 0) as Hn0 by (intros ->; discriminate Hn).
  pose proof (list_max_repeat 1 Hn0) as Hmax.
  pose proof (pair_count_repeat 1 n) as Hcount.
  pose proof (repeat_length 1 n) as Hlen.
  assert (Exists (fun g => g <> 0) (repeat 1 n)) as Hfg.
  { destruct n as [| m]; [contradiction |].
    cbn [repeat]. apply Exists_cons_hd. discriminate. }
  assert (repeat 1 n <> []) as Hne.
  { destruct n as [| m]; [contradiction | discriminate]. }
  remember (repeat 1 n) as x eqn:Ex.
  split; [| now apply rand_spec_self].
  assert (Zsum (map (fun i => RandSpec.p x x i i * RandSpec.p x x i i)%Z
                    (seq 1 (list_max x)))
          = 18446744073709551616%Z) as HS.
  { rewrite Hmax. cbn [seq map]. rewrite Zsum_cons, spec_p_pair_count.
    rewrite Hcount, Hn. reflexivity. }
  unfold adapted_rand.
  rewrite (@rand_table_ok x x eq_refl Hne). cbn [bind].
  rewrite (@rand_sums_wrapped x x eq_refl).
  rewrite (proj1 (@rand_self_sums x)), rand_self_b_j, rand_self_c,
    rand_self_b2, HS, Hlen, Hn.
  change (wrap64 18446744073709551616) with 0%Z.
  change (wrap64 0) with 0%Z.
  unfold rand_scores. cbn [rs_sumA rs_sumB rs_sumAB]. unfold F.of_int.
  rewrite (@div_Fin 0 4294967296) by lra. cbn [F.add].
  replace (0 + 0 / 4294967296)%R with 0%R by lra.
  rewrite !div_zero_zero. reflexivity.
Qed.

(** C1 as stated fails at both ends of "every pair of arrays": on empty
    arrays [adapted_rand] raises instead of returning an error, and on
    [2^32] voxels all labelled 1 the 64-bit sums wrap around and the
    result is [nan], where the formula gives 0. *)
Lemma adapted_rand_formula_fails :
  adapted_rand [] [] false = Raise ValueError /\
  adapted_rand (repeat 1 (Z.to_nat 4294967296))
               (repeat 1 (Z.to_nat 4294967296)) false
  = Ok (Are F.NaN) /\
  RandSpec.error (repeat 1 (Z.to_nat 4294967296))
                 (repeat 1 (Z.to_nat 4294967296))
  = F.Fin 0.
Proof.
  split; [reflexivity |].
  apply adapted_rand_wraps. apply Z2Nat.id. discriminate.
Qed.
